(** * Face-track identity continuity: the scorer, the reconciler and the
      debounced attendance decision of the [App] component

    The development embeds the tracking core of the application component
    (the file that defines [calculateIoU] and [captureAndAnalyze]) and
    proves the properties its specification states about it.

    Modelling conventions.
    - The scorer and the matching loop are given twice.  Over the exact
      rationals ([Q]) a coordinate or an area is a rational, the division
      returns a [JsNum] with the IEEE special values, and the properties
      that do not turn on rounding are proved.  Over IEEE binary64
      ([Binary64], on the [spec_float] of the standard library, every
      operation rounded to nearest) the numbers are those of the engine,
      and the decisions at the threshold are proved there.
    - Timestamps ([Date.now()]) and track identifiers are integers ([Z]);
      identifiers stay far below 2^53, where doubles are exact.
    - A JavaScript [Map] is an association list in insertion order
      ([JsMap]); a [Set] of indices is a list with a membership test.
    - Objects shared by reference (the detections, which the source
      annotates in place) are addressed by their index in the array.
    - [captureAndAnalyze] is asynchronous: [beginCycle] is the part before
      the [await] on the detector and [completeCycle] the part after it;
      the handlers may run in between.  It is a [useCallback] closure: the
      part after the [await] reads the refs as they are then, and
      [students] and [isApiError] as they were in the render that made
      the call.  The canvas and the hand detections play no part in the
      tracking and are left out; of the video element the state keeps
      [srcObject].
    - The detection service and the CSV export are embedded with what the
      runtime supplies ([trim], [JSON.parse], the [Date] formatters) as
      parameters. *)

From Stdlib Require Import String ZArith QArith Qminmax Lia Lqa Bool List Sorted SpecFloat.
Import ListNotations.

Local Open Scope Z_scope.

(** ** JavaScript numbers *)

Inductive JsNum : Type :=
| Fin (q : Q)
| PosInf
| NegInf
| NaN.

(** [a / b] on finite operands, with the IEEE results for a zero divisor. *)
Definition js_div (a b : Q) : JsNum :=
  if Qeq_bool b 0 then
    if Qeq_bool a 0 then NaN
    else if Qle_bool 0 a then PosInf else NegInf
  else Fin (a / b).

Definition isNaN (v : JsNum) : bool :=
  match v with NaN => true | _ => false end.


(** [a > b]: false as soon as one side is [NaN]. *)
Definition js_gtb (a b : JsNum) : bool :=
  match a, b with
  | NaN, _ | _, NaN => false
  | Fin p, Fin q => negb (Qle_bool p q)
  | PosInf, PosInf => false
  | PosInf, _ => true
  | NegInf, _ => false
  | Fin _, NegInf => true
  | Fin _, PosInf => false
  end.

(** Numeric equality of two results ([===] on numbers, without [NaN]). *)
Definition js_eq (a b : JsNum) : Prop :=
  match a, b with
  | Fin p, Fin q => (p == q)%Q
  | PosInf, PosInf => True
  | NegInf, NegInf => True
  | _, _ => False
  end.

(** Truthiness of a number: every number but zero (and [NaN]). *)
Definition truthy (n : Z) : bool := negb (n =? 0).

(** ** Types of [types.ts] *)

Inductive Emotion : Type :=
| Happy | Sad | Angry | Surprised | Neutral | Disgusted | Fearful.

Record BoundingBox : Type := mkBox {
  x : Q;
  y : Q;
  width : Q;
  height : Q
}.

Record StudentInfo : Type := mkStudent {
  name : string;
  rollNumber : string
}.

Record AttendanceRecord : Type := mkAttendance {
  att_persistentId : Z;
  timestamp : Z;
  att_emotion : Emotion
}.

Record FaceResult : Type := mkFace {
  personId : string;
  emotion : Emotion;
  confidence : Q;
  boundingBox : BoundingBox;
  persistentId : option Z;
  studentInfo : option StudentInfo
}.

(** ** The similarity scorer *)

Definition intersectionArea (boxA boxB : BoundingBox) : Q :=
  let xA := Qmax (x boxA) (x boxB) in
  let yA := Qmax (y boxA) (y boxB) in
  let xB := Qmin (x boxA + width boxA) (x boxB + width boxB) in
  let yB := Qmin (y boxA + height boxA) (y boxB + height boxB) in
  (Qmax 0 (xB - xA) * Qmax 0 (yB - yA))%Q.

Definition boxArea (box : BoundingBox) : Q := (width box * height box)%Q.

Definition unionArea (boxA boxB : BoundingBox) : Q :=
  (boxArea boxA + boxArea boxB - intersectionArea boxA boxB)%Q.

Definition calculateIoU (boxA boxB : BoundingBox) : JsNum :=
  let intersectionArea := intersectionArea boxA boxB in
  let boxAArea := boxArea boxA in
  let boxBArea := boxArea boxB in
  if Qle_bool boxAArea 0 || Qle_bool boxBArea 0 then Fin 0
  else
    let unionArea := (boxAArea + boxBArea - intersectionArea)%Q in
    let iou := js_div intersectionArea unionArea in
    if isNaN iou then Fin 0 else iou.

(** ** JavaScript containers *)

(** [Map<number, V>]: entries in insertion order, one entry per key. *)
Module JsMap.

Definition t (V : Type) : Type := list (Z * V).

Definition empty {V : Type} : t V := [].

Fixpoint get {V : Type} (m : t V) (k : Z) : option V :=
  match m with
  | [] => None
  | (k', v) :: rest => if k' =? k then Some v else get rest k
  end.

Definition has {V : Type} (m : t V) (k : Z) : bool :=
  match get m k with Some _ => true | None => false end.

(** [m.set(k, v)]: an existing key keeps its position, a new key goes
    to the end. *)
Fixpoint set {V : Type} (m : t V) (k : Z) (v : V) : t V :=
  match m with
  | [] => [(k, v)]
  | (k', v') :: rest =>
      if k' =? k then (k, v) :: rest else (k', v') :: set rest k v
  end.

Definition clear {V : Type} (m : t V) : t V := [].

Definition entries {V : Type} (m : t V) : list (Z * V) := m.

Definition keys {V : Type} (m : t V) : list Z := map fst m.

(** What every [Map] satisfies: no key occurs twice. *)
Definition wf {V : Type} (m : t V) : Prop := NoDup (keys m).

End JsMap.

(** [Set<number>] *)
Module JsSet.

Definition t : Type := list Z.

Definition empty : t := [].

Definition has (s : t) (k : Z) : bool := existsb (Z.eqb k) s.

Definition add (s : t) (k : Z) : t := if has s k then s else s ++ [k].

End JsSet.

(** [arr[i]] and the in-place update of the object at [arr[i]]. *)
Definition arr_get {A : Type} (arr : list A) (i : Z) : option A :=
  if i <? 0 then None else nth_error arr (Z.to_nat i).

Fixpoint arr_update {A : Type} (arr : list A) (i : Z) (f : A -> A) : list A :=
  match arr with
  | [] => []
  | a :: rest =>
      if i =? 0 then f a :: rest else a :: arr_update rest (i - 1) f
  end.

(** [arr.forEach((a, index) => ...)], the closure's variables threaded
    as [st]. *)
Fixpoint forEach_from {A S : Type} (f : S -> A -> Z -> S)
  (arr : list A) (index : Z) (st : S) : S :=
  match arr with
  | [] => st
  | a :: rest => forEach_from f rest (index + 1) (f st a index)
  end.

Definition forEach {A S : Type} (f : S -> A -> Z -> S) (arr : list A) (st : S) : S :=
  forEach_from f arr 0 st.

(** ** The track reconciler *)

(** The value type of [trackedFacesRef]. *)
Record TrackData : Type := mkTrack {
  track_boundingBox : BoundingBox;
  lastSeen : Z;
  geminiId : string
}.

(** An element of [matchedPairs].  Its [detection] field is a reference
    to [newDetections[detectionIndex]]; [pair_detection] dereferences it. *)
Record MatchedPair : Type := mkPair {
  trackId : Z;
  detectionIndex : Z
}.

Definition pair_detection (newDetections : list FaceResult) (p : MatchedPair)
  : option FaceResult :=
  arr_get newDetections (detectionIndex p).

Definition IOU_THRESHOLD : JsNum := Fin (4 # 10).
Definition MAX_INACTIVITY_MS : Z := 20000.
Definition ANALYSIS_INTERVAL : Z := 30000.
Definition RATE_LIMIT_PAUSE_MS : Z := 61000.
Definition ATTENDANCE_LOG_INTERVAL_MS : Z := 5 * 60 * 1000.

(** The score the matching loop computes for a track and a detection. *)
Definition score (trackData : TrackData) (detection : FaceResult) : JsNum :=
  calculateIoU (track_boundingBox trackData) (boundingBox detection).

(** Body of the inner [forEach]; [st] is [(bestMatchIndex, bestIoU)]. *)
Definition considerDetection (trackData : TrackData) (usedDetectionIndices : JsSet.t)
  (st : Z * JsNum) (detection : FaceResult) (index : Z) : Z * JsNum :=
  let '(bestMatchIndex, bestIoU) := st in
  if JsSet.has usedDetectionIndices index then st
  else
    let iou := score trackData detection in
    if js_gtb iou bestIoU && js_gtb iou IOU_THRESHOLD then (index, iou) else st.

Definition findBestMatch (trackData : TrackData) (newDetections : list FaceResult)
  (usedDetectionIndices : JsSet.t) : Z * JsNum :=
  forEach (considerDetection trackData usedDetectionIndices) newDetections (-1, Fin 0).

(** The first loop over [trackedFacesRef.current.entries()]. *)
Fixpoint matchTracks (entries : list (Z * TrackData)) (newDetections : list FaceResult)
  (matchedPairs : list MatchedPair) (usedDetectionIndices : JsSet.t)
  : list MatchedPair * JsSet.t :=
  match entries with
  | [] => (matchedPairs, usedDetectionIndices)
  | (trackId, trackData) :: rest =>
      let bestMatchIndex := fst (findBestMatch trackData newDetections usedDetectionIndices) in
      if bestMatchIndex =? -1 then
        matchTracks rest newDetections matchedPairs usedDetectionIndices
      else
        matchTracks rest newDetections
          (matchedPairs ++ [mkPair trackId bestMatchIndex])
          (JsSet.add usedDetectionIndices bestMatchIndex)
  end.

Definition set_persistentId (detection : FaceResult) (id : Z) : FaceResult :=
  mkFace (personId detection) (emotion detection) (confidence detection)
         (boundingBox detection) (Some id) (studentInfo detection).

Definition set_studentInfo (face : FaceResult) (info : StudentInfo) : FaceResult :=
  mkFace (personId face) (emotion face) (confidence face)
         (boundingBox face) (persistentId face) (Some info).

Definition trackOf (detection : FaceResult) (currentTime : Z) : TrackData :=
  mkTrack (boundingBox detection) currentTime (personId detection).

(** The loop over [matchedPairs]: refresh the track, stamp the detection.
    A pair always holds a valid index ([matchTracks_table]); the
    [None] branch is there for totality only. *)
Fixpoint applyMatches (matchedPairs : list MatchedPair) (currentTime : Z)
  (newTrackedFaces : JsMap.t TrackData) (newDetections : list FaceResult)
  : JsMap.t TrackData * list FaceResult :=
  match matchedPairs with
  | [] => (newTrackedFaces, newDetections)
  | p :: rest =>
      match pair_detection newDetections p with
      | Some detection =>
          applyMatches rest currentTime
            (JsMap.set newTrackedFaces (trackId p) (trackOf detection currentTime))
            (arr_update newDetections (detectionIndex p)
               (fun d => set_persistentId d (trackId p)))
      | None => applyMatches rest currentTime newTrackedFaces newDetections
      end
  end.

(** The second [forEach]: every detection that no track consumed opens a
    track under [nextFaceIdRef.current++]. *)
Fixpoint createTracks (usedDetectionIndices : JsSet.t) (currentTime : Z)
  (newDetections : list FaceResult) (index : Z)
  (nextFaceId : Z) (newTrackedFaces : JsMap.t TrackData)
  : Z * JsMap.t TrackData * list FaceResult :=
  match newDetections with
  | [] => (nextFaceId, newTrackedFaces, [])
  | detection :: rest =>
      if negb (JsSet.has usedDetectionIndices index) then
        let newId := nextFaceId in
        let '(next', faces', rest') :=
          createTracks usedDetectionIndices currentTime rest (index + 1)
            (nextFaceId + 1)
            (JsMap.set newTrackedFaces newId (trackOf detection currentTime)) in
        (next', faces', set_persistentId detection newId :: rest')
      else
        let '(next', faces', rest') :=
          createTracks usedDetectionIndices currentTime rest (index + 1)
            nextFaceId newTrackedFaces in
        (next', faces', detection :: rest')
  end.

(** The last loop over the old table: carry the survivors forward. *)
Fixpoint carryForward (entries : list (Z * TrackData)) (currentTime : Z)
  (newTrackedFaces : JsMap.t TrackData) : JsMap.t TrackData :=
  match entries with
  | [] => newTrackedFaces
  | (trackId, trackData) :: rest =>
      if (currentTime - lastSeen trackData <=? MAX_INACTIVITY_MS)
         && negb (JsMap.has newTrackedFaces trackId)
      then carryForward rest currentTime (JsMap.set newTrackedFaces trackId trackData)
      else carryForward rest currentTime newTrackedFaces
  end.

(** What one pass of the face-tracking block computes. *)
Record Reconciled : Type := mkReconciled {
  r_matchedPairs : list MatchedPair;
  r_used : JsSet.t;
  r_trackedFaces : JsMap.t TrackData;
  r_nextFaceId : Z;
  r_detections : list FaceResult
}.

Definition reconcile (trackedFaces : JsMap.t TrackData) (nextFaceId : Z)
  (newDetections : list FaceResult) (currentTime : Z) : Reconciled :=
  let '(matchedPairs, usedDetectionIndices) :=
    matchTracks (JsMap.entries trackedFaces) newDetections [] JsSet.empty in
  let '(matchedFaces, stamped) :=
    applyMatches matchedPairs currentTime JsMap.empty newDetections in
  let '(next', createdFaces, annotated) :=
    createTracks usedDetectionIndices currentTime stamped 0 nextFaceId matchedFaces in
  let newTrackedFaces :=
    carryForward (JsMap.entries trackedFaces) currentTime createdFaces in
  mkReconciled matchedPairs usedDetectionIndices newTrackedFaces next' annotated.

(** ** The debounced attendance decision *)

(** [!lastLog || currentTime - lastLog > ATTENDANCE_LOG_INTERVAL_MS] *)
Definition shouldLog (lastLog : option Z) (currentTime : Z) : bool :=
  match lastLog with
  | None => true
  | Some t => negb (truthy t) || (ATTENDANCE_LOG_INTERVAL_MS <? currentTime - t)
  end.

(** Body of the attendance [forEach] for one face; the state is the
    pending [attendance] list and [lastAttendanceLogRef.current]. *)
Definition logFace (students : JsMap.t StudentInfo) (currentTime : Z)
  (face : FaceResult) (attendance : list AttendanceRecord) (lastAttendanceLog : JsMap.t Z)
  : FaceResult * list AttendanceRecord * JsMap.t Z :=
  match persistentId face with
  | Some id =>
      if truthy id then
        match JsMap.get students id with
        | Some info =>
            let face' := set_studentInfo face info in
            let lastLog := JsMap.get lastAttendanceLog id in
            if shouldLog lastLog currentTime then
              (face',
               attendance ++ [mkAttendance id currentTime (emotion face)],
               JsMap.set lastAttendanceLog id currentTime)
            else (face', attendance, lastAttendanceLog)
        | None => (face, attendance, lastAttendanceLog)
        end
      else (face, attendance, lastAttendanceLog)
  | None => (face, attendance, lastAttendanceLog)
  end.

Fixpoint logAttendance (students : JsMap.t StudentInfo) (currentTime : Z)
  (faces : list FaceResult) (attendance : list AttendanceRecord)
  (lastAttendanceLog : JsMap.t Z)
  : list FaceResult * list AttendanceRecord * JsMap.t Z :=
  match faces with
  | [] => ([], attendance, lastAttendanceLog)
  | face :: rest =>
      let '(face', attendance1, log1) :=
        logFace students currentTime face attendance lastAttendanceLog in
      let '(rest', attendance2, log2) :=
        logAttendance students currentTime rest attendance1 log1 in
      (face' :: rest', attendance2, log2)
  end.

(** ** The component's state and its handlers *)

Inductive ErrorTitle : Type :=
| UnsupportedBrowser
| CameraError
| RateLimitExceeded
| AnalysisFailed.

(** The React state and the refs of [App] that the tracking core reads
    or writes.  [srcObject] is [videoRef.current.srcObject], which the
    start of the camera sets and nothing clears.  [pendingResumeTimers]
    counts the rate-limit timeouts that are set and have not fired.
    [captureAndAnalyze] is a [useCallback] over [stream], [isApiError] and
    [students]: a call reads the values of the render that made it, and
    [capturedStudents] and [capturedIsApiError] hold them for the call
    whose [await] is outstanding. *)
Record AppState : Type := mkApp {
  stream : bool;
  srcObject : bool;
  detectionResult : list FaceResult;
  error : option ErrorTitle;
  isApiError : bool;
  isPausedForRateLimit : bool;
  pendingResumeTimers : nat;
  students : JsMap.t StudentInfo;
  attendance : list AttendanceRecord;
  lastAttendanceLog : JsMap.t Z;
  isProcessing : bool;
  capturedStudents : JsMap.t StudentInfo;
  capturedIsApiError : bool;
  trackedFaces : JsMap.t TrackData;
  nextFaceId : Z
}.

(** State on mount; [students] and [attendance] come from local storage. *)
Definition initialState (students : JsMap.t StudentInfo)
  (attendance : list AttendanceRecord) : AppState :=
  mkApp false false [] None false false 0 students attendance JsMap.empty
        false students false JsMap.empty 1.

(** How [getUserMedia] ends. *)
Inductive CameraOutcome : Type :=
| CameraGranted
| CameraUnsupported
| CameraRejected.

(** How [detectFacesAndHands] ends: it returns the parsed faces, or throws
    [RATE_LIMIT], or throws its generic error. *)
Inductive DetectionOutcome : Type :=
| Detected (faces : list FaceResult)
| RateLimit
| DetectionFailed.

Definition handleStartCamera (s : AppState) (o : CameraOutcome) : AppState :=
  let cleared :=
    mkApp (stream s) (srcObject s) [] None (isApiError s) false (pendingResumeTimers s)
          (students s) (attendance s) (lastAttendanceLog s) (isProcessing s)
          (capturedStudents s) (capturedIsApiError s)
          (JsMap.clear (trackedFaces s)) 1 in
  match o with
  | CameraGranted =>
      mkApp true true (detectionResult cleared) (error cleared) (isApiError cleared)
            (isPausedForRateLimit cleared) (pendingResumeTimers cleared)
            (students cleared) (attendance cleared) (lastAttendanceLog cleared)
            (isProcessing cleared)
            (capturedStudents cleared) (capturedIsApiError cleared)
            (trackedFaces cleared) (nextFaceId cleared)
  | CameraUnsupported =>
      mkApp (stream cleared) (srcObject cleared) (detectionResult cleared)
            (Some UnsupportedBrowser)
            (isApiError cleared)
            (isPausedForRateLimit cleared) (pendingResumeTimers cleared)
            (students cleared) (attendance cleared) (lastAttendanceLog cleared)
            (isProcessing cleared)
            (capturedStudents cleared) (capturedIsApiError cleared)
            (trackedFaces cleared) (nextFaceId cleared)
  | CameraRejected =>
      mkApp (stream cleared) (srcObject cleared) (detectionResult cleared)
            (Some CameraError)
            (isApiError cleared)
            (isPausedForRateLimit cleared) (pendingResumeTimers cleared)
            (students cleared) (attendance cleared) (lastAttendanceLog cleared)
            (isProcessing cleared)
            (capturedStudents cleared) (capturedIsApiError cleared)
            (trackedFaces cleared) (nextFaceId cleared)
  end.

Definition handleStopCamera (s : AppState) : AppState :=
  if stream s then
    mkApp false (srcObject s) [] (error s) (isApiError s) false (pendingResumeTimers s)
          (students s) (attendance s) (lastAttendanceLog s) (isProcessing s)
          (capturedStudents s) (capturedIsApiError s)
          (JsMap.clear (trackedFaces s)) (nextFaceId s)
  else s.

Definition handleSaveStudent (s : AppState) (persistentId : Z) (info : StudentInfo)
  : AppState :=
  mkApp (stream s) (srcObject s) (detectionResult s) (error s) (isApiError s)
        (isPausedForRateLimit s) (pendingResumeTimers s)
        (JsMap.set (students s) persistentId info)
        (attendance s) (lastAttendanceLog s) (isProcessing s)
        (capturedStudents s) (capturedIsApiError s)
        (trackedFaces s) (nextFaceId s).

Definition set_isProcessing (s : AppState) (b : bool) : AppState :=
  mkApp (stream s) (srcObject s) (detectionResult s) (error s) (isApiError s)
        (isPausedForRateLimit s) (pendingResumeTimers s)
        (students s) (attendance s) (lastAttendanceLog s) b
        (capturedStudents s) (capturedIsApiError s)
        (trackedFaces s) (nextFaceId s).

(** The [try] block of [captureAndAnalyze] once the detector has answered.
    [closureStudents] and [closureIsApiError] are the [students] and the
    [isApiError] of the closure that is running; the refs and the updater
    of [setAttendance] see the component as it is now. *)
Definition tryBlock (closureStudents : JsMap.t StudentInfo) (closureIsApiError : bool)
  (s : AppState) (faces : list FaceResult) (currentTime : Z) : AppState :=
  let r := reconcile (trackedFaces s) (nextFaceId s) faces currentTime in
  let '(faces', attendance', log') :=
    logAttendance closureStudents currentTime (r_detections r)
      (attendance s) (lastAttendanceLog s) in
  mkApp (stream s) (srcObject s) faces'
        (if closureIsApiError then None else error s)
        (if closureIsApiError then false else isApiError s)
        (isPausedForRateLimit s) (pendingResumeTimers s)
        (students s) attendance' log' (isProcessing s)
        (capturedStudents s) (capturedIsApiError s)
        (r_trackedFaces r) (r_nextFaceId r).

(** The [try] block in a closure made by the render of [s] itself: the
    case of a call that no render has come after. *)
Definition analysisSucceeded (s : AppState) (faces : list FaceResult) (currentTime : Z)
  : AppState :=
  tryBlock (students s) (isApiError s) s faces currentTime.

(** The [catch] block. *)
Definition analysisFailed (s : AppState) (rateLimited : bool) : AppState :=
  if rateLimited then
    mkApp (stream s) (srcObject s) [] (Some RateLimitExceeded) true true
          (S (pendingResumeTimers s))
          (students s) (attendance s) (lastAttendanceLog s) (isProcessing s)
          (capturedStudents s) (capturedIsApiError s)
          (trackedFaces s) (nextFaceId s)
  else
    mkApp (stream s) (srcObject s) [] (Some AnalysisFailed) true
          (isPausedForRateLimit s) (pendingResumeTimers s)
          (students s) (attendance s) (lastAttendanceLog s) (isProcessing s)
          (capturedStudents s) (capturedIsApiError s)
          (trackedFaces s) (nextFaceId s).

(** The entry of [captureAndAnalyze], up to the [await]: nothing happens
    while a cycle is outstanding or no stream is attached; otherwise the
    call goes on with the [students] and the [isApiError] of its closure,
    those of the render it is called in. *)
Definition beginCycle (s : AppState) : AppState :=
  if isProcessing s || negb (stream s) then s
  else
    mkApp (stream s) (srcObject s) (detectionResult s) (error s) (isApiError s)
          (isPausedForRateLimit s) (pendingResumeTimers s)
          (students s) (attendance s) (lastAttendanceLog s) true
          (students s) (isApiError s)
          (trackedFaces s) (nextFaceId s).

(** What follows the [await]: the [try] or the [catch] block, then
    [isProcessing.current = false]. *)
Definition completeCycle (s : AppState) (o : DetectionOutcome) (currentTime : Z)
  : AppState :=
  set_isProcessing
    match o with
    | Detected faces =>
        tryBlock (capturedStudents s) (capturedIsApiError s) s faces currentTime
    | RateLimit => analysisFailed s true
    | DetectionFailed => analysisFailed s false
    end
    false.

(** One call of [captureAndAnalyze] that nothing interleaves with. *)
Definition captureAndAnalyze (s : AppState) (o : DetectionOutcome) (currentTime : Z)
  : AppState :=
  if isProcessing s || negb (stream s) then s
  else completeCycle (beginCycle s) o currentTime.

(** The callback of the rate-limit [setTimeout]: it tests
    [videoRef.current?.srcObject]. *)
Definition resumeAfterRateLimit (s : AppState) : AppState :=
  match pendingResumeTimers s with
  | O => s
  | S n =>
      if srcObject s then
        mkApp (stream s) (srcObject s) (detectionResult s) None false false n
              (students s) (attendance s) (lastAttendanceLog s) (isProcessing s)
              (capturedStudents s) (capturedIsApiError s)
              (trackedFaces s) (nextFaceId s)
      else
        mkApp (stream s) (srcObject s) (detectionResult s) (error s) (isApiError s)
              false n
              (students s) (attendance s) (lastAttendanceLog s) (isProcessing s)
              (capturedStudents s) (capturedIsApiError s)
              (trackedFaces s) (nextFaceId s)
  end.

(** What can happen to the component.  [Tick] is a whole cycle;
    [CycleBegins] and [CycleCompletes] are the two halves of a cycle whose
    detection call is outstanding while the camera is stopped or started. *)
Inductive Event : Type :=
| StartCamera (o : CameraOutcome)
| StopCamera
| Tick (o : DetectionOutcome) (currentTime : Z)
| CycleBegins
| CycleCompletes (o : DetectionOutcome) (currentTime : Z)
| SaveStudent (persistentId : Z) (info : StudentInfo)
| ResumeTimerFires.

Definition step (s : AppState) (e : Event) : AppState :=
  match e with
  | StartCamera o => handleStartCamera s o
  | StopCamera => handleStopCamera s
  | Tick o currentTime => captureAndAnalyze s o currentTime
  | CycleBegins => beginCycle s
  | CycleCompletes o currentTime =>
      if isProcessing s then completeCycle s o currentTime else s
  | SaveStudent id info => handleSaveStudent s id info
  | ResumeTimerFires => resumeAfterRateLimit s
  end.

Definition run (s : AppState) (events : list Event) : AppState :=
  fold_left step events s.

Definition reachable (s : AppState) : Prop :=
  exists students attendance events,
    s = run (initialState students attendance) events.

(** A capture session: the cycles that follow one start of the camera. *)
Definition sessionStart (s : AppState) : AppState := handleStartCamera s CameraGranted.

(** The identifiers the second [forEach] handed out in one pass: those
    stamped on the detections that no track had consumed. *)
Fixpoint createdIds (usedDetectionIndices : JsSet.t) (annotated : list FaceResult)
  (index : Z) : list Z :=
  match annotated with
  | [] => []
  | d :: rest =>
      if JsSet.has usedDetectionIndices index then
        createdIds usedDetectionIndices rest (index + 1)
      else
        match persistentId d with
        | Some id => id :: createdIds usedDetectionIndices rest (index + 1)
        | None => createdIds usedDetectionIndices rest (index + 1)
        end
  end.

(** All identifiers created, in order, over a sequence of successful cycles. *)
Fixpoint sessionCreatedIds (trackedFaces : JsMap.t TrackData) (nextFaceId : Z)
  (cycles : list (list FaceResult * Z)) : list Z :=
  match cycles with
  | [] => []
  | (faces, currentTime) :: rest =>
      let r := reconcile trackedFaces nextFaceId faces currentTime in
      createdIds (r_used r) (r_detections r) 0
        ++ sessionCreatedIds (r_trackedFaces r) (r_nextFaceId r) rest
  end.

(** ** Sample data *)

Definition box (x y w h : Q) : BoundingBox := mkBox x y w h.

Definition face (label : string) (b : BoundingBox) : FaceResult :=
  mkFace label Neutral 1 b None None.

Definition sampleFace : FaceResult := face "Person with glasses"%string (box 0 0 10 10).

Definition sampleTrack : TrackData := mkTrack (box 0 0 10 10) 1000 "a".

(** One person seen, then a second one further away, so that the first
    track is carried forward behind the second. *)
Definition twoTracks : AppState :=
  run (initialState [] [])
      [StartCamera CameraGranted;
       Tick (Detected [face "a" (box 0 0 10 10)]) 1000;
       Tick (Detected [face "b" (box 3 3 10 10)]) 2000].

Definition faceBetween : FaceResult := face "c" (box (3 # 2) (3 # 2) 10 10).

Definition oneTrack : AppState :=
  run (initialState [] [])
      [StartCamera CameraGranted; Tick (Detected [sampleFace]) 1000].

(** ** The detection service: [detectFacesAndHands] *)

(** A value as [JSON.parse] returns it. *)
#[local] Unset Elimination Schemes.
Inductive Json : Type :=
| JNull
| JBool (b : bool)
| JNum (q : Q)
| JStr (s : string)
| JArr (items : list Json)
| JObj (fields : list (string * Json)).
#[local] Set Elimination Schemes.

(** [hay.includes(needle)] *)
Fixpoint includes (hay needle : string) : bool :=
  if String.prefix needle hay then true
  else
    match hay with
    | EmptyString => false
    | String _ rest => includes rest needle
    end.

(** What a [catch] receives: an [Error] with its message, or a value
    that is no [Error]. *)
Inductive Thrown : Type :=
| ErrorWith (message : string)
| NotAnError.

(** How [ai.models.generateContent] ends; [response.text] may be
    undefined. *)
Inductive ApiOutcome : Type :=
| ApiThrows (e : Thrown)
| ApiResponds (text : option string).

Fixpoint field (fields : list (string * Json)) (name : string) : option Json :=
  match fields with
  | [] => None
  | (k, v) :: rest => if String.eqb k name then Some v else field rest name
  end.

(** [v.name]: undefined on what is no object with that property. *)
Definition prop (v : Json) (name : string) : option Json :=
  match v with
  | JObj fields => field fields name
  | _ => None
  end.

(** [Array.isArray(v)] *)
Definition isArray (v : option Json) : bool :=
  match v with
  | Some (JArr _) => true
  | _ => false
  end.

Definition json_truthy (v : Json) : bool :=
  match v with
  | JNull => false
  | JBool b => b
  | JNum q => negb (Qeq_bool q 0)
  | JStr s => negb (String.eqb s "")
  | JArr _ | JObj _ => true
  end.

Definition INVALID_STRUCTURE : string := "Invalid response structure from API after parsing".
Definition RATE_LIMIT_MESSAGE : string := "RATE_LIMIT".
Definition GENERIC_FAILURE : string := "Failed to get detection result from the API.".

(** The [try] block.  [trim] is [String.prototype.trim], [JSON_parse]
    returns the parsed value or the message of its [SyntaxError], and
    [undefinedTrim] is the message of the [TypeError] of calling [trim]
    on undefined: the three are the runtime's. *)
Definition requestDetection (trim : string -> string)
  (JSON_parse : string -> string + Json) (undefinedTrim : string)
  (o : ApiOutcome) : Thrown + Json :=
  match o with
  | ApiThrows e => inl e
  | ApiResponds None => inl (ErrorWith undefinedTrim)
  | ApiResponds (Some text) =>
      match JSON_parse (trim text) with
      | inl message => inl (ErrorWith message)
      | inr parsedResult =>
          if negb (json_truthy parsedResult)
             || negb (isArray (prop parsedResult "faces"))
             || negb (isArray (prop parsedResult "hands"))
          then inl (ErrorWith INVALID_STRUCTURE)
          else inr parsedResult
      end
  end.

(** The test of the [catch] block. *)
Definition isRateLimitError (e : Thrown) : bool :=
  match e with
  | ErrorWith message => includes message "RESOURCE_EXHAUSTED" || includes message "429"
  | NotAnError => false
  end.

(** The function: the parsed result, or the message of the [Error] it
    throws. *)
Definition detectFacesAndHands (trim : string -> string)
  (JSON_parse : string -> string + Json) (undefinedTrim : string)
  (o : ApiOutcome) : string + Json :=
  match requestDetection trim JSON_parse undefinedTrim o with
  | inr parsedResult => inr parsedResult
  | inl e => if isRateLimitError e then inl RATE_LIMIT_MESSAGE else inl GENERIC_FAILURE
  end.

(** The test of the [catch] block of [captureAndAnalyze] on the error of
    [detectFacesAndHands]: [apiError.message === "RATE_LIMIT"]. *)
Definition pausesSession (message : string) : bool := String.eqb message "RATE_LIMIT".

(** ** The export: [exportAttendanceToCSV] *)

Definition emotionName (e : Emotion) : string :=
  match e with
  | Happy => "Happy"
  | Sad => "Sad"
  | Angry => "Angry"
  | Surprised => "Surprised"
  | Neutral => "Neutral"
  | Disgusted => "Disgusted"
  | Fearful => "Fearful"
  end.

Definition doubleQuote : string := String (Ascii.ascii_of_nat 34) EmptyString.
Definition lineFeed : string := String (Ascii.ascii_of_nat 10) EmptyString.

(** [items.join(sep)] *)
Fixpoint join (sep : string) (items : list string) : string :=
  match items with
  | [] => EmptyString
  | [a] => a
  | a :: rest => (a ++ sep ++ join sep rest)%string
  end.

Definition quoted (s : string) : string := (doubleQuote ++ s ++ doubleQuote)%string.

Definition csvHeaders : list string := ["Roll Number"; "Name"; "Date"; "Time"; "Emotion"]%string.

(** The callback of [attendance.map]: [None] is the [null] of a record
    whose student is not found.  The two formatters are those of [Date],
    which depend on the locale. *)
Definition csvRow (toLocaleDateString toLocaleTimeString : Z -> string)
  (students : JsMap.t StudentInfo) (record : AttendanceRecord) : option string :=
  match JsMap.get students (att_persistentId record) with
  | None => None
  | Some student =>
      Some (join ","
              [quoted (rollNumber student);
               quoted (name student);
               quoted (toLocaleDateString (timestamp record));
               quoted (toLocaleTimeString (timestamp record));
               quoted (emotionName (att_emotion record))])
  end.

(** [.filter(row => row !== null)] *)
Fixpoint withoutNull (rows : list (option string)) : list string :=
  match rows with
  | [] => []
  | Some row :: rest => row :: withoutNull rest
  | None :: rest => withoutNull rest
  end.

Definition csvRows (toLocaleDateString toLocaleTimeString : Z -> string)
  (attendance : list AttendanceRecord) (students : JsMap.t StudentInfo) : list string :=
  withoutNull (map (csvRow toLocaleDateString toLocaleTimeString students) attendance).

(** The text handed to the [Blob]. *)
Definition csvContent (toLocaleDateString toLocaleTimeString : Z -> string)
  (attendance : list AttendanceRecord) (students : JsMap.t StudentInfo) : string :=
  join lineFeed
    (join "," csvHeaders
     :: csvRows toLocaleDateString toLocaleTimeString attendance students).

(** ** The scorer and the matching loop on binary64 *)

(** The numbers of the engine are IEEE 754 binary64 values and every
    operation rounds to nearest, ties to even.  [calculateIoU], the
    threshold and the matching loop are given here once more with that
    arithmetic, next to their reading over the rationals above.  The loop
    reads of a track and of a detection nothing but the region. *)
Module Binary64.

Definition number : Type := spec_float.

Definition prec : Z := 53.
Definition emax : Z := 1024.

Definition add : number -> number -> number := SFadd prec emax.
Definition sub : number -> number -> number := SFsub prec emax.
Definition mul : number -> number -> number := SFmul prec emax.
Definition div : number -> number -> number := SFdiv prec emax.

(** [a > b], [a <= b] and [a === b]: each is false when an operand is
    [NaN]. *)
Definition gtb (a b : number) : bool := SFltb b a.
Definition leb (a b : number) : bool := SFleb a b.
Definition eqb (a b : number) : bool := SFeqb a b.

Definition isNaN (a : number) : bool :=
  match a with
  | S754_nan => true
  | _ => false
  end.

(** The literal [0]. *)
Definition zero : number := S754_zero false.

(** [Math.max(a, b)]: [NaN] when an operand is, and [+0] above [-0]. *)
Definition Math_max (a b : number) : number :=
  if isNaN a || isNaN b then S754_nan
  else if gtb a b then a
  else if gtb b a then b
  else
    match a with
    | S754_zero true => b
    | _ => a
    end.

(** [Math.min(a, b)]: [NaN] when an operand is, and [-0] below [+0]. *)
Definition Math_min (a b : number) : number :=
  if isNaN a || isNaN b then S754_nan
  else if gtb b a then a
  else if gtb a b then b
  else
    match a with
    | S754_zero false => b
    | _ => a
    end.

Record BoundingBox : Type := mkBox {
  x : number;
  y : number;
  width : number;
  height : number
}.

Definition calculateIoU (boxA boxB : BoundingBox) : number :=
  let xA := Math_max (x boxA) (x boxB) in
  let yA := Math_max (y boxA) (y boxB) in
  let xB := Math_min (add (x boxA) (width boxA)) (add (x boxB) (width boxB)) in
  let yB := Math_min (add (y boxA) (height boxA)) (add (y boxB) (height boxB)) in
  let intersectionArea := mul (Math_max zero (sub xB xA)) (Math_max zero (sub yB yA)) in
  let boxAArea := mul (width boxA) (height boxA) in
  let boxBArea := mul (width boxB) (height boxB) in
  if leb boxAArea zero || leb boxBArea zero then zero
  else
    let unionArea := sub (add boxAArea boxBArea) intersectionArea in
    let iou := div intersectionArea unionArea in
    if isNaN iou then zero else iou.

(** The literal [0.4]: the binary64 value nearest to 4/10, which is
    7205759403792794 * 2^-54. *)
Definition IOU_THRESHOLD : number := S754_finite false 7205759403792794 (-54).

(** Body of the inner [forEach]; [st] is [(bestMatchIndex, bestIoU)]. *)
Definition considerDetection (trackBox : BoundingBox) (usedDetectionIndices : JsSet.t)
  (st : Z * number) (detection : BoundingBox) (index : Z) : Z * number :=
  let '(bestMatchIndex, bestIoU) := st in
  if JsSet.has usedDetectionIndices index then st
  else
    let iou := calculateIoU trackBox detection in
    if gtb iou bestIoU && gtb iou IOU_THRESHOLD then (index, iou) else st.

Definition findBestMatch (trackBox : BoundingBox) (newDetections : list BoundingBox)
  (usedDetectionIndices : JsSet.t) : Z * number :=
  forEach (considerDetection trackBox usedDetectionIndices) newDetections (-1, zero).

(** The first loop over the entries of the table. *)
Fixpoint matchTracks (entries : list (Z * BoundingBox)) (newDetections : list BoundingBox)
  (matchedPairs : list MatchedPair) (usedDetectionIndices : JsSet.t)
  : list MatchedPair * JsSet.t :=
  match entries with
  | [] => (matchedPairs, usedDetectionIndices)
  | (trackId, trackBox) :: rest =>
      let bestMatchIndex := fst (findBestMatch trackBox newDetections usedDetectionIndices) in
      if bestMatchIndex =? -1 then
        matchTracks rest newDetections matchedPairs usedDetectionIndices
      else
        matchTracks rest newDetections
          (matchedPairs ++ [mkPair trackId bestMatchIndex])
          (JsSet.add usedDetectionIndices bestMatchIndex)
  end.

(** [newDetections[j]] is [d] and no earlier track has consumed it. *)
Definition unusedAt (usedDetectionIndices : JsSet.t) (newDetections : list BoundingBox)
  (j : Z) (d : BoundingBox) : Prop :=
  arr_get newDetections j = Some d /\ JsSet.has usedDetectionIndices j = false.

(** [i] is the first index, among the detections not yet consumed, whose
    score against the track is the highest, and that score is above the
    threshold. *)
Definition bestUnused (trackBox : BoundingBox) (newDetections : list BoundingBox)
  (usedDetectionIndices : JsSet.t) (i : Z) : Prop :=
  exists d,
    unusedAt usedDetectionIndices newDetections i d
    /\ gtb (calculateIoU trackBox d) IOU_THRESHOLD = true
    /\ (forall j d', unusedAt usedDetectionIndices newDetections j d' ->
          gtb (calculateIoU trackBox d') (calculateIoU trackBox d) = false)
    /\ (forall j d', j < i -> unusedAt usedDetectionIndices newDetections j d' ->
          gtb (calculateIoU trackBox d) (calculateIoU trackBox d') = true).

(** The indices consumed by the tracks that precede a track in the table. *)
Definition consumedBefore (pre : list (Z * BoundingBox)) (newDetections : list BoundingBox)
  : JsSet.t :=
  snd (matchTracks pre newDetections [] JsSet.empty).

(** Loop invariant of the inner [forEach] once the indices below [i0]
    have been visited. *)
Definition bestInv (trackBox : BoundingBox) (newDetections : list BoundingBox)
  (usedDetectionIndices : JsSet.t) (i0 : Z) (st : Z * number) : Prop :=
  (fst st = -1 /\ snd st = zero
   /\ forall j d, j < i0 -> unusedAt usedDetectionIndices newDetections j d ->
        gtb (calculateIoU trackBox d) IOU_THRESHOLD = false)
  \/ (exists d,
        0 <= fst st < i0
        /\ unusedAt usedDetectionIndices newDetections (fst st) d
        /\ snd st = calculateIoU trackBox d
        /\ gtb (calculateIoU trackBox d) IOU_THRESHOLD = true
        /\ (forall j d', j < i0 -> unusedAt usedDetectionIndices newDetections j d' ->
              gtb (calculateIoU trackBox d') (calculateIoU trackBox d) = false)
        /\ (forall j d', j < fst st -> unusedAt usedDetectionIndices newDetections j d' ->
              gtb (calculateIoU trackBox d) (calculateIoU trackBox d') = true)).

(** The place of a number that is no [NaN] in the order of the
    comparisons: the sign, then the exponent, then the mantissa. *)
Definition rank (a : number) : Z * Z * Z :=
  match a with
  | S754_zero _ => (0, 0, 0)
  | S754_nan => (0, 0, 0)
  | S754_infinity true => (-2, 0, 0)
  | S754_infinity false => (2, 0, 0)
  | S754_finite true m e => (-1, - e, - Z.pos m)
  | S754_finite false m e => (1, e, Z.pos m)
  end.

Definition rank_lt (p q : Z * Z * Z) : Prop :=
  fst (fst p) < fst (fst q)
  \/ (fst (fst p) = fst (fst q)
      /\ (snd (fst p) < snd (fst q)
          \/ (snd (fst p) = snd (fst q) /\ snd p < snd q))).

(** Literals: [0.40001], [1], [2], [5], [40001] and [100000]. *)
Definition n_0_40001 : number := S754_finite false 7205939547777888 (-54).
Definition n_1 : number := S754_finite false 4503599627370496 (-52).
Definition n_2 : number := S754_finite false 4503599627370496 (-51).
Definition n_5 : number := S754_finite false 5629499534213120 (-50).
Definition n_40001 : number := S754_finite false 5497695577833472 (-37).
Definition n_100000 : number := S754_finite false 6871947673600000 (-36).

(** The region [{x: 0, y: 0, width: w, height: 1}]. *)
Definition strip (w : number) : BoundingBox := mkBox zero zero w n_1.

(** Two regions whose quotient of areas is 2/5 in exact arithmetic and
    whose score is [0.4000000000000001]:
    [{0, 0, 1.4774086475372314, 0.7258526014465152}] and the same region
    moved to [x = 0.6331751346588135]. *)
Definition n_w : number := S754_finite false 6653657034522624 (-52).
Definition n_h : number := S754_finite false 6537899010800862 (-53).
Definition n_x : number := S754_finite false 5703134601019392 (-53).
Definition roundedTrack : BoundingBox := mkBox zero zero n_w n_h.
Definition roundedDetection : BoundingBox := mkBox n_x zero n_w n_h.

(** The region [{0.1, 0.2, 0.3, 0.7}], whose score against itself is
    [1.0000000000000002]. *)
Definition roundedSelf : BoundingBox :=
  mkBox (S754_finite false 7205759403792794 (-56))
        (S754_finite false 7205759403792794 (-55))
        (S754_finite false 5404319552844595 (-54))
        (S754_finite false 6305039478318694 (-53)).

End Binary64.

(** ** Vocabulary of the statements *)

(** A region without extent. *)
Definition degenerate (b : BoundingBox) : Prop :=
  (width b <= 0)%Q \/ (height b <= 0)%Q.

(** [newDetections[j]] is [d] and no earlier track has consumed it. *)
Definition unusedAt (usedDetectionIndices : JsSet.t) (newDetections : list FaceResult)
  (j : Z) (d : FaceResult) : Prop :=
  arr_get newDetections j = Some d /\ JsSet.has usedDetectionIndices j = false.

(** [i] is the first index, among the detections not yet consumed, whose
    score against the track is the highest, and that score is above the
    threshold. *)
Definition bestUnused (trackData : TrackData) (newDetections : list FaceResult)
  (usedDetectionIndices : JsSet.t) (i : Z) : Prop :=
  exists d,
    unusedAt usedDetectionIndices newDetections i d
    /\ js_gtb (score trackData d) IOU_THRESHOLD = true
    /\ (forall j d', unusedAt usedDetectionIndices newDetections j d' ->
          js_gtb (score trackData d') (score trackData d) = false)
    /\ (forall j d', j < i -> unusedAt usedDetectionIndices newDetections j d' ->
          js_gtb (score trackData d) (score trackData d') = true).

(** The indices consumed by the tracks that precede a track in the table. *)
Definition consumedBefore (pre : list (Z * TrackData)) (newDetections : list FaceResult)
  : JsSet.t :=
  snd (matchTracks pre newDetections [] JsSet.empty).

(** What the table and the counter satisfy between two cycles. *)
Definition trackerInv (trackedFaces : JsMap.t TrackData) (nextFaceId : Z) : Prop :=
  JsMap.wf trackedFaces
  /\ 1 <= nextFaceId
  /\ forall k, In k (JsMap.keys trackedFaces) -> 1 <= k < nextFaceId.


(** Loop invariant of the inner [forEach] once the indices below [i0]
    have been visited. *)
Definition bestInv (trackData : TrackData) (newDetections : list FaceResult)
  (usedDetectionIndices : JsSet.t) (i0 : Z) (st : Z * JsNum) : Prop :=
  (fst st = -1 /\ snd st = Fin 0
   /\ forall j d, j < i0 -> unusedAt usedDetectionIndices newDetections j d ->
        js_gtb (score trackData d) IOU_THRESHOLD = false)
  \/ (exists d,
        0 <= fst st < i0
        /\ unusedAt usedDetectionIndices newDetections (fst st) d
        /\ snd st = score trackData d
        /\ js_gtb (score trackData d) IOU_THRESHOLD = true
        /\ (forall j d', j < i0 -> unusedAt usedDetectionIndices newDetections j d' ->
              js_gtb (score trackData d') (score trackData d) = false)
        /\ (forall j d', j < fst st -> unusedAt usedDetectionIndices newDetections j d' ->
              js_gtb (score trackData d) (score trackData d') = true)).

(** Every pair points at a detection of the array. *)
Definition validPairs (pairs : list MatchedPair) (dets : list FaceResult) : Prop :=
  forall q, In q pairs -> exists d, arr_get dets (detectionIndex q) = Some d.

(** The test of the last loop on the age of a track. *)
Definition isFresh (now : Z) (td : TrackData) : bool :=
  now - lastSeen td <=? MAX_INACTIVITY_MS.

(** Table and counter after a sequence of successful cycles. *)
Fixpoint sessionState (trackedFaces : JsMap.t TrackData) (nextFaceId : Z)
  (cycles : list (list FaceResult * Z)) : JsMap.t TrackData * Z :=
  match cycles with
  | [] => (trackedFaces, nextFaceId)
  | (faces, currentTime) :: rest =>
      let r := reconcile trackedFaces nextFaceId faces currentTime in
      sessionState (r_trackedFaces r) (r_nextFaceId r) rest
  end.

(** Some face of the list carries the identifier [id]. *)
Definition hasId (faces : list FaceResult) (id : Z) : bool :=
  existsb (fun f => match persistentId f with Some i => i =? id | None => false end) faces.

(** The nested tests of the attendance loop for a face that carries [id]. *)
Definition shouldEmit (students : JsMap.t StudentInfo) (lastAttendanceLog : JsMap.t Z)
  (currentTime : Z) (id : Z) : bool :=
  truthy id && JsMap.has students id && shouldLog (JsMap.get lastAttendanceLog id) currentTime.


(** What one record of the log contributes to the exported text: a line
    feed and the five quoted fields when its identifier is enrolled,
    nothing otherwise. *)
Definition exportedLine (toLocaleDateString toLocaleTimeString : Z -> string)
  (students : JsMap.t StudentInfo) (record : AttendanceRecord) : string :=
  match JsMap.get students (att_persistentId record) with
  | None => EmptyString
  | Some student =>
      (lineFeed
       ++ quoted (rollNumber student) ++ ","
       ++ quoted (name student) ++ ","
       ++ quoted (toLocaleDateString (timestamp record)) ++ ","
       ++ quoted (toLocaleTimeString (timestamp record)) ++ ","
       ++ quoted (emotionName (att_emotion record)))%string
  end.

(** The enrolment an outstanding call holds is part of the enrolment of
    the component. *)
Definition capturedEnrolled (s : AppState) : Prop :=
  forall id, JsMap.has (capturedStudents s) id = true -> JsMap.has (students s) id = true.

(** The [n] integers that start at [a]. *)
Definition consecutiveFrom (a : Z) (n : nat) : list Z :=
  map (fun k => a + Z.of_nat k) (seq 0 n).

(** What the attendance loop does to one face: the student's record is
    attached when the identifier on the face is enrolled. *)
Definition attachStudent (students : JsMap.t StudentInfo) (face : FaceResult) : FaceResult :=
  match persistentId face with
  | Some id =>
      if truthy id then
        match JsMap.get students id with
        | Some info => set_studentInfo face info
        | None => face
        end
      else face
  | None => face
  end.

(** * Properties *)

(** ** Numbers *)

Lemma js_gtb_Fin (p q : Q) : js_gtb (Fin p) (Fin q) = true <-> (q < p)%Q.
Proof.
  simpl. rewrite negb_true_iff. split; intro H.
  - apply Qnot_le_lt. intro Hle. apply Qle_bool_iff in Hle. congruence.
  - destruct (Qle_bool p q) eqn:E; [|reflexivity].
    apply Qle_bool_iff in E. exfalso. apply (Qlt_not_le _ _ H E).
Qed.

Lemma js_gtb_Fin_false (p q : Q) : js_gtb (Fin p) (Fin q) = false <-> (p <= q)%Q.
Proof.
  simpl. rewrite negb_false_iff. apply Qle_bool_iff.
Qed.

(** ** The scorer *)

Section Scorer.

Variables boxA boxB : BoundingBox.

Lemma overlap_x_bound :
  (Qmin (x boxA + width boxA) (x boxB + width boxB) - Qmax (x boxA) (x boxB)
   <= Qmin (width boxA) (width boxB))%Q.
Proof.
  destruct (Q.min_spec (x boxA + width boxA) (x boxB + width boxB)) as [[? ->]|[? ->]];
  destruct (Q.max_spec (x boxA) (x boxB)) as [[? ->]|[? ->]];
  destruct (Q.min_spec (width boxA) (width boxB)) as [[? ->]|[? ->]]; lra.
Qed.

Lemma overlap_y_bound :
  (Qmin (y boxA + height boxA) (y boxB + height boxB) - Qmax (y boxA) (y boxB)
   <= Qmin (height boxA) (height boxB))%Q.
Proof.
  destruct (Q.min_spec (y boxA + height boxA) (y boxB + height boxB)) as [[? ->]|[? ->]];
  destruct (Q.max_spec (y boxA) (y boxB)) as [[? ->]|[? ->]];
  destruct (Q.min_spec (height boxA) (height boxB)) as [[? ->]|[? ->]]; lra.
Qed.

Lemma intersectionArea_nonneg : (0 <= intersectionArea boxA boxB)%Q.
Proof.
  unfold intersectionArea. cbv zeta.
  apply Qmult_le_0_compat; apply Q.le_max_l.
Qed.

Lemma intersectionArea_degenerate :
  degenerate boxA \/ degenerate boxB -> (intersectionArea boxA boxB == 0)%Q.
Proof.
  intros Hd. unfold intersectionArea. cbv zeta.
  pose proof overlap_x_bound as Hx. pose proof overlap_y_bound as Hy.
  set (dx := (Qmin (x boxA + width boxA) (x boxB + width boxB) - Qmax (x boxA) (x boxB))%Q) in *.
  set (dy := (Qmin (y boxA + height boxA) (y boxB + height boxB) - Qmax (y boxA) (y boxB))%Q) in *.
  assert (Hcase : (dx <= 0)%Q \/ (dy <= 0)%Q).
  { destruct (Q.min_spec (width boxA) (width boxB)) as [[? Hw]|[? Hw]];
    destruct (Q.min_spec (height boxA) (height boxB)) as [[? Hh]|[? Hh]];
    rewrite Hw in Hx; rewrite Hh in Hy;
    destruct Hd as [[?|?]|[?|?]]; (left; lra) || (right; lra). }
  destruct Hcase as [H|H].
  - rewrite (Q.max_l 0 dx) by exact H. ring.
  - rewrite (Q.max_l 0 dy) by exact H. ring.
Qed.
End Scorer.

Section ScorerResult.

Variables boxA boxB : BoundingBox.

Lemma intersectionArea_le_boxA :
  (0 < width boxA)%Q -> (0 < height boxA)%Q ->
  (intersectionArea boxA boxB <= boxArea boxA)%Q.
Proof.
  intros Hw Hh. unfold intersectionArea, boxArea. cbv zeta.
  pose proof (overlap_x_bound boxA boxB) as Hx.
  pose proof (overlap_y_bound boxA boxB) as Hy.
  set (dx := (Qmin (x boxA + width boxA) (x boxB + width boxB) - Qmax (x boxA) (x boxB))%Q) in *.
  set (dy := (Qmin (y boxA + height boxA) (y boxB + height boxB) - Qmax (y boxA) (y boxB))%Q) in *.
  pose proof (Q.le_min_l (width boxA) (width boxB)).
  pose proof (Q.le_min_l (height boxA) (height boxB)).
  assert (H1 : (Qmax 0 dx <= width boxA)%Q) by (apply Q.max_lub; lra).
  assert (H2 : (Qmax 0 dy <= height boxA)%Q) by (apply Q.max_lub; lra).
  pose proof (Q.le_max_l 0 dx). pose proof (Q.le_max_l 0 dy).
  generalize dependent (Qmax 0 dx). generalize dependent (Qmax 0 dy).
  intros b Hb2 Hb0 a Ha2 Ha0. nra.
Qed.

Lemma intersectionArea_le_boxB :
  (0 < width boxB)%Q -> (0 < height boxB)%Q ->
  (intersectionArea boxA boxB <= boxArea boxB)%Q.
Proof.
  intros Hw Hh. unfold intersectionArea, boxArea. cbv zeta.
  pose proof (overlap_x_bound boxA boxB) as Hx.
  pose proof (overlap_y_bound boxA boxB) as Hy.
  set (dx := (Qmin (x boxA + width boxA) (x boxB + width boxB) - Qmax (x boxA) (x boxB))%Q) in *.
  set (dy := (Qmin (y boxA + height boxA) (y boxB + height boxB) - Qmax (y boxA) (y boxB))%Q) in *.
  pose proof (Q.le_min_r (width boxA) (width boxB)).
  pose proof (Q.le_min_r (height boxA) (height boxB)).
  assert (H1 : (Qmax 0 dx <= width boxB)%Q) by (apply Q.max_lub; lra).
  assert (H2 : (Qmax 0 dy <= height boxB)%Q) by (apply Q.max_lub; lra).
  pose proof (Q.le_max_l 0 dx). pose proof (Q.le_max_l 0 dy).
  generalize dependent (Qmax 0 dx). generalize dependent (Qmax 0 dy).
  intros b Hb2 Hb0 a Ha2 Ha0. nra.
Qed.

Lemma unionArea_pos :
  (0 < boxArea boxA)%Q -> (0 < boxArea boxB)%Q -> (0 < unionArea boxA boxB)%Q.
Proof.
  intros HA HB. unfold unionArea.
  destruct (Qlt_le_dec 0 (width boxA)) as [Hw|Hw].
  - destruct (Qlt_le_dec 0 (height boxA)) as [Hh|Hh].
    + pose proof (intersectionArea_le_boxA Hw Hh). lra.
    + rewrite (intersectionArea_degenerate boxA boxB) by (left; right; exact Hh). lra.
  - rewrite (intersectionArea_degenerate boxA boxB) by (left; left; exact Hw). lra.
Qed.

(** The two ways [calculateIoU] returns: the guard on the areas, or the
    quotient, whose divisor is then positive. *)
Lemma calculateIoU_cases :
  (((boxArea boxA <= 0)%Q \/ (boxArea boxB <= 0)%Q) /\ calculateIoU boxA boxB = Fin 0)
  \/ ((0 < boxArea boxA)%Q /\ (0 < boxArea boxB)%Q /\ (0 < unionArea boxA boxB)%Q
      /\ calculateIoU boxA boxB = Fin (intersectionArea boxA boxB / unionArea boxA boxB)).
Proof.
  unfold calculateIoU. cbv zeta.
  destruct (Qle_bool (boxArea boxA) 0) eqn:EA.
  { left. apply Qle_bool_iff in EA. auto. }
  destruct (Qle_bool (boxArea boxB) 0) eqn:EB.
  { left. apply Qle_bool_iff in EB. auto. }
  right. simpl orb. cbv iota.
  assert (HA : (0 < boxArea boxA)%Q).
  { apply Qnot_le_lt. intro H. apply Qle_bool_iff in H. congruence. }
  assert (HB : (0 < boxArea boxB)%Q).
  { apply Qnot_le_lt. intro H. apply Qle_bool_iff in H. congruence. }
  pose proof (unionArea_pos HA HB) as HU.
  repeat split; try assumption.
  fold (unionArea boxA boxB). unfold js_div.
  destruct (Qeq_bool (unionArea boxA boxB) 0) eqn:E.
  - apply Qeq_bool_iff in E. rewrite E in HU. exfalso. revert HU. apply Qlt_irrefl.
  - reflexivity.
Qed.

Lemma calculateIoU_finite : exists q, calculateIoU boxA boxB = Fin q /\ (0 <= q <= 1)%Q.
Proof.
  destruct calculateIoU_cases as [[_ ->]|(HA & HB & HU & ->)].
  - exists 0%Q. split; [reflexivity|lra].
  - eexists. split; [reflexivity|].
    pose proof (intersectionArea_nonneg boxA boxB) as Hi.
    split.
    + apply Qle_shift_div_l; [exact HU|]. lra.
    + apply Qle_shift_div_r; [exact HU|].
      assert ((intersectionArea boxA boxB <= boxArea boxA)%Q \/
              (intersectionArea boxA boxB == 0)%Q) as [H|H].
      { destruct (Qlt_le_dec 0 (width boxA)) as [Hw|Hw];
        [destruct (Qlt_le_dec 0 (height boxA)) as [Hh|Hh]|].
        - left. apply intersectionArea_le_boxA; assumption.
        - right. apply intersectionArea_degenerate. left; right; exact Hh.
        - right. apply intersectionArea_degenerate. left; left; exact Hw. }
      * unfold unionArea.
        destruct (Qlt_le_dec 0 (width boxB)) as [Hw|Hw];
        [destruct (Qlt_le_dec 0 (height boxB)) as [Hh|Hh]|].
        -- pose proof (intersectionArea_le_boxB Hw Hh). lra.
        -- rewrite (intersectionArea_degenerate boxA boxB) by (right; right; exact Hh). lra.
        -- rewrite (intersectionArea_degenerate boxA boxB) by (right; left; exact Hw). lra.
      * rewrite H. lra.
Qed.

End ScorerResult.

Lemma score_finite (td : TrackData) (d : FaceResult) :
  exists q, score td d = Fin q /\ (0 <= q <= 1)%Q.
Proof. apply calculateIoU_finite. Qed.

(** ** Arrays, sets and maps *)

Lemma arr_get_range {A : Type} (arr : list A) (i : Z) (a : A) :
  arr_get arr i = Some a -> 0 <= i < Z.of_nat (length arr).
Proof.
  unfold arr_get. destruct (i <? 0) eqn:E; [discriminate|].
  apply Z.ltb_ge in E. intros H.
  assert (Hn : nth_error arr (Z.to_nat i) <> None) by congruence.
  apply nth_error_Some in Hn. lia.
Qed.

Lemma arr_get_app_here {A : Type} (pre suf : list A) (a : A) :
  arr_get (pre ++ a :: suf) (Z.of_nat (length pre)) = Some a.
Proof.
  unfold arr_get. destruct (Z.of_nat (length pre) <? 0) eqn:E.
  - apply Z.ltb_lt in E. lia.
  - rewrite Nat2Z.id. rewrite nth_error_app2 by lia.
    rewrite Nat.sub_diag. reflexivity.
Qed.

Lemma arr_get_cons {A : Type} (a : A) (arr : list A) (i : Z) :
  arr_get (a :: arr) i = if i =? 0 then Some a else arr_get arr (i - 1).
Proof.
  unfold arr_get. destruct (i =? 0) eqn:E0.
  - apply Z.eqb_eq in E0. subst. reflexivity.
  - apply Z.eqb_neq in E0. destruct (i <? 0) eqn:E1.
    + apply Z.ltb_lt in E1. destruct (i - 1 <? 0) eqn:E2; [reflexivity|].
      apply Z.ltb_ge in E2. lia.
    + apply Z.ltb_ge in E1. destruct (i - 1 <? 0) eqn:E2.
      * apply Z.ltb_lt in E2. lia.
      * replace (Z.to_nat i) with (S (Z.to_nat (i - 1))) by lia. reflexivity.
Qed.

Lemma JsSet_has_In (s : JsSet.t) (k : Z) : JsSet.has s k = true <-> In k s.
Proof.
  unfold JsSet.has. rewrite existsb_exists. split.
  - intros (y & Hy & E). apply Z.eqb_eq in E. subst. exact Hy.
  - intros H. exists k. split; [exact H|apply Z.eqb_refl].
Qed.

Lemma JsSet_has_add (s : JsSet.t) (k j : Z) :
  JsSet.has (JsSet.add s k) j = (j =? k) || JsSet.has s j.
Proof.
  unfold JsSet.add. destruct (JsSet.has s k) eqn:E.
  - destruct (j =? k) eqn:Ej; [|reflexivity].
    apply Z.eqb_eq in Ej. subst. simpl. exact E.
  - unfold JsSet.has. rewrite existsb_app. simpl.
    rewrite orb_false_r. apply orb_comm.
Qed.

(** ** The inner loop: the best detection for one track *)

Section BestMatch.

Variables (td : TrackData) (dets : list FaceResult) (used : JsSet.t).

Lemma threshold_value : IOU_THRESHOLD = Fin (4 # 10).
Proof. reflexivity. Qed.

Lemma considerDetection_inv (i0 : Z) (st : Z * JsNum) (d : FaceResult) :
  0 <= i0 ->
  arr_get dets i0 = Some d ->
  bestInv td dets used i0 st ->
  bestInv td dets used (i0 + 1) (considerDetection td used st d i0).
Proof.
  intros Hi0 Hd Hinv. destruct st as [bi bs].
  unfold considerDetection.
  destruct (JsSet.has used i0) eqn:Hused.
  { (* the detection is already consumed *)
    destruct Hinv as [(Hb & Hs & Hall)|(db & Hr & Hu & Hs & Hthr & Hmax & Hfirst)].
    - left. split; [exact Hb|]. split; [exact Hs|].
      intros j d' Hj [Hg Hh]. apply (Hall j d'); [|split; assumption].
      assert (j <> i0) by (intro; subst; congruence). lia.
    - right. exists db. split; [simpl fst in *; lia|]. split; [exact Hu|].
      split; [exact Hs|]. split; [exact Hthr|]. split; [|exact Hfirst].
      intros j d' Hj [Hg Hh]. apply (Hmax j d'); [|split; assumption].
      assert (j <> i0) by (intro; subst; congruence). lia. }
  cbv zeta.
  destruct (score_finite td d) as (q & Hq & Hq0 & Hq1).
  rewrite threshold_value in *.
  destruct Hinv as [(Hb & Hs & Hall)|(db & Hr & Hu & Hs & Hthr & Hmax & Hfirst)];
    simpl fst in *; simpl snd in *; subst bs.
  - (* nothing selected so far *)
    rewrite Hq.
    destruct (js_gtb (Fin q) (Fin 0) && js_gtb (Fin q) (Fin (4 # 10))) eqn:Htest.
    + apply andb_true_iff in Htest. destruct Htest as [_ Ht].
      apply js_gtb_Fin in Ht.
      right. exists d. simpl fst. simpl snd. rewrite Hq.
      split; [lia|]. split; [split; assumption|]. split; [reflexivity|].
      split; [apply js_gtb_Fin; exact Ht|].
      assert (Hlow : forall j d', j < i0 -> unusedAt used dets j d' ->
                exists q', score td d' = Fin q' /\ (q' <= 4 # 10)%Q).
      { intros j d' Hj Hu. destruct (score_finite td d') as (q' & Hq' & _).
        exists q'. split; [exact Hq'|].
        specialize (Hall j d' Hj Hu). rewrite Hq' in Hall.
        apply js_gtb_Fin_false in Hall. exact Hall. }
      split.
      * intros j d' Hj Hu.
        destruct (Z.eq_dec j i0) as [->|Hne].
        -- destruct Hu as [Hg _]. rewrite Hd in Hg. injection Hg as <-.
           rewrite Hq. apply js_gtb_Fin_false. lra.
        -- destruct (Hlow j d') as (q' & -> & Hle); [lia|exact Hu|].
           apply js_gtb_Fin_false. lra.
      * intros j d' Hj Hu.
        destruct (Hlow j d' Hj Hu) as (q' & -> & Hle).
        apply js_gtb_Fin. lra.
    + left. simpl fst. simpl snd. split; [exact Hb|]. split; [reflexivity|].
      intros j d' Hj Hu.
      destruct (Z.eq_dec j i0) as [->|Hne].
      * destruct Hu as [Hg _]. rewrite Hd in Hg. injection Hg as <-.
        rewrite Hq. apply js_gtb_Fin_false.
        apply andb_false_iff in Htest. destruct Htest as [Ht|Ht];
          apply js_gtb_Fin_false in Ht; lra.
      * apply (Hall j d'); [lia|exact Hu].
  - (* a candidate is selected already *)
    destruct (score_finite td db) as (qb & Hqb & _).
    rewrite Hq. rewrite Hqb in *.
    apply js_gtb_Fin in Hthr.
    assert (Hlow : forall j d', j < i0 -> unusedAt used dets j d' ->
              exists q', score td d' = Fin q' /\ (q' <= qb)%Q).
    { intros j d' Hj Hu'. destruct (score_finite td d') as (q' & Hq' & _).
      exists q'. split; [exact Hq'|].
      specialize (Hmax j d' Hj Hu'). rewrite Hq' in Hmax.
      apply js_gtb_Fin_false in Hmax. exact Hmax. }
    destruct (js_gtb (Fin q) (Fin qb) && js_gtb (Fin q) (Fin (4 # 10))) eqn:Htest.
    + apply andb_true_iff in Htest. destruct Htest as [Hgt Ht].
      apply js_gtb_Fin in Hgt. apply js_gtb_Fin in Ht.
      right. exists d. simpl fst. simpl snd. rewrite Hq.
      split; [lia|]. split; [split; assumption|]. split; [reflexivity|].
      split; [apply js_gtb_Fin; exact Ht|].
      split.
      * intros j d' Hj Hu'.
        destruct (Z.eq_dec j i0) as [->|Hne].
        -- destruct Hu' as [Hg _]. rewrite Hd in Hg. injection Hg as <-.
           rewrite Hq. apply js_gtb_Fin_false. lra.
        -- destruct (Hlow j d') as (q' & -> & Hle); [lia|exact Hu'|].
           apply js_gtb_Fin_false. lra.
      * intros j d' Hj Hu'.
        destruct (Hlow j d' Hj Hu') as (q' & -> & Hle).
        apply js_gtb_Fin. lra.
    + right. exists db. simpl fst. simpl snd. rewrite Hqb.
      split; [lia|]. split; [exact Hu|]. split; [reflexivity|].
      split; [apply js_gtb_Fin; exact Hthr|].
      split.
      * intros j d' Hj Hu'.
        destruct (Z.eq_dec j i0) as [->|Hne].
        -- destruct Hu' as [Hg _]. rewrite Hd in Hg. injection Hg as <-.
           rewrite Hq. apply js_gtb_Fin_false.
           apply andb_false_iff in Htest. destruct Htest as [Ht|Ht];
             apply js_gtb_Fin_false in Ht; lra.
        -- apply (Hmax j d'); [lia|exact Hu'].
      * exact Hfirst.
Qed.

Lemma forEach_considerDetection_inv (suf pre : list FaceResult) (st : Z * JsNum) :
  dets = pre ++ suf ->
  bestInv td dets used (Z.of_nat (length pre)) st ->
  bestInv td dets used (Z.of_nat (length dets))
    (forEach_from (considerDetection td used) suf (Z.of_nat (length pre)) st).
Proof.
  revert pre st. induction suf as [|d rest IH]; intros pre st Hsplit Hinv.
  - simpl. rewrite app_nil_r in Hsplit. rewrite Hsplit at 2. exact Hinv.
  - simpl.
    replace (Z.of_nat (length pre) + 1) with (Z.of_nat (length (pre ++ [d])))
      by (rewrite length_app; simpl; lia).
    apply IH.
    + rewrite <- app_assoc. exact Hsplit.
    + rewrite length_app. simpl length.
      replace (Z.of_nat (length pre + 1)) with (Z.of_nat (length pre) + 1) by lia.
      apply considerDetection_inv; [lia| |exact Hinv].
      rewrite Hsplit. apply arr_get_app_here.
Qed.

Lemma findBestMatch_inv :
  bestInv td dets used (Z.of_nat (length dets)) (findBestMatch td dets used).
Proof.
  unfold findBestMatch, forEach.
  apply (forEach_considerDetection_inv dets [] (-1, Fin 0)); [reflexivity|].
  left. simpl fst. simpl snd. split; [reflexivity|]. split; [reflexivity|].
  intros j d Hj [Hg _]. apply arr_get_range in Hg. simpl in Hj. lia.
Qed.

(** The loop leaves [-1] when no unconsumed detection is above the
    threshold, and the first best unconsumed detection otherwise. *)
Lemma findBestMatch_spec :
  (fst (findBestMatch td dets used) = -1
   /\ forall j d, unusedAt used dets j d -> js_gtb (score td d) IOU_THRESHOLD = false)
  \/ (0 <= fst (findBestMatch td dets used)
      /\ bestUnused td dets used (fst (findBestMatch td dets used))).
Proof.
  destruct findBestMatch_inv as [(Hb & _ & Hall)|(d & Hr & Hu & Hs & Hthr & Hmax & Hfirst)].
  - left. split; [exact Hb|]. intros j d Hu. apply (Hall j d); [|exact Hu].
    destruct Hu as [Hg _]. apply arr_get_range in Hg. lia.
  - right. split; [lia|]. exists d. split; [exact Hu|]. split; [exact Hthr|].
    split; [|exact Hfirst].
    intros j d' Hu'. apply (Hmax j d'); [|exact Hu'].
    destruct Hu' as [Hg _]. apply arr_get_range in Hg. lia.
Qed.

Lemma bestUnused_unique (i i' : Z) :
  bestUnused td dets used i -> bestUnused td dets used i' -> i = i'.
Proof.
  intros (d & Hu & _ & Hmax & Hfirst) (d' & Hu' & _ & Hmax' & Hfirst').
  destruct (Z.lt_trichotomy i i') as [Hlt|[Heq|Hgt]]; [|exact Heq|].
  - specialize (Hfirst' i d Hlt Hu). specialize (Hmax i' d' Hu'). congruence.
  - specialize (Hfirst i' d' Hgt Hu'). specialize (Hmax' i d Hu). congruence.
Qed.

Lemma findBestMatch_iff (i : Z) :
  bestUnused td dets used i <->
    fst (findBestMatch td dets used) = i /\ i <> -1.
Proof.
  split.
  - intros Hb. destruct findBestMatch_spec as [[_ Hnone]|[Hge Hbest]].
    + destruct Hb as (d & Hu & Hthr & _). rewrite (Hnone i d Hu) in Hthr. discriminate.
    + pose proof (bestUnused_unique _ _ Hb Hbest) as ->. split; [reflexivity|lia].
  - intros [Hf Hne]. destruct findBestMatch_spec as [[Hm _]|[_ Hbest]].
    + congruence.
    + rewrite Hf in Hbest. exact Hbest.
Qed.

End BestMatch.

(** ** The loop over the tracks *)

Section Matching.

Variable dets : list FaceResult.

Lemma matchTracks_app (l1 l2 : list (Z * TrackData)) (p : list MatchedPair) (u : JsSet.t) :
  matchTracks (l1 ++ l2) dets p u =
  matchTracks l2 dets (fst (matchTracks l1 dets p u)) (snd (matchTracks l1 dets p u)).
Proof.
  revert p u. induction l1 as [|[tid td] rest IH]; intros p u; simpl.
  - reflexivity.
  - destruct (fst (findBestMatch td dets u) =? -1); apply IH.
Qed.

(** What the loop adds to [matchedPairs] and to [usedDetectionIndices]. *)
Lemma matchTracks_inv (l : list (Z * TrackData)) (p : list MatchedPair) (u : JsSet.t) :
  exists extra,
    fst (matchTracks l dets p u) = p ++ extra
    /\ (forall q, In q extra ->
          In (trackId q) (map fst l)
          /\ JsSet.has u (detectionIndex q) = false
          /\ exists d, arr_get dets (detectionIndex q) = Some d)
    /\ NoDup (map detectionIndex extra)
    /\ (forall i, JsSet.has (snd (matchTracks l dets p u)) i = true <->
          JsSet.has u i = true \/ In i (map detectionIndex extra))
    /\ (NoDup (map fst l) -> NoDup (map trackId extra)).
Proof.
  revert p u. induction l as [|[tid td] rest IH]; intros p u.
  - exists []. simpl. rewrite app_nil_r.
    split; [reflexivity|]. split; [intros q []|]. split; [constructor|].
    split; [tauto|]. intros _. constructor.
  - simpl matchTracks.
    destruct (findBestMatch_spec td dets u) as [[Hnone _]|[Hge Hbest]].
    + rewrite Hnone. simpl Z.eqb. cbv iota.
      destruct (IH p u) as (extra & Hfst & Hq & Hnd & Hused & Hids).
      exists extra. split; [exact Hfst|]. split.
      { intros q Hin. destruct (Hq q Hin) as (H1 & H2 & H3).
        split; [right; exact H1|]. split; assumption. }
      split; [exact Hnd|]. split; [exact Hused|].
      intros Hk. apply Hids. simpl in Hk. inversion Hk; assumption.
    + set (bi := fst (findBestMatch td dets u)) in *.
      assert (Hne : (bi =? -1) = false) by (apply Z.eqb_neq; lia).
      rewrite Hne.
      destruct Hbest as (d & [Hget Hunused] & _).
      destruct (IH (p ++ [mkPair tid bi]) (JsSet.add u bi))
        as (extra & Hfst & Hq & Hnd & Hused & Hids).
      assert (Hfresh : forall q, In q extra ->
                JsSet.has u (detectionIndex q) = false /\ detectionIndex q <> bi).
      { intros q Hin. destruct (Hq q Hin) as (_ & H2 & _).
        rewrite JsSet_has_add in H2. apply orb_false_iff in H2.
        destruct H2 as [H2 H2']. apply Z.eqb_neq in H2. split; assumption. }
      exists (mkPair tid bi :: extra).
      split; [rewrite Hfst, <- app_assoc; reflexivity|].
      split.
      { intros q [<-|Hin].
        - simpl. split; [left; reflexivity|]. split; [exact Hunused|].
          exists d. exact Hget.
        - destruct (Hq q Hin) as (H1 & _ & H3).
          split; [right; exact H1|]. split; [apply Hfresh; exact Hin|exact H3]. }
      split.
      { simpl. constructor; [|exact Hnd].
        intros Hin. apply in_map_iff in Hin. destruct Hin as (q & Hq1 & Hq2).
        apply (Hfresh q Hq2). exact Hq1. }
      split.
      { intros i. rewrite Hused, JsSet_has_add, orb_true_iff, Z.eqb_eq. simpl.
        intuition. }
      intros Hk. simpl in Hk. inversion Hk as [|? ? Hnotin Hk']. subst.
      simpl. constructor; [|apply Hids; exact Hk'].
      intros Hin. apply in_map_iff in Hin. destruct Hin as (q & Hq1 & Hq2).
      destruct (Hq q Hq2) as (H1 & _). rewrite Hq1 in H1. contradiction.
Qed.

(** A track is paired with an index exactly when that index is its first
    best detection among those its predecessors left. *)
Lemma matchTracks_pair_iff (pre post : list (Z * TrackData)) (tid : Z) (td : TrackData) (i : Z) :
  NoDup (map fst (pre ++ (tid, td) :: post)) ->
  In (mkPair tid i) (fst (matchTracks (pre ++ (tid, td) :: post) dets [] JsSet.empty))
  <-> bestUnused td dets (consumedBefore pre dets) i.
Proof.
  intros Hnd. rewrite matchTracks_app. unfold consumedBefore.
  destruct (matchTracks_inv pre [] JsSet.empty) as (e0 & Hf0 & Hq0 & _).
  set (p0 := fst (matchTracks pre dets [] JsSet.empty)) in *.
  set (u0 := snd (matchTracks pre dets [] JsSet.empty)) in *.
  simpl in Hf0.
  rewrite map_app in Hnd. simpl in Hnd.
  apply NoDup_remove_2 in Hnd.
  assert (Hpre : ~ In tid (map fst pre)) by (intro; apply Hnd, in_or_app; auto).
  assert (Hpost : ~ In tid (map fst post)) by (intro; apply Hnd, in_or_app; auto).
  assert (Hp0 : ~ In (mkPair tid i) p0).
  { rewrite Hf0. intros Hin. apply Hpre. apply (Hq0 _ Hin). }
  rewrite findBestMatch_iff.
  simpl matchTracks.
  destruct (fst (findBestMatch td dets u0) =? -1) eqn:E.
  - apply Z.eqb_eq in E.
    destruct (matchTracks_inv post p0 u0) as (e1 & -> & Hq1 & _).
    split.
    + intros Hin. apply in_app_or in Hin. destruct Hin as [Hin|Hin]; [contradiction|].
      exfalso. apply Hpost. apply (Hq1 _ Hin).
    + intros [H1 H2]. congruence.
  - apply Z.eqb_neq in E.
    destruct (matchTracks_inv post (p0 ++ [mkPair tid (fst (findBestMatch td dets u0))])
                (JsSet.add u0 (fst (findBestMatch td dets u0)))) as (e1 & -> & Hq1 & _).
    split.
    + intros Hin. apply in_app_or in Hin. destruct Hin as [Hin|Hin].
      * apply in_app_or in Hin. destruct Hin as [Hin|[Heq|[]]]; [contradiction|].
        injection Heq as Heq. subst i. split; [reflexivity|exact E].
      * exfalso. apply Hpost. apply (Hq1 _ Hin).
    + intros [H1 H2]. apply in_or_app. left. apply in_or_app. right.
      left. rewrite H1. reflexivity.
Qed.

End Matching.

(** ** Maps in insertion order *)

Section MapFacts.

Context {V : Type}.

Lemma JsMap_get_set (m : JsMap.t V) (k j : Z) (v : V) :
  JsMap.get (JsMap.set m k v) j = if j =? k then Some v else JsMap.get m j.
Proof.
  induction m as [|[k' v'] rest IH]; simpl.
  - rewrite (Z.eqb_sym k j). reflexivity.
  - destruct (k' =? k) eqn:E; simpl.
    + apply Z.eqb_eq in E. subst k'. rewrite (Z.eqb_sym k j).
      destruct (j =? k); reflexivity.
    + destruct (k' =? j) eqn:E'.
      * apply Z.eqb_eq in E'. subst k'. rewrite E. reflexivity.
      * exact IH.
Qed.

Lemma JsMap_get_None (m : JsMap.t V) (k : Z) :
  JsMap.get m k = None <-> ~ In k (JsMap.keys m).
Proof.
  induction m as [|[k' v'] rest IH]; simpl.
  - tauto.
  - destruct (k' =? k) eqn:E.
    + apply Z.eqb_eq in E. split; [discriminate|]. intros H. exfalso. auto.
    + apply Z.eqb_neq in E. rewrite IH. tauto.
Qed.

Lemma JsMap_get_Some_key (m : JsMap.t V) (k : Z) (v : V) :
  JsMap.get m k = Some v -> In k (JsMap.keys m).
Proof.
  intros H. destruct (in_dec Z.eq_dec k (JsMap.keys m)) as [Hin|Hn]; [exact Hin|].
  apply JsMap_get_None in Hn. congruence.
Qed.

Lemma JsMap_has_In (m : JsMap.t V) (k : Z) :
  JsMap.has m k = true <-> In k (JsMap.keys m).
Proof.
  unfold JsMap.has. destruct (JsMap.get m k) eqn:E.
  - split; [intros _; eapply JsMap_get_Some_key; eassumption|reflexivity].
  - apply JsMap_get_None in E. split; [discriminate|contradiction].
Qed.

Lemma JsMap_get_In (m : JsMap.t V) (k : Z) (v : V) :
  JsMap.get m k = Some v -> In (k, v) m.
Proof.
  induction m as [|[k' v'] rest IH]; simpl; [discriminate|].
  destruct (k' =? k) eqn:E.
  - apply Z.eqb_eq in E. intros H. injection H as <-. subst. left. reflexivity.
  - intros H. right. apply IH. exact H.
Qed.

Lemma JsMap_keys_set (m : JsMap.t V) (k : Z) (v : V) :
  JsMap.keys (JsMap.set m k v) =
  if JsMap.has m k then JsMap.keys m else JsMap.keys m ++ [k].
Proof.
  unfold JsMap.has, JsMap.keys.
  induction m as [|[k' v'] rest IH]; simpl.
  - reflexivity.
  - destruct (k' =? k) eqn:E; simpl.
    + apply Z.eqb_eq in E. subst. reflexivity.
    + rewrite IH. destruct (JsMap.get rest k); reflexivity.
Qed.

Lemma JsMap_keys_set_In (m : JsMap.t V) (k j : Z) (v : V) :
  In j (JsMap.keys (JsMap.set m k v)) <-> j = k \/ In j (JsMap.keys m).
Proof.
  rewrite JsMap_keys_set. destruct (JsMap.has m k) eqn:E.
  - apply JsMap_has_In in E. split; [auto|]. intros [->|H]; assumption.
  - rewrite in_app_iff. simpl. intuition.
Qed.

Lemma JsMap_wf_set (m : JsMap.t V) (k : Z) (v : V) :
  JsMap.wf m -> JsMap.wf (JsMap.set m k v).
Proof.
  unfold JsMap.wf. intros H. rewrite JsMap_keys_set.
  destruct (JsMap.has m k) eqn:E; [exact H|].
  assert (Hn : ~ In k (JsMap.keys m)).
  { intros Hin. apply JsMap_has_In in Hin. congruence. }
  apply NoDup_app; [exact H|repeat constructor; intros []|].
  intros a Ha [<-|[]]. contradiction.
Qed.

End MapFacts.

Lemma arr_get_update {A : Type} (arr : list A) (i j : Z) (f : A -> A) :
  arr_get (arr_update arr i f) j =
  if j =? i then option_map f (arr_get arr j) else arr_get arr j.
Proof.
  revert i j. induction arr as [|a rest IH]; intros i j.
  - simpl. unfold arr_get. destruct (j <? 0), (j =? i); try reflexivity;
      destruct (Z.to_nat j); reflexivity.
  - simpl arr_update. destruct (i =? 0) eqn:Ei.
    + apply Z.eqb_eq in Ei. subst i. rewrite !arr_get_cons.
      destruct (j =? 0); reflexivity.
    + apply Z.eqb_neq in Ei. rewrite !arr_get_cons.
      destruct (j =? 0) eqn:Ej.
      * apply Z.eqb_eq in Ej. subst j. destruct (0 =? i) eqn:E; [|reflexivity].
        apply Z.eqb_eq in E. congruence.
      * rewrite IH. destruct (j - 1 =? i - 1) eqn:E1, (j =? i) eqn:E2; try reflexivity.
        -- apply Z.eqb_eq in E1. apply Z.eqb_neq in E2. lia.
        -- apply Z.eqb_neq in E1. apply Z.eqb_eq in E2. lia.
Qed.

Lemma arr_update_length {A : Type} (arr : list A) (i : Z) (f : A -> A) :
  length (arr_update arr i f) = length arr.
Proof.
  revert i. induction arr as [|a rest IH]; intros i; simpl; [reflexivity|].
  destruct (i =? 0); simpl; [reflexivity|]. rewrite IH. reflexivity.
Qed.

Lemma arr_get_In {A : Type} (arr : list A) (a : A) :
  In a arr <-> exists j, arr_get arr j = Some a.
Proof.
  split.
  - intros H. apply In_nth_error in H. destruct H as (n & Hn).
    exists (Z.of_nat n). unfold arr_get.
    destruct (Z.of_nat n <? 0) eqn:E; [apply Z.ltb_lt in E; lia|].
    rewrite Nat2Z.id. exact Hn.
  - intros (j & Hj). unfold arr_get in Hj. destruct (j <? 0); [discriminate|].
    eapply nth_error_In. exact Hj.
Qed.

Lemma arr_get_defined {A : Type} (arr : list A) (j : Z) :
  0 <= j < Z.of_nat (length arr) -> exists a, arr_get arr j = Some a.
Proof.
  intros H. unfold arr_get. destruct (j <? 0) eqn:E; [apply Z.ltb_lt in E; lia|].
  destruct (nth_error arr (Z.to_nat j)) eqn:En; [eauto|].
  apply nth_error_None in En. lia.
Qed.

(** ** Refreshing the matched tracks *)

Section ApplyMatches.

Variable now : Z.

Lemma validPairs_update (pairs : list MatchedPair) (dets : list FaceResult)
  (i : Z) (f : FaceResult -> FaceResult) :
  validPairs pairs dets -> validPairs pairs (arr_update dets i f).
Proof.
  intros H q Hq. destruct (H q Hq) as (d & Hd).
  rewrite arr_get_update, Hd. destruct (detectionIndex q =? i); simpl; eauto.
Qed.

Lemma validPairs_tail (p : MatchedPair) (pairs : list MatchedPair) (dets : list FaceResult) :
  validPairs (p :: pairs) dets -> validPairs pairs dets.
Proof. intros H q Hq. apply H. right. exact Hq. Qed.

Lemma applyMatches_length (pairs : list MatchedPair) (tf : JsMap.t TrackData)
  (dets : list FaceResult) :
  length (snd (applyMatches pairs now tf dets)) = length dets.
Proof.
  revert tf dets. induction pairs as [|p rest IH]; intros tf dets; simpl.
  - reflexivity.
  - destruct (pair_detection dets p); rewrite IH; [apply arr_update_length|reflexivity].
Qed.

Lemma applyMatches_untouched (pairs : list MatchedPair) (tf : JsMap.t TrackData)
  (dets : list FaceResult) (j : Z) :
  ~ In j (map detectionIndex pairs) ->
  arr_get (snd (applyMatches pairs now tf dets)) j = arr_get dets j.
Proof.
  revert tf dets. induction pairs as [|p rest IH]; intros tf dets Hj; simpl.
  - reflexivity.
  - simpl in Hj.
    destruct (pair_detection dets p).
    + rewrite IH by tauto. rewrite arr_get_update.
      destruct (j =? detectionIndex p) eqn:E; [|reflexivity].
      apply Z.eqb_eq in E. exfalso. apply Hj. left. congruence.
    + apply IH. tauto.
Qed.

Lemma applyMatches_stamped (pairs : list MatchedPair) (tf : JsMap.t TrackData)
  (dets : list FaceResult) (q : MatchedPair) (d : FaceResult) :
  validPairs pairs dets ->
  NoDup (map detectionIndex pairs) ->
  In q pairs ->
  arr_get dets (detectionIndex q) = Some d ->
  arr_get (snd (applyMatches pairs now tf dets)) (detectionIndex q)
  = Some (set_persistentId d (trackId q)).
Proof.
  revert tf dets. induction pairs as [|p rest IH]; intros tf dets Hv Hnd Hin Hd.
  - destruct Hin.
  - simpl. simpl in Hnd. inversion Hnd as [|? ? Hnotin Hnd']. subst.
    destruct (Hv p (or_introl eq_refl)) as (dp & Hdp).
    unfold pair_detection. rewrite Hdp.
    destruct Hin as [->|Hin].
    + rewrite applyMatches_untouched by exact Hnotin.
      rewrite arr_get_update, Z.eqb_refl, Hd. reflexivity.
    + apply IH.
      * apply validPairs_update. eapply validPairs_tail. exact Hv.
      * exact Hnd'.
      * exact Hin.
      * rewrite arr_get_update.
        destruct (detectionIndex q =? detectionIndex p) eqn:E; [|exact Hd].
        apply Z.eqb_eq in E. exfalso. apply Hnotin. rewrite <- E.
        apply in_map. exact Hin.
Qed.

Lemma applyMatches_get_other (pairs : list MatchedPair) (tf : JsMap.t TrackData)
  (dets : list FaceResult) (k : Z) :
  ~ In k (map trackId pairs) ->
  JsMap.get (fst (applyMatches pairs now tf dets)) k = JsMap.get tf k.
Proof.
  revert tf dets. induction pairs as [|p rest IH]; intros tf dets Hk; simpl.
  - reflexivity.
  - simpl in Hk. destruct (pair_detection dets p).
    + rewrite IH by tauto. rewrite JsMap_get_set.
      destruct (k =? trackId p) eqn:E; [|reflexivity].
      apply Z.eqb_eq in E. exfalso. apply Hk. left. congruence.
    + apply IH. tauto.
Qed.

Lemma applyMatches_get_matched (pairs : list MatchedPair) (tf : JsMap.t TrackData)
  (dets : list FaceResult) (q : MatchedPair) (d : FaceResult) :
  validPairs pairs dets ->
  NoDup (map detectionIndex pairs) ->
  NoDup (map trackId pairs) ->
  In q pairs ->
  arr_get dets (detectionIndex q) = Some d ->
  JsMap.get (fst (applyMatches pairs now tf dets)) (trackId q) = Some (trackOf d now).
Proof.
  revert tf dets. induction pairs as [|p rest IH]; intros tf dets Hv Hni Hnt Hin Hd.
  - destruct Hin.
  - simpl. simpl in Hni, Hnt.
    inversion Hni as [|? ? Hnotin Hni']. inversion Hnt as [|? ? Hnotint Hnt']. subst.
    destruct (Hv p (or_introl eq_refl)) as (dp & Hdp).
    unfold pair_detection. rewrite Hdp.
    destruct Hin as [->|Hin].
    + rewrite applyMatches_get_other by exact Hnotint.
      rewrite JsMap_get_set, Z.eqb_refl. congruence.
    + apply IH.
      * apply validPairs_update. eapply validPairs_tail. exact Hv.
      * exact Hni'.
      * exact Hnt'.
      * exact Hin.
      * rewrite arr_get_update.
        destruct (detectionIndex q =? detectionIndex p) eqn:E; [|exact Hd].
        apply Z.eqb_eq in E. exfalso. apply Hnotin. rewrite <- E.
        apply in_map. exact Hin.
Qed.

Lemma applyMatches_wf (pairs : list MatchedPair) (tf : JsMap.t TrackData)
  (dets : list FaceResult) :
  JsMap.wf tf -> JsMap.wf (fst (applyMatches pairs now tf dets)).
Proof.
  revert tf dets. induction pairs as [|p rest IH]; intros tf dets H; simpl.
  - exact H.
  - destruct (pair_detection dets p); apply IH; [apply JsMap_wf_set|]; exact H.
Qed.

Lemma applyMatches_keys (pairs : list MatchedPair) (tf : JsMap.t TrackData)
  (dets : list FaceResult) :
  validPairs pairs dets ->
  NoDup (JsMap.keys tf ++ map trackId pairs) ->
  JsMap.keys (fst (applyMatches pairs now tf dets)) = JsMap.keys tf ++ map trackId pairs.
Proof.
  revert tf dets. induction pairs as [|p rest IH]; intros tf dets Hv Hnd; simpl.
  - rewrite app_nil_r. reflexivity.
  - destruct (Hv p (or_introl eq_refl)) as (dp & Hdp).
    unfold pair_detection. rewrite Hdp.
    assert (Hfresh : JsMap.has tf (trackId p) = false).
    { destruct (JsMap.has tf (trackId p)) eqn:E; [|reflexivity].
      apply JsMap_has_In in E. simpl in Hnd.
      apply NoDup_remove_2 in Hnd. exfalso. apply Hnd. apply in_or_app. left. exact E. }
    assert (Hk : JsMap.keys (JsMap.set tf (trackId p) (trackOf dp now))
                 = JsMap.keys tf ++ [trackId p]).
    { rewrite JsMap_keys_set, Hfresh. reflexivity. }
    rewrite IH.
    + rewrite Hk, <- app_assoc. reflexivity.
    + apply validPairs_update. eapply validPairs_tail. exact Hv.
    + rewrite Hk, <- app_assoc. exact Hnd.
Qed.

End ApplyMatches.

(** ** Opening tracks for the detections left over *)

Section CreateTracks.

Variables (used : JsSet.t) (now : Z).

Lemma createTracks_cons (d : FaceResult) (rest : list FaceResult) (idx next : Z)
  (tf : JsMap.t TrackData) :
  createTracks used now (d :: rest) idx next tf =
  if JsSet.has used idx then
    let r := createTracks used now rest (idx + 1) next tf in
    (fst (fst r), snd (fst r), d :: snd r)
  else
    let r := createTracks used now rest (idx + 1) (next + 1)
               (JsMap.set tf next (trackOf d now)) in
    (fst (fst r), snd (fst r), set_persistentId d next :: snd r).
Proof.
  simpl. destruct (JsSet.has used idx); simpl.
  - destruct (createTracks used now rest (idx + 1) next tf) as [[a b] c]. reflexivity.
  - destruct (createTracks used now rest (idx + 1) (next + 1)
                (JsMap.set tf next (trackOf d now))) as [[a b] c]. reflexivity.
Qed.

Lemma createTracks_next_le (dets : list FaceResult) (idx next : Z) (tf : JsMap.t TrackData) :
  next <= fst (fst (createTracks used now dets idx next tf)).
Proof.
  revert idx next tf. induction dets as [|d rest IH]; intros idx next tf.
  - simpl. lia.
  - rewrite createTracks_cons. destruct (JsSet.has used idx); simpl.
    + apply IH.
    + specialize (IH (idx + 1) (next + 1) (JsMap.set tf next (trackOf d now))). lia.
Qed.

Lemma createTracks_length (dets : list FaceResult) (idx next : Z) (tf : JsMap.t TrackData) :
  length (snd (createTracks used now dets idx next tf)) = length dets.
Proof.
  revert idx next tf. induction dets as [|d rest IH]; intros idx next tf.
  - reflexivity.
  - rewrite createTracks_cons. destruct (JsSet.has used idx); simpl; rewrite IH; reflexivity.
Qed.

Lemma createTracks_positions (dets : list FaceResult) (idx next : Z) (tf : JsMap.t TrackData)
  (j : Z) (d : FaceResult) :
  arr_get dets j = Some d ->
  (JsSet.has used (idx + j) = true ->
     arr_get (snd (createTracks used now dets idx next tf)) j = Some d)
  /\ (JsSet.has used (idx + j) = false ->
      exists id, next <= id < fst (fst (createTracks used now dets idx next tf))
        /\ arr_get (snd (createTracks used now dets idx next tf)) j
           = Some (set_persistentId d id)).
Proof.
  revert idx next tf j. induction dets as [|d0 rest IH]; intros idx next tf j Hd.
  - apply arr_get_range in Hd. simpl in Hd. lia.
  - rewrite createTracks_cons. rewrite arr_get_cons in Hd.
    destruct (j =? 0) eqn:Ej.
    + apply Z.eqb_eq in Ej. subst j. injection Hd as <-.
      rewrite Z.add_0_r. destruct (JsSet.has used idx) eqn:Hu; simpl.
      * split; [intros _; reflexivity|discriminate].
      * split; [discriminate|]. intros _. exists next. split; [|reflexivity].
        pose proof (createTracks_next_le rest (idx + 1) (next + 1)
                      (JsMap.set tf next (trackOf d0 now))). lia.
    + replace (idx + j) with ((idx + 1) + (j - 1)) by lia.
      destruct (JsSet.has used idx) eqn:Hu; simpl; rewrite arr_get_cons, Ej.
      * apply IH. exact Hd.
      * destruct (IH (idx + 1) (next + 1) (JsMap.set tf next (trackOf d0 now)) (j - 1) Hd)
          as [H1 H2].
        split; [exact H1|]. intros H. destruct (H2 H) as (id & Hid & Hg).
        exists id. split; [lia|exact Hg].
Qed.

Lemma createTracks_get_old (dets : list FaceResult) (idx next : Z) (tf : JsMap.t TrackData)
  (k : Z) :
  k < next ->
  JsMap.get (snd (fst (createTracks used now dets idx next tf))) k = JsMap.get tf k.
Proof.
  revert idx next tf. induction dets as [|d rest IH]; intros idx next tf Hk.
  - reflexivity.
  - rewrite createTracks_cons. destruct (JsSet.has used idx); simpl.
    + apply IH. exact Hk.
    + rewrite IH by lia. rewrite JsMap_get_set.
      destruct (k =? next) eqn:E; [|reflexivity]. apply Z.eqb_eq in E. lia.
Qed.

Lemma createTracks_wf (dets : list FaceResult) (idx next : Z) (tf : JsMap.t TrackData) :
  JsMap.wf tf -> JsMap.wf (snd (fst (createTracks used now dets idx next tf))).
Proof.
  revert idx next tf. induction dets as [|d rest IH]; intros idx next tf H.
  - exact H.
  - rewrite createTracks_cons. destruct (JsSet.has used idx); simpl; apply IH;
      [|apply JsMap_wf_set]; exact H.
Qed.

Lemma createTracks_keys_In (dets : list FaceResult) (idx next : Z) (tf : JsMap.t TrackData)
  (k : Z) :
  In k (JsMap.keys (snd (fst (createTracks used now dets idx next tf)))) ->
  In k (JsMap.keys tf) \/ next <= k < fst (fst (createTracks used now dets idx next tf)).
Proof.
  revert idx next tf. induction dets as [|d rest IH]; intros idx next tf.
  - simpl. auto.
  - rewrite createTracks_cons. destruct (JsSet.has used idx); simpl.
    + apply IH.
    + intros H. apply IH in H. destruct H as [H|H].
      * apply JsMap_keys_set_In in H. destruct H as [->|H]; [|left; exact H].
        right. pose proof (createTracks_next_le rest (idx + 1) (next + 1)
                             (JsMap.set tf next (trackOf d now))). lia.
      * right. lia.
Qed.

(** The identifiers handed out in one pass increase and lie between the
    counter before and the counter after. *)
Lemma createTracks_createdIds (dets : list FaceResult) (idx next : Z) (tf : JsMap.t TrackData) :
  let r := createTracks used now dets idx next tf in
  StronglySorted Z.lt (createdIds used (snd r) idx)
  /\ Forall (fun id => next <= id < fst (fst r)) (createdIds used (snd r) idx).
Proof.
  revert idx next tf. induction dets as [|d rest IH]; intros idx next tf.
  - simpl. split; constructor.
  - cbv zeta. rewrite createTracks_cons. destruct (JsSet.has used idx) eqn:Hu; simpl.
    + rewrite Hu. apply IH.
    + rewrite Hu.
      destruct (IH (idx + 1) (next + 1) (JsMap.set tf next (trackOf d now))) as [Hs Hb].
      pose proof (createTracks_next_le rest (idx + 1) (next + 1)
                    (JsMap.set tf next (trackOf d now))) as Hle.
      split.
      * constructor; [exact Hs|].
        eapply Forall_impl; [|exact Hb]. simpl. intros a Ha. lia.
      * constructor; [lia|].
        eapply Forall_impl; [|exact Hb]. simpl. intros a Ha. lia.
Qed.

Lemma createTracks_keys (dets : list FaceResult) (idx next : Z) (tf : JsMap.t TrackData) :
  (forall k, In k (JsMap.keys tf) -> k < next) ->
  JsMap.keys (snd (fst (createTracks used now dets idx next tf)))
  = JsMap.keys tf ++ createdIds used (snd (createTracks used now dets idx next tf)) idx.
Proof.
  revert idx next tf. induction dets as [|d rest IH]; intros idx next tf Hlt.
  - simpl. rewrite app_nil_r. reflexivity.
  - rewrite createTracks_cons. destruct (JsSet.has used idx) eqn:Hu; simpl; rewrite Hu.
    + apply IH. exact Hlt.
    + assert (Hfresh : JsMap.has tf next = false).
      { destruct (JsMap.has tf next) eqn:E; [|reflexivity].
        apply JsMap_has_In in E. apply Hlt in E. lia. }
      rewrite IH.
      * rewrite JsMap_keys_set, Hfresh, <- app_assoc. reflexivity.
      * intros k Hk. apply JsMap_keys_set_In in Hk. destruct Hk as [->|Hk]; [lia|].
        apply Hlt in Hk. lia.
Qed.

End CreateTracks.

(** ** Carrying the survivors forward *)

Section CarryForward.

Variable now : Z.

Lemma carryForward_get (l : list (Z * TrackData)) (m : JsMap.t TrackData) (k : Z) :
  NoDup (map fst l) ->
  JsMap.get (carryForward l now m) k =
  match JsMap.get m k with
  | Some v => Some v
  | None =>
      match JsMap.get l k with
      | Some td => if isFresh now td then Some td else None
      | None => None
      end
  end.
Proof.
  revert m. induction l as [|[k1 td1] rest IH]; intros m Hnd.
  - simpl. destruct (JsMap.get m k); reflexivity.
  - simpl in Hnd. inversion Hnd as [|? ? Hnotin Hnd']. subst.
    simpl carryForward. simpl JsMap.get. fold (isFresh now td1).
    assert (Hrest : (k1 =? k) = true -> JsMap.get rest k = None).
    { intros E. apply Z.eqb_eq in E. subst. apply JsMap_get_None. exact Hnotin. }
    destruct (isFresh now td1 && negb (JsMap.has m k1)) eqn:Hc.
    + apply andb_true_iff in Hc. destruct Hc as [Hf Hh].
      apply negb_true_iff in Hh.
      rewrite IH by exact Hnd'. rewrite JsMap_get_set. rewrite (Z.eqb_sym k k1).
      destruct (k1 =? k) eqn:E.
      * apply Z.eqb_eq in E. subst k1. unfold JsMap.has in Hh.
        destruct (JsMap.get m k); [discriminate|]. rewrite Hf. reflexivity.
      * reflexivity.
    + rewrite IH by exact Hnd'.
      destruct (JsMap.get m k) eqn:Hm; [reflexivity|].
      destruct (k1 =? k) eqn:E; [|reflexivity].
      rewrite (Hrest eq_refl).
      apply Z.eqb_eq in E. subst k1. unfold JsMap.has in Hc. rewrite Hm in Hc.
      simpl in Hc. rewrite andb_true_r in Hc. rewrite Hc. reflexivity.
Qed.

Lemma carryForward_wf (l : list (Z * TrackData)) (m : JsMap.t TrackData) :
  JsMap.wf m -> JsMap.wf (carryForward l now m).
Proof.
  revert m. induction l as [|[k1 td1] rest IH]; intros m H; simpl.
  - exact H.
  - destruct ((now - lastSeen td1 <=? MAX_INACTIVITY_MS) && negb (JsMap.has m k1));
      apply IH; [apply JsMap_wf_set|]; exact H.
Qed.

Lemma carryForward_keys_In (l : list (Z * TrackData)) (m : JsMap.t TrackData) (k : Z) :
  In k (JsMap.keys (carryForward l now m)) -> In k (JsMap.keys m) \/ In k (map fst l).
Proof.
  revert m. induction l as [|[k1 td1] rest IH]; intros m; simpl.
  - auto.
  - destruct ((now - lastSeen td1 <=? MAX_INACTIVITY_MS) && negb (JsMap.has m k1));
      intros H; apply IH in H.
    + destruct H as [H|H]; [|auto].
      apply JsMap_keys_set_In in H. destruct H as [->|H]; auto.
    + destruct H; auto.
Qed.

(** The survivors go behind what the table holds already, in the order
    of the old table. *)
Lemma carryForward_keys (l : list (Z * TrackData)) (m : JsMap.t TrackData) :
  NoDup (map fst l) ->
  JsMap.keys (carryForward l now m)
  = JsMap.keys m
    ++ map fst (filter (fun e => isFresh now (snd e) && negb (JsMap.has m (fst e))) l).
Proof.
  revert m. induction l as [|[k1 td1] rest IH]; intros m Hnd.
  - simpl. rewrite app_nil_r. reflexivity.
  - simpl in Hnd. inversion Hnd as [|? ? Hnotin Hnd']. subst.
    simpl carryForward. simpl filter. fold (isFresh now td1).
    destruct (isFresh now td1 && negb (JsMap.has m k1)) eqn:Hc.
    + apply andb_true_iff in Hc. destruct Hc as [Hf Hh]. apply negb_true_iff in Hh.
      rewrite IH by exact Hnd'. rewrite JsMap_keys_set, Hh, <- app_assoc. simpl.
      do 3 f_equal. apply filter_ext_in. intros [k2 td2] Hin. simpl.
      f_equal. f_equal. unfold JsMap.has. rewrite JsMap_get_set.
      destruct (k2 =? k1) eqn:E; [|reflexivity].
      apply Z.eqb_eq in E. subst. exfalso. apply Hnotin.
      apply (in_map fst) in Hin. exact Hin.
    + apply IH. exact Hnd'.
Qed.

End CarryForward.

(** The pairs and the consumed indices of a whole table. *)
Lemma matchTracks_table (tf : JsMap.t TrackData) (dets : list FaceResult) :
  (forall q, In q (fst (matchTracks (JsMap.entries tf) dets [] JsSet.empty)) ->
     In (trackId q) (JsMap.keys tf) /\ exists d, arr_get dets (detectionIndex q) = Some d)
  /\ NoDup (map detectionIndex (fst (matchTracks (JsMap.entries tf) dets [] JsSet.empty)))
  /\ (forall i, JsSet.has (snd (matchTracks (JsMap.entries tf) dets [] JsSet.empty)) i = true
                <-> In i (map detectionIndex
                            (fst (matchTracks (JsMap.entries tf) dets [] JsSet.empty))))
  /\ (JsMap.wf tf ->
      NoDup (map trackId (fst (matchTracks (JsMap.entries tf) dets [] JsSet.empty)))).
Proof.
  destruct (matchTracks_inv dets (JsMap.entries tf) [] JsSet.empty)
    as (extra & Hf & Hq & Hnd & Hu & Hids).
  simpl in Hf. rewrite Hf.
  split; [intros q Hin; destruct (Hq q Hin) as (H1 & _ & H3); split; assumption|].
  split; [exact Hnd|]. split; [|exact Hids].
  intros i. rewrite Hu. simpl. intuition discriminate.
Qed.

(** ** One pass of the reconciler *)

Section Reconcile.

Variables (tf : JsMap.t TrackData) (next : Z) (dets : list FaceResult) (now : Z).

Local Abbreviation mp := (fst (matchTracks (JsMap.entries tf) dets [] JsSet.empty)).
Local Abbreviation u := (snd (matchTracks (JsMap.entries tf) dets [] JsSet.empty)).
Local Abbreviation am := (applyMatches mp now JsMap.empty dets).
Local Abbreviation ct := (createTracks u now (snd am) 0 next (fst am)).

Lemma reconcile_eq :
  reconcile tf next dets now =
  mkReconciled mp u (carryForward (JsMap.entries tf) now (snd (fst ct)))
               (fst (fst ct)) (snd ct).
Proof.
  unfold reconcile.
  destruct (matchTracks (JsMap.entries tf) dets [] JsSet.empty) as [p0 u0]. simpl.
  destruct (applyMatches p0 now JsMap.empty dets) as [m0 d0]. simpl.
  destruct (createTracks u0 now d0 0 next m0) as [[n1 m1] d1]. reflexivity.
Qed.

Lemma reconcile_matchedPairs : r_matchedPairs (reconcile tf next dets now) = mp.
Proof. rewrite reconcile_eq. reflexivity. Qed.

Lemma reconcile_used : r_used (reconcile tf next dets now) = u.
Proof. rewrite reconcile_eq. reflexivity. Qed.

Lemma matched_facts :
  (forall q, In q mp ->
     In (trackId q) (JsMap.keys tf) /\ exists d, arr_get dets (detectionIndex q) = Some d)
  /\ NoDup (map detectionIndex mp)
  /\ (forall i, JsSet.has u i = true <-> In i (map detectionIndex mp))
  /\ (JsMap.wf tf -> NoDup (map trackId mp)).
Proof. apply matchTracks_table. Qed.

Lemma matched_valid : validPairs mp dets.
Proof. intros q Hq. apply matched_facts. exact Hq. Qed.

Lemma reconcile_next_le : next <= r_nextFaceId (reconcile tf next dets now).
Proof. rewrite reconcile_eq. simpl. apply createTracks_next_le. Qed.

Lemma matchedFaces_keys (k : Z) :
  In k (JsMap.keys (fst am)) -> In k (map trackId mp).
Proof.
  intros Hin. destruct (in_dec Z.eq_dec k (map trackId mp)) as [H|H]; [exact H|].
  exfalso. pose proof (applyMatches_get_other now mp JsMap.empty dets k H) as Hg. simpl in Hg. apply JsMap_get_None in Hg. contradiction.
Qed.

Hypothesis Hinv : trackerInv tf next.

Lemma reconcile_inv :
  trackerInv (r_trackedFaces (reconcile tf next dets now))
             (r_nextFaceId (reconcile tf next dets now)).
Proof.
  destruct Hinv as (Hwf & H1 & Hkeys).
  pose proof reconcile_next_le as Hle.
  rewrite reconcile_eq in *. simpl in *.
  split; [|split].
  - apply carryForward_wf, createTracks_wf, applyMatches_wf. constructor.
  - lia.
  - intros k Hk. apply carryForward_keys_In in Hk. destruct Hk as [Hk|Hk].
    + apply createTracks_keys_In in Hk. destruct Hk as [Hk|Hk].
      * apply matchedFaces_keys in Hk. apply in_map_iff in Hk.
        destruct Hk as (q & <- & Hq).
        destruct matched_facts as (Hf & _). apply Hf in Hq. destruct Hq as [Hq _].
        apply Hkeys in Hq. lia.
      * lia.
    + apply Hkeys in Hk. lia.
Qed.

(** Where a track of the old table stands after the pass when no
    detection was paired with it. *)
Lemma reconcile_get_unmatched (tid : Z) (td : TrackData) :
  JsMap.get tf tid = Some td ->
  ~ In tid (map trackId mp) ->
  JsMap.get (r_trackedFaces (reconcile tf next dets now)) tid
  = if now - lastSeen td <=? MAX_INACTIVITY_MS then Some td else None.
Proof.
  intros Hget Hnot. destruct Hinv as (Hwf & H1 & Hkeys).
  rewrite reconcile_eq. simpl.
  rewrite carryForward_get by exact Hwf.
  assert (Hlt : tid < next).
  { apply JsMap_get_Some_key in Hget. apply Hkeys in Hget. lia. }
  rewrite createTracks_get_old by exact Hlt.
  rewrite applyMatches_get_other by exact Hnot.
  simpl JsMap.get at 1. unfold JsMap.entries. rewrite Hget. reflexivity.
Qed.

(** A paired track keeps its identifier and takes the detection's region. *)
Lemma reconcile_get_matched (q : MatchedPair) (d : FaceResult) :
  In q mp ->
  arr_get dets (detectionIndex q) = Some d ->
  JsMap.get (r_trackedFaces (reconcile tf next dets now)) (trackId q)
  = Some (trackOf d now)
  /\ arr_get (r_detections (reconcile tf next dets now)) (detectionIndex q)
     = Some (set_persistentId d (trackId q)).
Proof.
  intros Hq Hd. destruct Hinv as (Hwf & H1 & Hkeys).
  destruct matched_facts as (Hf & Hni & Hu & Hnt). specialize (Hnt Hwf).
  rewrite reconcile_eq. simpl. split.
  - rewrite carryForward_get by exact Hwf.
    assert (Hlt : trackId q < next).
    { destruct (Hf q Hq) as [Hk _]. apply Hkeys in Hk. lia. }
    rewrite createTracks_get_old by exact Hlt.
    rewrite (applyMatches_get_matched now mp JsMap.empty dets q d);
      try assumption; [reflexivity|apply matched_valid].
  - pose proof (applyMatches_stamped now mp JsMap.empty dets q d
                  matched_valid Hni Hq Hd) as Hs.
    destruct (createTracks_positions u now (snd am) 0 next (fst am)
                (detectionIndex q) _ Hs) as [Hused _].
    apply Hused. simpl. apply Hu. apply in_map. exact Hq.
Qed.

(** Every detection leaves the pass with an identifier: that of the
    track paired with it, or a fresh one. *)
Lemma reconcile_annotated (j : Z) (d' : FaceResult) :
  arr_get (r_detections (reconcile tf next dets now)) j = Some d' ->
  exists d id,
    arr_get dets j = Some d /\ d' = set_persistentId d id
    /\ (In (mkPair id j) mp \/
        (JsSet.has u j = false /\ next <= id < r_nextFaceId (reconcile tf next dets now))).
Proof.
  intros Hj. destruct matched_facts as (Hf & Hni & Hu & _).
  rewrite reconcile_eq in *. simpl in *.
  assert (Hrange : 0 <= j < Z.of_nat (length dets)).
  { apply arr_get_range in Hj.
    rewrite createTracks_length in Hj.
    rewrite applyMatches_length in Hj. exact Hj. }
  destruct (arr_get_defined dets j Hrange) as (d & Hd).
  destruct (JsSet.has u j) eqn:Hused.
  - apply Hu in Hused. apply in_map_iff in Hused. destruct Hused as (q & Hqi & Hq).
    subst j.
    pose proof (applyMatches_stamped now mp JsMap.empty dets q d
                  matched_valid Hni Hq Hd) as Hs.
    destruct (createTracks_positions u now (snd am) 0 next (fst am)
                (detectionIndex q) _ Hs) as [Hkeep _]. rewrite Hkeep in Hj.
    2:{ simpl. apply Hu. apply in_map. exact Hq. }
    injection Hj as <-. exists d, (trackId q). split; [exact Hd|].
    split; [reflexivity|]. left. destruct q. exact Hq.
  - assert (Hnot : ~ In j (map detectionIndex mp)).
    { intros Hin. apply Hu in Hin. congruence. }
    pose proof (applyMatches_untouched now mp JsMap.empty dets j Hnot) as Hs.
    rewrite Hd in Hs.
    destruct (createTracks_positions u now (snd am) 0 next (fst am) j _ Hs) as [_ Hnew]. destruct (Hnew Hused) as (id & Hid & Hg).
    rewrite Hg in Hj. injection Hj as <-. exists d, id.
    split; [exact Hd|]. split; [|right; split; [reflexivity|exact Hid]].
    destruct d; reflexivity.
Qed.

End Reconcile.

(** ** Sequences of cycles and reachable states *)

Lemma createdIds_reconcile (tf : JsMap.t TrackData) (next : Z) (dets : list FaceResult) (now : Z) :
  let r := reconcile tf next dets now in
  StronglySorted Z.lt (createdIds (r_used r) (r_detections r) 0)
  /\ Forall (fun id => next <= id < r_nextFaceId r) (createdIds (r_used r) (r_detections r) 0).
Proof.
  cbv zeta. rewrite reconcile_eq. simpl. apply createTracks_createdIds.
Qed.

Lemma StronglySorted_app_lt (l1 l2 : list Z) (bound : Z) :
  StronglySorted Z.lt l1 -> StronglySorted Z.lt l2 ->
  Forall (fun a => a < bound) l1 -> Forall (fun b => bound <= b) l2 ->
  StronglySorted Z.lt (l1 ++ l2).
Proof.
  intros H1 H2 Hb1 Hb2. induction l1 as [|a rest IH]; simpl; [exact H2|].
  inversion H1 as [|? ? Hs Hall]. inversion Hb1 as [|? ? Ha Hrest]. subst.
  constructor; [apply IH; assumption|].
  apply Forall_app. split; [exact Hall|].
  eapply Forall_impl; [|exact Hb2]. simpl. intros b Hb. lia.
Qed.

Lemma sessionCreatedIds_sorted (cycles : list (list FaceResult * Z))
  (tf : JsMap.t TrackData) (next : Z) :
  StronglySorted Z.lt (sessionCreatedIds tf next cycles)
  /\ Forall (fun id => next <= id) (sessionCreatedIds tf next cycles).
Proof.
  revert tf next. induction cycles as [|[faces now] rest IH]; intros tf next.
  - simpl. split; constructor.
  - simpl.
    destruct (createdIds_reconcile tf next faces now) as [Hs Hb].
    set (r := reconcile tf next faces now) in *.
    destruct (IH (r_trackedFaces r) (r_nextFaceId r)) as [Hs' Hb'].
    pose proof (reconcile_next_le tf next faces now) as Hle. fold r in Hle.
    split.
    + apply StronglySorted_app_lt with (bound := r_nextFaceId r); try assumption.
      eapply Forall_impl; [|exact Hb]. simpl. intros a Ha. lia.
    + apply Forall_app. split.
      * eapply Forall_impl; [|exact Hb]. simpl. intros a Ha. lia.
      * eapply Forall_impl; [|exact Hb']. simpl. intros a Ha. lia.
Qed.

Lemma StronglySorted_lt_NoDup (l : list Z) : StronglySorted Z.lt l -> NoDup l.
Proof.
  induction 1 as [|a l Hs IH Hall]; constructor; [|exact IH].
  intros Hin. rewrite Forall_forall in Hall. specialize (Hall a Hin). lia.
Qed.

Lemma sessionState_inv (cycles : list (list FaceResult * Z))
  (tf : JsMap.t TrackData) (next : Z) :
  trackerInv tf next ->
  trackerInv (fst (sessionState tf next cycles)) (snd (sessionState tf next cycles)).
Proof.
  revert tf next. induction cycles as [|[faces now] rest IH]; intros tf next H.
  - exact H.
  - simpl. apply IH. apply reconcile_inv. exact H.
Qed.

Lemma reconcile_keys_origin (tf : JsMap.t TrackData) (next : Z)
  (dets : list FaceResult) (now k : Z) :
  In k (JsMap.keys (r_trackedFaces (reconcile tf next dets now))) ->
  In k (JsMap.keys tf) \/ next <= k.
Proof.
  rewrite reconcile_eq. simpl. intros Hk.
  apply carryForward_keys_In in Hk. destruct Hk as [Hk|Hk]; [|left; exact Hk].
  apply createTracks_keys_In in Hk. destruct Hk as [Hk|Hk]; [|right; lia].
  apply matchedFaces_keys in Hk. apply in_map_iff in Hk. destruct Hk as (q & <- & Hq).
  left. apply (matchTracks_table tf dets). exact Hq.
Qed.

Lemma sessionState_keys_origin (cycles : list (list FaceResult * Z))
  (tf : JsMap.t TrackData) (next k : Z) :
  In k (JsMap.keys (fst (sessionState tf next cycles))) ->
  In k (JsMap.keys tf) \/ next <= k.
Proof.
  revert tf next. induction cycles as [|[faces now] rest IH]; intros tf next Hk.
  - left. exact Hk.
  - simpl in Hk. apply IH in Hk. destruct Hk as [Hk|Hk].
    + apply reconcile_keys_origin in Hk. exact Hk.
    + right. pose proof (reconcile_next_le tf next faces now). lia.
Qed.

Lemma trackerInv_start : trackerInv JsMap.empty 1.
Proof.
  split; [constructor|]. split; [lia|]. intros k [].
Qed.

Lemma tryBlock_tracker (st : JsMap.t StudentInfo) (e : bool) (s : AppState)
  (faces : list FaceResult) (now : Z) :
  trackedFaces (tryBlock st e s faces now)
  = r_trackedFaces (reconcile (trackedFaces s) (nextFaceId s) faces now)
  /\ nextFaceId (tryBlock st e s faces now)
     = r_nextFaceId (reconcile (trackedFaces s) (nextFaceId s) faces now).
Proof.
  unfold tryBlock.
  destruct (logAttendance st now
              (r_detections (reconcile (trackedFaces s) (nextFaceId s) faces now))
              (attendance s) (lastAttendanceLog s)) as [[f a] l].
  split; reflexivity.
Qed.

Lemma analysisSucceeded_tracker (s : AppState) (faces : list FaceResult) (now : Z) :
  trackedFaces (analysisSucceeded s faces now)
  = r_trackedFaces (reconcile (trackedFaces s) (nextFaceId s) faces now)
  /\ nextFaceId (analysisSucceeded s faces now)
     = r_nextFaceId (reconcile (trackedFaces s) (nextFaceId s) faces now).
Proof.
  apply tryBlock_tracker.
Qed.

Lemma completeCycle_inv (s : AppState) (o : DetectionOutcome) (now : Z) :
  trackerInv (trackedFaces s) (nextFaceId s) ->
  trackerInv (trackedFaces (completeCycle s o now)) (nextFaceId (completeCycle s o now)).
Proof.
  intros H. destruct o as [faces| |]; simpl; [|exact H|exact H].
  destruct (tryBlock_tracker (capturedStudents s) (capturedIsApiError s) s faces now)
    as [-> ->].
  apply reconcile_inv. exact H.
Qed.

Lemma beginCycle_tracker (s : AppState) :
  trackedFaces (beginCycle s) = trackedFaces s /\ nextFaceId (beginCycle s) = nextFaceId s.
Proof.
  unfold beginCycle. destruct (isProcessing s || negb (stream s)); split; reflexivity.
Qed.

Lemma step_inv (s : AppState) (e : Event) :
  trackerInv (trackedFaces s) (nextFaceId s) ->
  trackerInv (trackedFaces (step s e)) (nextFaceId (step s e)).
Proof.
  intros H. destruct e as [o| |o now| |o now|id info|]; simpl.
  - destruct o; simpl; apply trackerInv_start.
  - unfold handleStopCamera. destruct (stream s); simpl; [|exact H].
    destruct H as (_ & H1 & _). split; [constructor|]. split; [exact H1|]. intros k [].
  - unfold captureAndAnalyze. destruct (isProcessing s || negb (stream s)); [exact H|].
    apply completeCycle_inv. destruct (beginCycle_tracker s) as [-> ->]. exact H.
  - destruct (beginCycle_tracker s) as [-> ->]. exact H.
  - destruct (isProcessing s); [|exact H]. apply completeCycle_inv. exact H.
  - exact H.
  - unfold resumeAfterRateLimit. destruct (pendingResumeTimers s); [exact H|].
    destruct (srcObject s); exact H.
Qed.

Lemma run_inv (events : list Event) (s : AppState) :
  trackerInv (trackedFaces s) (nextFaceId s) ->
  trackerInv (trackedFaces (run s events)) (nextFaceId (run s events)).
Proof.
  revert s. induction events as [|e rest IH]; intros s H; simpl.
  - exact H.
  - apply IH. apply step_inv. exact H.
Qed.

Lemma reachable_inv (s : AppState) :
  reachable s -> trackerInv (trackedFaces s) (nextFaceId s).
Proof.
  intros (st & att & evs & ->). apply run_inv. simpl. apply trackerInv_start.
Qed.

(** ** The attendance loop *)

Section Attendance.

Variables (students : JsMap.t StudentInfo) (now : Z).

Lemma logFace_emits (f : FaceResult) (att : list AttendanceRecord) (log : JsMap.t Z) (id : Z) :
  persistentId f = Some id ->
  shouldEmit students log now id = true ->
  exists f', logFace students now f att log
             = (f', att ++ [mkAttendance id now (emotion f)], JsMap.set log id now).
Proof.
  intros Hid He. unfold shouldEmit in He.
  apply andb_true_iff in He. destruct He as [He Hs].
  apply andb_true_iff in He. destruct He as [Ht Hh].
  unfold logFace. rewrite Hid, Ht. unfold JsMap.has in Hh.
  destruct (JsMap.get students id) as [info|]; [|discriminate].
  rewrite Hs. eauto.
Qed.

Lemma logFace_silent (f : FaceResult) (att : list AttendanceRecord) (log : JsMap.t Z) :
  (forall id, persistentId f = Some id -> shouldEmit students log now id = false) ->
  exists f', logFace students now f att log = (f', att, log).
Proof.
  intros H. unfold logFace.
  destruct (persistentId f) as [id|]; [|eauto].
  specialize (H id eq_refl). unfold shouldEmit, JsMap.has in H.
  destruct (truthy id); [|eauto].
  destruct (JsMap.get students id) as [info|]; [|eauto].
  simpl in H. rewrite H. eauto.
Qed.

Lemma shouldEmit_set_other (log : JsMap.t Z) (id0 id t : Z) :
  id <> id0 ->
  shouldEmit students (JsMap.set log id0 t) now id = shouldEmit students log now id.
Proof.
  intros Hne. unfold shouldEmit. rewrite JsMap_get_set.
  destruct (id =? id0) eqn:E; [apply Z.eqb_eq in E; contradiction|reflexivity].
Qed.

(** What the loop appends and how it leaves the registry. *)
Lemma logAttendance_spec (faces : list FaceResult) (att : list AttendanceRecord)
  (log : JsMap.t Z) :
  exists extra,
    snd (fst (logAttendance students now faces att log)) = att ++ extra
    /\ forall id,
         (In id (map att_persistentId extra) <->
            hasId faces id && shouldEmit students log now id = true)
         /\ JsMap.get (snd (logAttendance students now faces att log)) id
            = if hasId faces id && shouldEmit students log now id
              then Some now else JsMap.get log id.
Proof.
  revert att log. induction faces as [|f rest IH]; intros att log.
  - exists []. simpl. rewrite app_nil_r. split; [reflexivity|].
    intros id. split; [|reflexivity]. split; [intros []|discriminate].
  - simpl logAttendance.
    destruct (persistentId f) as [id0|] eqn:Hid0.
    + destruct (shouldEmit students log now id0) eqn:He.
      * destruct (logFace_emits f att log id0 Hid0 He) as (f' & ->).
        destruct (IH (att ++ [mkAttendance id0 now (emotion f)]) (JsMap.set log id0 now))
          as (extra & Hatt & Hids).
        destruct (logAttendance students now rest
                    (att ++ [mkAttendance id0 now (emotion f)]) (JsMap.set log id0 now))
          as [[r' a'] l'].
        simpl in *. exists (mkAttendance id0 now (emotion f) :: extra).
        split; [rewrite Hatt, <- app_assoc; reflexivity|].
        intros id. destruct (Hids id) as [Hin Hget]. rewrite Hid0.
        destruct (Z.eq_dec id id0) as [->|Hne].
        -- rewrite Z.eqb_refl, He. simpl.
           split; [split; auto|].
           rewrite Hget, JsMap_get_set, Z.eqb_refl.
           destruct (hasId rest id0 && shouldEmit students (JsMap.set log id0 now) now id0);
             reflexivity.
        -- assert (E : (id0 =? id) = false) by (apply Z.eqb_neq; congruence).
           rewrite E. simpl orb.
           rewrite shouldEmit_set_other in Hin, Hget by exact Hne.
           rewrite JsMap_get_set in Hget.
           assert (E' : (id =? id0) = false) by (apply Z.eqb_neq; exact Hne).
           rewrite E' in Hget.
           split; [|exact Hget].
           rewrite <- Hin. simpl.
           split; [intros [H|H]; [congruence|exact H]|auto].
      * destruct (logFace_silent f att log) as (f' & ->).
        { intros id H. congruence. }
        destruct (IH att log) as (extra & Hatt & Hids).
        destruct (logAttendance students now rest att log) as [[r' a'] l'].
        simpl in *. exists extra. split; [exact Hatt|].
        intros id. destruct (Hids id) as [Hin Hget]. rewrite Hid0.
        destruct (Z.eq_dec id id0) as [->|Hne].
        -- rewrite He in *. rewrite andb_false_r in *. split; assumption.
        -- assert (E : (id0 =? id) = false) by (apply Z.eqb_neq; congruence).
           rewrite E. simpl orb. split; assumption.
    + destruct (logFace_silent f att log) as (f' & ->).
      { intros id H. congruence. }
      destruct (IH att log) as (extra & Hatt & Hids).
      destruct (logAttendance students now rest att log) as [[r' a'] l'].
      simpl in *. exists extra. split; [exact Hatt|].
      intros id. rewrite Hid0. simpl orb. apply Hids.
Qed.


Lemma shouldLog_iff (lastLog : option Z) :
  (forall t, lastLog = Some t -> t <> 0) ->
  shouldLog lastLog now = true <->
  lastLog = None \/ exists t, lastLog = Some t /\ ATTENDANCE_LOG_INTERVAL_MS < now - t.
Proof.
  intros Hnz. unfold shouldLog. destruct lastLog as [t|].
  - assert (Ht : truthy t = true).
    { unfold truthy. apply negb_true_iff, Z.eqb_neq. apply Hnz. reflexivity. }
    rewrite Ht. simpl. rewrite Z.ltb_lt. split.
    + intros H. right. exists t. split; [reflexivity|exact H].
    + intros [H|(t' & H & Hlt)]; [discriminate|]. injection H as <-. exact Hlt.
  - split; auto.
Qed.

End Attendance.

Lemma reconcile_ids_positive (tf : JsMap.t TrackData) (next : Z)
  (dets : list FaceResult) (now : Z) (d : FaceResult) :
  trackerInv tf next ->
  In d (r_detections (reconcile tf next dets now)) ->
  exists id, persistentId d = Some id /\ 1 <= id.
Proof.
  intros Hinv Hin. apply arr_get_In in Hin. destruct Hin as (j & Hj).
  destruct (reconcile_annotated tf next dets now j d Hj) as (d0 & id & _ & -> & Hcase).
  exists id. split; [reflexivity|].
  destruct Hinv as (_ & H1 & Hkeys).
  destruct Hcase as [Hp|[_ Hr]]; [|lia].
  destruct (matchTracks_table tf dets) as (Hf & _).
  destruct (Hf _ Hp) as [Hk _]. simpl in Hk. apply Hkeys in Hk. lia.
Qed.

(** ** Order of the table after a pass *)

Lemma consumedBefore_iff (dets : list FaceResult) (pre post : list (Z * TrackData)) (j : Z) :
  NoDup (map fst (pre ++ post)) ->
  JsSet.has (consumedBefore pre dets) j = true <->
  exists tid, In tid (map fst pre)
    /\ In (mkPair tid j) (fst (matchTracks (pre ++ post) dets [] JsSet.empty)).
Proof.
  intros Hnd. rewrite matchTracks_app. unfold consumedBefore.
  destruct (matchTracks_inv dets pre [] JsSet.empty) as (e0 & Hf0 & Hq0 & _ & Hu0 & _).
  destruct (matchTracks_inv dets post (fst (matchTracks pre dets [] JsSet.empty))
              (snd (matchTracks pre dets [] JsSet.empty))) as (e1 & Hf1 & Hq1 & _).
  rewrite Hf1, Hu0. simpl in Hf0. rewrite Hf0.
  rewrite map_app in Hnd.
  split.
  - intros [H|H]; [discriminate|]. apply in_map_iff in H. destruct H as (q & <- & Hq).
    exists (trackId q). split; [apply (Hq0 q Hq)|].
    apply in_or_app. left. destruct q. exact Hq.
  - intros (tid & Hpre & Hin). right. apply in_app_or in Hin. destruct Hin as [Hin|Hin].
    + apply (in_map detectionIndex) in Hin. exact Hin.
    + exfalso. destruct (Hq1 _ Hin) as (Hpost & _). simpl in Hpost.
      revert Hpre Hpost. clear - Hnd. revert Hnd.
      induction (map fst pre) as [|a l IH]; intros Hnd Hpre Hpost; [destruct Hpre|].
      simpl in Hnd. inversion Hnd as [|? ? Hn Hnd']. subst.
      destruct Hpre as [->|Hpre].
      * apply Hn. apply in_or_app. right. exact Hpost.
      * apply IH; assumption.
Qed.

Lemma reconcile_keys (tf : JsMap.t TrackData) (next : Z) (dets : list FaceResult) (now : Z) :
  trackerInv tf next ->
  let r := reconcile tf next dets now in
  JsMap.keys (r_trackedFaces r)
  = map trackId (r_matchedPairs r)
    ++ createdIds (r_used r) (r_detections r) 0
    ++ map fst (filter (fun e => isFresh now (snd e)
                                 && negb (existsb (Z.eqb (fst e))
                                            (map trackId (r_matchedPairs r))))
                  (JsMap.entries tf)).
Proof.
  intros Hinv. destruct Hinv as (Hwf & H1 & Hkeys). cbv zeta.
  destruct (matchTracks_table tf dets) as (Hf & Hni & Hu & Hnt). specialize (Hnt Hwf).
  rewrite reconcile_eq. simpl.
  set (mp := fst (matchTracks (JsMap.entries tf) dets [] JsSet.empty)) in *.
  set (u := snd (matchTracks (JsMap.entries tf) dets [] JsSet.empty)) in *.
  set (am := applyMatches mp now JsMap.empty dets).
  assert (Hkm : JsMap.keys (fst am) = map trackId mp).
  { unfold am. rewrite applyMatches_keys; [reflexivity|apply matched_valid|exact Hnt]. }
  assert (Hlt : forall k, In k (JsMap.keys (fst am)) -> k < next).
  { intros k Hk. rewrite Hkm in Hk. apply in_map_iff in Hk. destruct Hk as (q & <- & Hq).
    destruct (Hf q Hq) as [Hk _]. apply Hkeys in Hk. lia. }
  rewrite carryForward_keys by exact Hwf.
  rewrite createTracks_keys by exact Hlt. rewrite Hkm, <- app_assoc.
  do 3 f_equal. apply filter_ext_in. intros [k td] Hin. simpl. do 2 f_equal.
  assert (Hk : k < next).
  { apply (in_map fst) in Hin. apply Hkeys in Hin. simpl in Hin. lia. }
  unfold JsMap.has. rewrite createTracks_get_old by exact Hk.
  destruct (existsb (Z.eqb k) (map trackId mp)) eqn:E.
  - apply existsb_exists in E. destruct E as (k' & Hk' & E). apply Z.eqb_eq in E. subst k'.
    rewrite <- Hkm in Hk'. apply JsMap_has_In in Hk'. exact Hk'.
  - destruct (JsMap.get (fst am) k) eqn:G; [|reflexivity].
    apply JsMap_get_Some_key in G. rewrite Hkm in G.
    assert (existsb (Z.eqb k) (map trackId mp) = true).
    { apply existsb_exists. exists k. split; [exact G|apply Z.eqb_refl]. }
    congruence.
Qed.

(** ** The scenarios of the specification, evaluated *)

Example scenario_A :
  let r := reconcile JsMap.empty 1 [sampleFace] 1000 in
  JsMap.keys (r_trackedFaces r) = [1]
  /\ map persistentId (r_detections r) = [Some 1]
  /\ r_nextFaceId r = 2.
Proof. repeat split. Qed.

Example scenario_B :
  let r := reconcile (trackedFaces oneTrack) (nextFaceId oneTrack)
             [face "b" (box 1 1 10 10)] 2000 in
  r_matchedPairs r = [mkPair 1 0]
  /\ r_trackedFaces r = [(1, mkTrack (box 1 1 10 10) 2000 "b")]
  /\ map persistentId (r_detections r) = [Some 1].
Proof. repeat split. Qed.

Example scenario_C :
  let r := reconcile (trackedFaces oneTrack) (nextFaceId oneTrack)
             [face "b" (box 20 20 10 10)] 2000 in
  r_matchedPairs r = []
  /\ JsMap.keys (r_trackedFaces r) = [2; 1]
  /\ JsMap.get (r_trackedFaces r) 1 = JsMap.get (trackedFaces oneTrack) 1
  /\ map persistentId (r_detections r) = [Some 2].
Proof. repeat split. Qed.

Example scenario_D :
  r_trackedFaces (reconcile (trackedFaces oneTrack) (nextFaceId oneTrack) [] 21001) = [].
Proof. reflexivity. Qed.

(** ** The order of binary64 *)

Lemma SFcompare_rank (a b : Binary64.number) :
  Binary64.isNaN a = false -> Binary64.isNaN b = false ->
  (SFcompare a b = Some Lt <-> Binary64.rank_lt (Binary64.rank a) (Binary64.rank b))
  /\ (SFcompare a b = Some Eq <-> Binary64.rank a = Binary64.rank b).
Proof.
  intros Ha Hb. unfold Binary64.rank_lt.
  destruct a as [sa|sa| |sa ma ea]; try discriminate Ha;
  destruct b as [sb|sb| |sb mb eb]; try discriminate Hb;
  try destruct sa; try destruct sb; cbn [SFcompare Binary64.rank fst snd];
  try solve [split; split; intros H; try discriminate H; try reflexivity; try lia;
             try (injection H; lia)].
  - change (PosDef.Pos.compare_cont Eq ma mb) with (Pos.compare ma mb).
    destruct (Z.compare_spec ea eb) as [He|He|He];
      [destruct (Pos.compare_spec ma mb) as [Hm|Hm|Hm]| |]; cbn [CompOpp];
      split; split; intros H; try discriminate H; try reflexivity;
      try (injection H; intros; exfalso; lia); try (exfalso; lia); try lia;
      try (subst; reflexivity).
  - change (PosDef.Pos.compare_cont Eq ma mb) with (Pos.compare ma mb).
    destruct (Z.compare_spec ea eb) as [He|He|He];
      [destruct (Pos.compare_spec ma mb) as [Hm|Hm|Hm]| |];
      split; split; intros H; try discriminate H; try reflexivity;
      try (injection H; intros; exfalso; lia); try (exfalso; lia); try lia;
      try (subst; reflexivity).
Qed.

Lemma gtb_operands (a b : Binary64.number) :
  Binary64.gtb a b = true -> Binary64.isNaN a = false /\ Binary64.isNaN b = false.
Proof.
  unfold Binary64.gtb, SFltb. destruct a, b; simpl; intros H; try discriminate H;
    split; reflexivity.
Qed.

Lemma eqb_operands (a b : Binary64.number) :
  Binary64.eqb a b = true -> Binary64.isNaN a = false /\ Binary64.isNaN b = false.
Proof.
  unfold Binary64.eqb, SFeqb. destruct a, b; simpl; intros H; try discriminate H;
    split; reflexivity.
Qed.

Lemma gtb_rank (a b : Binary64.number) :
  Binary64.isNaN a = false -> Binary64.isNaN b = false ->
  Binary64.gtb a b = true <-> Binary64.rank_lt (Binary64.rank b) (Binary64.rank a).
Proof.
  intros Ha Hb. destruct (SFcompare_rank b a Hb Ha) as [H _]. rewrite <- H.
  unfold Binary64.gtb, SFltb. destruct (SFcompare b a) as [[| |]|]; split; congruence.
Qed.

Lemma eqb_rank (a b : Binary64.number) :
  Binary64.isNaN a = false -> Binary64.isNaN b = false ->
  Binary64.eqb a b = true <-> Binary64.rank a = Binary64.rank b.
Proof.
  intros Ha Hb. destruct (SFcompare_rank a b Ha Hb) as [_ H]. rewrite <- H.
  unfold Binary64.eqb, SFeqb. destruct (SFcompare a b) as [[| |]|]; split; congruence.
Qed.

Lemma gtb_false_rank (a b : Binary64.number) :
  Binary64.isNaN a = false -> Binary64.isNaN b = false ->
  Binary64.gtb a b = false -> ~ Binary64.rank_lt (Binary64.rank b) (Binary64.rank a).
Proof.
  intros Ha Hb H Hlt. apply (gtb_rank a b Ha Hb) in Hlt. congruence.
Qed.

Ltac ranks :=
  unfold Binary64.rank_lt in *;
  repeat match goal with
         | |- context [Binary64.rank ?a] =>
             let p := fresh "p" in let q := fresh "q" in let r := fresh "r" in
             destruct (Binary64.rank a) as [[p q] r]
         | H : context [Binary64.rank ?a] |- _ =>
             let p := fresh "p" in let q := fresh "q" in let r := fresh "r" in
             destruct (Binary64.rank a) as [[p q] r]
         end;
  cbn [fst snd] in *.

Lemma gtb_irrefl (a : Binary64.number) : Binary64.gtb a a = false.
Proof.
  destruct (Binary64.gtb a a) eqn:E; [|reflexivity].
  destruct (gtb_operands a a E) as [Ha _].
  apply (gtb_rank a a Ha Ha) in E. ranks. lia.
Qed.

Lemma gtb_trans (a b c : Binary64.number) :
  Binary64.gtb a b = true -> Binary64.gtb b c = true -> Binary64.gtb a c = true.
Proof.
  intros Hab Hbc.
  destruct (gtb_operands a b Hab) as [Ha Hb]. destruct (gtb_operands b c Hbc) as [_ Hc].
  apply (gtb_rank a b Ha Hb) in Hab. apply (gtb_rank b c Hb Hc) in Hbc.
  apply (gtb_rank a c Ha Hc). ranks. lia.
Qed.

(** What is not above [t] is below whatever is above [t]. *)
Lemma gtb_below (s t c : Binary64.number) :
  Binary64.isNaN s = false ->
  Binary64.gtb s t = false -> Binary64.gtb c t = true -> Binary64.gtb c s = true.
Proof.
  intros Hs Hst Hct. destruct (gtb_operands c t Hct) as [Hc Ht].
  apply (gtb_false_rank s t Hs Ht) in Hst. apply (gtb_rank c t Hc Ht) in Hct.
  apply (gtb_rank c s Hc Hs). ranks. lia.
Qed.

Lemma gtb_not_above (s t c : Binary64.number) :
  Binary64.gtb s t = false -> Binary64.gtb c t = true -> Binary64.gtb s c = false.
Proof.
  intros Hst Hct. destruct (Binary64.gtb s c) eqn:E; [|reflexivity].
  rewrite (gtb_trans s c t E Hct) in Hst. discriminate.
Qed.

Lemma eqb_not_gtb (a t : Binary64.number) :
  Binary64.eqb a t = true -> Binary64.gtb a t = false.
Proof.
  intros H. destruct (eqb_operands a t H) as [Ha Ht].
  apply (eqb_rank a t Ha Ht) in H.
  destruct (Binary64.gtb a t) eqn:E; [|reflexivity].
  apply (gtb_rank a t Ha Ht) in E. rewrite H in E. ranks. lia.
Qed.

Lemma eqb_gtb (a v t : Binary64.number) :
  Binary64.eqb a v = true -> Binary64.gtb v t = true -> Binary64.gtb a t = true.
Proof.
  intros H Hvt. destruct (eqb_operands a v H) as [Ha Hv].
  destruct (gtb_operands v t Hvt) as [_ Ht].
  apply (eqb_rank a v Ha Hv) in H. apply (gtb_rank v t Hv Ht) in Hvt.
  apply (gtb_rank a t Ha Ht). rewrite H. exact Hvt.
Qed.

(** Two numbers of which none is above the other compare equal. *)
Lemma gtb_neither_eqb (a b v : Binary64.number) :
  Binary64.isNaN a = false -> Binary64.isNaN b = false ->
  Binary64.gtb a b = false -> Binary64.gtb b a = false ->
  Binary64.eqb a v = true -> Binary64.eqb b v = true.
Proof.
  intros Ha Hb Hab Hba Hav. destruct (eqb_operands a v Hav) as [_ Hv].
  apply (gtb_false_rank a b Ha Hb) in Hab. apply (gtb_false_rank b a Hb Ha) in Hba.
  apply (eqb_rank a v Ha Hv) in Hav. apply (eqb_rank b v Hb Hv). rewrite <- Hav.
  ranks. f_equal; [f_equal|]; lia.
Qed.

Lemma calculateIoU64_not_NaN (boxA boxB : Binary64.BoundingBox) :
  Binary64.isNaN (Binary64.calculateIoU boxA boxB) = false.
Proof.
  unfold Binary64.calculateIoU. cbv zeta.
  destruct (Binary64.leb _ Binary64.zero || Binary64.leb _ Binary64.zero); [reflexivity|].
  destruct (Binary64.isNaN (Binary64.div _ _)) eqn:E; [reflexivity|exact E].
Qed.

(** ** The matching loop on binary64 *)

Section BestMatch64.

Variable tb : Binary64.BoundingBox.
Variable dets : list Binary64.BoundingBox.
Variable used : JsSet.t.

Local Abbreviation sc := (Binary64.calculateIoU tb).

Lemma considerDetection64_inv (i0 : Z) (st : Z * Binary64.number) (d : Binary64.BoundingBox) :
  0 <= i0 ->
  arr_get dets i0 = Some d ->
  Binary64.bestInv tb dets used i0 st ->
  Binary64.bestInv tb dets used (i0 + 1) (Binary64.considerDetection tb used st d i0).
Proof.
  intros Hi0 Hd Hinv. destruct st as [bi bs].
  unfold Binary64.considerDetection.
  destruct (JsSet.has used i0) eqn:Hused.
  { destruct Hinv as [(Hb & Hs & Hall)|(db & Hr & Hu & Hs & Hthr & Hmax & Hfirst)].
    - left. split; [exact Hb|]. split; [exact Hs|].
      intros j d' Hj [Hg Hh]. apply (Hall j d'); [|split; assumption].
      assert (j <> i0) by (intro; subst; congruence). lia.
    - right. exists db. split; [simpl fst in *; lia|]. split; [exact Hu|].
      split; [exact Hs|]. split; [exact Hthr|]. split; [|exact Hfirst].
      intros j d' Hj [Hg Hh]. apply (Hmax j d'); [|split; assumption].
      assert (j <> i0) by (intro; subst; congruence). lia. }
  cbv zeta.
  assert (Hhere : forall j d', j < i0 + 1 -> Binary64.unusedAt used dets j d' ->
            j < i0 \/ (j = i0 /\ d' = d)).
  { intros j d' Hj [Hg _]. destruct (Z.eq_dec j i0) as [->|Hne]; [|left; lia].
    right. split; [reflexivity|]. congruence. }
  destruct Hinv as [(Hb & Hs & Hall)|(db & Hr & Hu & Hs & Hthr & Hmax & Hfirst)];
    simpl fst in *; simpl snd in *; subst bs.
  - (* nothing selected so far *)
    destruct (Binary64.gtb (sc d) Binary64.zero && Binary64.gtb (sc d) Binary64.IOU_THRESHOLD)
      eqn:Htest.
    + apply andb_true_iff in Htest. destruct Htest as [_ Ht].
      right. exists d. simpl fst. simpl snd.
      split; [lia|]. split; [split; assumption|]. split; [reflexivity|].
      split; [exact Ht|]. split.
      * intros j d' Hj Hu. destruct (Hhere j d' Hj Hu) as [Hlt|[-> ->]].
        -- apply (gtb_not_above _ Binary64.IOU_THRESHOLD); [apply (Hall j d' Hlt Hu)|exact Ht].
        -- apply gtb_irrefl.
      * intros j d' Hj Hu.
        apply (gtb_below _ Binary64.IOU_THRESHOLD);
          [apply calculateIoU64_not_NaN|apply (Hall j d' Hj Hu)|exact Ht].
    + left. simpl fst. simpl snd. split; [exact Hb|]. split; [reflexivity|].
      intros j d' Hj Hu. destruct (Hhere j d' Hj Hu) as [Hlt|[-> ->]].
      * apply (Hall j d' Hlt Hu).
      * destruct (Binary64.gtb (sc d) Binary64.IOU_THRESHOLD) eqn:Ht; [|reflexivity].
        rewrite (gtb_trans (sc d) Binary64.IOU_THRESHOLD Binary64.zero Ht eq_refl) in Htest.
        discriminate.
  - (* a candidate is selected already *)
    destruct (Binary64.gtb (sc d) (sc db) && Binary64.gtb (sc d) Binary64.IOU_THRESHOLD)
      eqn:Htest.
    + apply andb_true_iff in Htest. destruct Htest as [Hgt Ht].
      right. exists d. simpl fst. simpl snd.
      split; [lia|]. split; [split; assumption|]. split; [reflexivity|].
      split; [exact Ht|]. split.
      * intros j d' Hj Hu'. destruct (Hhere j d' Hj Hu') as [Hlt|[-> ->]].
        -- apply (gtb_not_above _ (sc db)); [apply (Hmax j d' Hlt Hu')|exact Hgt].
        -- apply gtb_irrefl.
      * intros j d' Hj Hu'.
        apply (gtb_below _ (sc db));
          [apply calculateIoU64_not_NaN|apply (Hmax j d' Hj Hu')|exact Hgt].
    + right. exists db. simpl fst. simpl snd.
      split; [lia|]. split; [exact Hu|]. split; [reflexivity|].
      split; [exact Hthr|]. split; [|exact Hfirst].
      intros j d' Hj Hu'. destruct (Hhere j d' Hj Hu') as [Hlt|[-> ->]].
      * apply (Hmax j d' Hlt Hu').
      * destruct (Binary64.gtb (sc d) (sc db)) eqn:Hgt; [|reflexivity].
        rewrite (gtb_trans (sc d) (sc db) Binary64.IOU_THRESHOLD Hgt Hthr) in Htest.
        discriminate.
Qed.

Lemma forEach_considerDetection64_inv (suf pre : list Binary64.BoundingBox)
  (st : Z * Binary64.number) :
  dets = pre ++ suf ->
  Binary64.bestInv tb dets used (Z.of_nat (length pre)) st ->
  Binary64.bestInv tb dets used (Z.of_nat (length dets))
    (forEach_from (Binary64.considerDetection tb used) suf (Z.of_nat (length pre)) st).
Proof.
  revert pre st. induction suf as [|d rest IH]; intros pre st Hsplit Hinv.
  - simpl. rewrite app_nil_r in Hsplit. rewrite Hsplit at 2. exact Hinv.
  - simpl.
    replace (Z.of_nat (length pre) + 1) with (Z.of_nat (length (pre ++ [d])))
      by (rewrite length_app; simpl; lia).
    apply IH.
    + rewrite <- app_assoc. exact Hsplit.
    + rewrite length_app. simpl length.
      replace (Z.of_nat (length pre + 1)) with (Z.of_nat (length pre) + 1) by lia.
      apply considerDetection64_inv; [lia| |exact Hinv].
      rewrite Hsplit. apply arr_get_app_here.
Qed.

(** The loop leaves [-1] when no unconsumed detection is above the
    threshold, and the first best unconsumed detection otherwise. *)
Lemma findBestMatch64_spec :
  (fst (Binary64.findBestMatch tb dets used) = -1
   /\ forall j d, Binary64.unusedAt used dets j d ->
        Binary64.gtb (sc d) Binary64.IOU_THRESHOLD = false)
  \/ (0 <= fst (Binary64.findBestMatch tb dets used)
      /\ Binary64.bestUnused tb dets used (fst (Binary64.findBestMatch tb dets used))).
Proof.
  assert (Hinv : Binary64.bestInv tb dets used (Z.of_nat (length dets))
                   (Binary64.findBestMatch tb dets used)).
  { unfold Binary64.findBestMatch, forEach.
    apply (forEach_considerDetection64_inv dets [] (-1, Binary64.zero)); [reflexivity|].
    left. simpl fst. simpl snd. split; [reflexivity|]. split; [reflexivity|].
    intros j d Hj [Hg _]. apply arr_get_range in Hg. simpl in Hj. lia. }
  destruct Hinv as [(Hb & _ & Hall)|(d & Hr & Hu & Hs & Hthr & Hmax & Hfirst)].
  - left. split; [exact Hb|]. intros j d Hu. apply (Hall j d); [|exact Hu].
    destruct Hu as [Hg _]. apply arr_get_range in Hg. lia.
  - right. split; [lia|]. exists d. split; [exact Hu|]. split; [exact Hthr|].
    split; [|exact Hfirst].
    intros j d' Hu'. apply (Hmax j d'); [|exact Hu'].
    destruct Hu' as [Hg _]. apply arr_get_range in Hg. lia.
Qed.

Lemma bestUnused64_unique (i i' : Z) :
  Binary64.bestUnused tb dets used i -> Binary64.bestUnused tb dets used i' -> i = i'.
Proof.
  intros (d & Hu & _ & Hmax & Hfirst) (d' & Hu' & _ & Hmax' & Hfirst').
  destruct (Z.lt_trichotomy i i') as [Hlt|[Heq|Hgt]]; [|exact Heq|].
  - specialize (Hfirst' i d Hlt Hu). specialize (Hmax i' d' Hu'). congruence.
  - specialize (Hfirst i' d' Hgt Hu'). specialize (Hmax' i d Hu). congruence.
Qed.

Lemma findBestMatch64_iff (i : Z) :
  Binary64.bestUnused tb dets used i <->
    fst (Binary64.findBestMatch tb dets used) = i /\ i <> -1.
Proof.
  split.
  - intros Hb. destruct findBestMatch64_spec as [[_ Hnone]|[Hge Hbest]].
    + destruct Hb as (d & Hu & Hthr & _). rewrite (Hnone i d Hu) in Hthr. discriminate.
    + pose proof (bestUnused64_unique _ _ Hb Hbest) as ->. split; [reflexivity|lia].
  - intros [Hf Hne]. destruct findBestMatch64_spec as [[Hm _]|[_ Hbest]].
    + congruence.
    + rewrite Hf in Hbest. exact Hbest.
Qed.

End BestMatch64.

Section Matching64.

Variable dets : list Binary64.BoundingBox.

Lemma matchTracks64_app (l1 l2 : list (Z * Binary64.BoundingBox)) (p : list MatchedPair)
  (u : JsSet.t) :
  Binary64.matchTracks (l1 ++ l2) dets p u =
  Binary64.matchTracks l2 dets (fst (Binary64.matchTracks l1 dets p u))
    (snd (Binary64.matchTracks l1 dets p u)).
Proof.
  revert p u. induction l1 as [|[tid tb] rest IH]; intros p u; simpl.
  - reflexivity.
  - destruct (fst (Binary64.findBestMatch tb dets u) =? -1); apply IH.
Qed.

(** What the loop adds to [matchedPairs] and to [usedDetectionIndices]. *)
Lemma matchTracks64_inv (l : list (Z * Binary64.BoundingBox)) (p : list MatchedPair)
  (u : JsSet.t) :
  exists extra,
    fst (Binary64.matchTracks l dets p u) = p ++ extra
    /\ (forall q, In q extra ->
          In (trackId q) (map fst l) /\ JsSet.has u (detectionIndex q) = false)
    /\ (forall i, JsSet.has (snd (Binary64.matchTracks l dets p u)) i = true <->
          JsSet.has u i = true \/ In i (map detectionIndex extra)).
Proof.
  revert p u. induction l as [|[tid tb] rest IH]; intros p u.
  - exists []. simpl. rewrite app_nil_r.
    split; [reflexivity|]. split; [intros q []|]. tauto.
  - simpl Binary64.matchTracks.
    destruct (findBestMatch64_spec tb dets u) as [[Hnone _]|[Hge Hbest]].
    + rewrite Hnone. simpl Z.eqb. cbv iota.
      destruct (IH p u) as (extra & Hfst & Hq & Hused).
      exists extra. split; [exact Hfst|]. split; [|exact Hused].
      intros q Hin. destruct (Hq q Hin) as (H1 & H2).
      split; [right; exact H1|exact H2].
    + set (bi := fst (Binary64.findBestMatch tb dets u)) in *.
      assert (Hne : (bi =? -1) = false) by (apply Z.eqb_neq; lia).
      rewrite Hne.
      destruct Hbest as (d & [Hget Hunused] & _).
      destruct (IH (p ++ [mkPair tid bi]) (JsSet.add u bi)) as (extra & Hfst & Hq & Hused).
      exists (mkPair tid bi :: extra).
      split; [rewrite Hfst, <- app_assoc; reflexivity|].
      split.
      { intros q [<-|Hin].
        - simpl. split; [left; reflexivity|exact Hunused].
        - destruct (Hq q Hin) as (H1 & H2).
          split; [right; exact H1|].
          rewrite JsSet_has_add in H2. apply orb_false_iff in H2. apply H2. }
      intros i. rewrite Hused, JsSet_has_add, orb_true_iff, Z.eqb_eq. simpl.
      intuition.
Qed.

(** A track is paired with an index exactly when that index is its first
    best detection among those its predecessors left. *)
Lemma matchTracks64_pair_iff (pre post : list (Z * Binary64.BoundingBox)) (tid : Z)
  (tb : Binary64.BoundingBox) (i : Z) :
  NoDup (map fst (pre ++ (tid, tb) :: post)) ->
  In (mkPair tid i)
     (fst (Binary64.matchTracks (pre ++ (tid, tb) :: post) dets [] JsSet.empty))
  <-> Binary64.bestUnused tb dets (Binary64.consumedBefore pre dets) i.
Proof.
  intros Hnd. rewrite matchTracks64_app. unfold Binary64.consumedBefore.
  destruct (matchTracks64_inv pre [] JsSet.empty) as (e0 & Hf0 & Hq0 & _).
  set (p0 := fst (Binary64.matchTracks pre dets [] JsSet.empty)) in *.
  set (u0 := snd (Binary64.matchTracks pre dets [] JsSet.empty)) in *.
  simpl in Hf0.
  rewrite map_app in Hnd. simpl in Hnd.
  apply NoDup_remove_2 in Hnd.
  assert (Hpre : ~ In tid (map fst pre)) by (intro; apply Hnd, in_or_app; auto).
  assert (Hpost : ~ In tid (map fst post)) by (intro; apply Hnd, in_or_app; auto).
  assert (Hp0 : ~ In (mkPair tid i) p0).
  { rewrite Hf0. intros Hin. apply Hpre. apply (Hq0 _ Hin). }
  rewrite findBestMatch64_iff.
  simpl Binary64.matchTracks.
  destruct (fst (Binary64.findBestMatch tb dets u0) =? -1) eqn:E.
  - apply Z.eqb_eq in E.
    destruct (matchTracks64_inv post p0 u0) as (e1 & -> & Hq1 & _).
    split.
    + intros Hin. apply in_app_or in Hin. destruct Hin as [Hin|Hin]; [contradiction|].
      exfalso. apply Hpost. apply (Hq1 _ Hin).
    + intros [H1 H2]. congruence.
  - apply Z.eqb_neq in E.
    destruct (matchTracks64_inv post
                (p0 ++ [mkPair tid (fst (Binary64.findBestMatch tb dets u0))])
                (JsSet.add u0 (fst (Binary64.findBestMatch tb dets u0))))
      as (e1 & -> & Hq1 & _).
    split.
    + intros Hin. apply in_app_or in Hin. destruct Hin as [Hin|Hin].
      * apply in_app_or in Hin. destruct Hin as [Hin|[Heq|[]]]; [contradiction|].
        injection Heq as Heq. subst i. split; [reflexivity|exact E].
      * exfalso. apply Hpost. apply (Hq1 _ Hin).
    + intros [H1 H2]. apply in_or_app. left. apply in_or_app. right.
      left. rewrite H1. reflexivity.
Qed.

Lemma consumedBefore64_iff (pre post : list (Z * Binary64.BoundingBox)) (j : Z) :
  NoDup (map fst (pre ++ post)) ->
  JsSet.has (Binary64.consumedBefore pre dets) j = true <->
  exists tid, In tid (map fst pre)
    /\ In (mkPair tid j) (fst (Binary64.matchTracks (pre ++ post) dets [] JsSet.empty)).
Proof.
  intros Hnd. rewrite matchTracks64_app. unfold Binary64.consumedBefore.
  destruct (matchTracks64_inv pre [] JsSet.empty) as (e0 & Hf0 & Hq0 & Hu0).
  destruct (matchTracks64_inv post (fst (Binary64.matchTracks pre dets [] JsSet.empty))
              (snd (Binary64.matchTracks pre dets [] JsSet.empty))) as (e1 & Hf1 & Hq1 & _).
  rewrite Hf1, Hu0. simpl in Hf0. rewrite Hf0.
  rewrite map_app in Hnd.
  split.
  - intros [H|H]; [discriminate|]. apply in_map_iff in H. destruct H as (q & <- & Hq).
    exists (trackId q). split; [apply (Hq0 q Hq)|].
    apply in_or_app. left. destruct q. exact Hq.
  - intros (tid & Hpre & Hin). right. apply in_app_or in Hin. destruct Hin as [Hin|Hin].
    + apply (in_map detectionIndex) in Hin. exact Hin.
    + exfalso. destruct (Hq1 _ Hin) as (Hpost & _). simpl in Hpost.
      revert Hpre Hpost. clear - Hnd. revert Hnd.
      induction (map fst pre) as [|a l IH]; intros Hnd Hpre Hpost; [destruct Hpre|].
      simpl in Hnd. inversion Hnd as [|? ? Hn Hnd']. subst.
      destruct Hpre as [->|Hpre].
      * apply Hn. apply in_or_app. right. exact Hpost.
      * apply IH; assumption.
Qed.

End Matching64.

(** * Main results *)

(** C1. In one reconcile cycle, each track is paired with the detection
    that scores highest against its last region among the detections its
    predecessors left unconsumed (the first such detection when several
    score the same), and only when that score is strictly above 0.4, the
    scores being the binary64 numbers the code computes and 0.4 the
    binary64 literal: a pair whose score equals 0.4 is never recorded,
    and when an unconsumed detection scores 0.40001 and no unconsumed
    detection scores higher, the track is paired with a detection of that
    score (with that very detection when every earlier unconsumed one
    scores lower). *)
Theorem match_threshold_and_best
  (entries : list (Z * Binary64.BoundingBox)) (newDetections : list Binary64.BoundingBox)
  (pre post : list (Z * Binary64.BoundingBox)) (tid : Z) (trackBox : Binary64.BoundingBox) :
  NoDup (map fst entries) ->
  entries = pre ++ (tid, trackBox) :: post ->
  let matched := fst (Binary64.matchTracks entries newDetections [] JsSet.empty) in
  let consumed := Binary64.consumedBefore pre newDetections in
  let score := Binary64.calculateIoU trackBox in
  (forall j, JsSet.has consumed j = true <->
             exists tid', In tid' (map fst pre) /\ In (mkPair tid' j) matched)
  /\ (forall i, In (mkPair tid i) matched
                <-> Binary64.bestUnused trackBox newDetections consumed i)
  /\ (forall i d, arr_get newDetections i = Some d ->
        Binary64.eqb (score d) Binary64.IOU_THRESHOLD = true ->
        ~ In (mkPair tid i) matched)
  /\ (forall i d, Binary64.unusedAt consumed newDetections i d ->
        Binary64.eqb (score d) Binary64.n_0_40001 = true ->
        (forall j d', Binary64.unusedAt consumed newDetections j d' ->
           Binary64.gtb (score d') (score d) = false) ->
        exists i' d',
          In (mkPair tid i') matched
          /\ arr_get newDetections i' = Some d'
          /\ Binary64.eqb (score d') Binary64.n_0_40001 = true
          /\ i' <= i
          /\ ((forall j d'', j < i -> Binary64.unusedAt consumed newDetections j d'' ->
                 Binary64.gtb (score d) (score d'') = true) -> i' = i)).
Proof.
  intros Hnd -> matched consumed score. subst score.
  assert (Hiff : forall i, In (mkPair tid i) matched
                           <-> Binary64.bestUnused trackBox newDetections consumed i).
  { intros i. apply matchTracks64_pair_iff. exact Hnd. }
  split.
  { intros j. apply consumedBefore64_iff. exact Hnd. }
  split; [exact Hiff|]. split.
  - intros i d Hd Heq Hin. apply Hiff in Hin.
    destruct Hin as (d0 & [Hd0 _] & Hthr & _).
    rewrite Hd in Hd0. injection Hd0 as <-.
    apply eqb_not_gtb in Heq. congruence.
  - intros i d Hu Heq Hmax.
    destruct (findBestMatch64_spec trackBox newDetections consumed)
      as [[_ Hnone]|[_ Hbest]].
    + specialize (Hnone i d Hu).
      rewrite (eqb_gtb _ Binary64.n_0_40001 Binary64.IOU_THRESHOLD Heq eq_refl) in Hnone.
      discriminate.
    + set (bi := fst (Binary64.findBestMatch trackBox newDetections consumed)) in *.
      pose proof Hbest as (db & Hub & Hthr & Hmaxb & Hfirstb).
      pose proof (Hmaxb i d Hu) as H1. pose proof (Hmax bi db Hub) as H2.
      exists bi, db. split; [apply Hiff; exact Hbest|].
      split; [apply Hub|]. split.
      { apply (gtb_neither_eqb (Binary64.calculateIoU trackBox d));
          [apply calculateIoU64_not_NaN|apply calculateIoU64_not_NaN|exact H1|exact H2
          |exact Heq]. }
      split.
      * destruct (Z_le_gt_dec bi i) as [Hle|Hgt]; [exact Hle|].
        assert (Hlt : i < bi) by lia.
        specialize (Hfirstb i d Hlt Hu). congruence.
      * intros Hfirst.
        destruct (Z.lt_trichotomy bi i) as [Hlt|[Heq'|Hgt]]; [|exact Heq'|].
        -- specialize (Hfirst bi db Hlt Hub). congruence.
        -- specialize (Hfirstb i d Hgt Hu). congruence.
Qed.

Lemma match_threshold_and_best_witness :
  Binary64.eqb
    (Binary64.calculateIoU (Binary64.strip Binary64.n_2) (Binary64.strip Binary64.n_5))
    Binary64.IOU_THRESHOLD = true
  /\ ~ In (mkPair 1 0)
          (fst (Binary64.matchTracks [(1, Binary64.strip Binary64.n_2)]
                  [Binary64.strip Binary64.n_5] [] JsSet.empty))
  /\ exists i' d',
       In (mkPair 1 i')
          (fst (Binary64.matchTracks [(1, Binary64.strip Binary64.n_40001)]
                  [Binary64.strip Binary64.n_100000] [] JsSet.empty))
       /\ arr_get [Binary64.strip Binary64.n_100000] i' = Some d'
       /\ Binary64.eqb (Binary64.calculateIoU (Binary64.strip Binary64.n_40001) d')
            Binary64.n_0_40001 = true.
Proof.
  assert (Hnd : forall b : Binary64.BoundingBox, NoDup (map fst [(1, b)])).
  { intros b. repeat constructor. intros []. }
  split; [vm_compute; reflexivity|]. split.
  - destruct (match_threshold_and_best [(1, Binary64.strip Binary64.n_2)]
                [Binary64.strip Binary64.n_5] [] [] 1 (Binary64.strip Binary64.n_2)
                (Hnd _) eq_refl) as (_ & _ & H & _).
    apply (H 0 (Binary64.strip Binary64.n_5)); [reflexivity|vm_compute; reflexivity].
  - destruct (match_threshold_and_best [(1, Binary64.strip Binary64.n_40001)]
                [Binary64.strip Binary64.n_100000] [] [] 1 (Binary64.strip Binary64.n_40001)
                (Hnd _) eq_refl) as (_ & _ & _ & H).
    destruct (H 0 (Binary64.strip Binary64.n_100000)) as (i' & d' & H1 & H2 & H3 & _).
    + split; reflexivity.
    + vm_compute. reflexivity.
    + intros j d' [Hg _]. rewrite arr_get_cons in Hg.
      destruct (j =? 0).
      * injection Hg as <-. apply gtb_irrefl.
      * unfold arr_get in Hg. destruct (j - 1 <? 0); [discriminate|].
        destruct (Z.to_nat (j - 1)); discriminate.
    + exists i', d'. split; [exact H1|]. split; [exact H2|exact H3].
Defined.

(** Rounding decides at the boundary: the regions
    [{0, 0, 1.4774086475372314, 0.7258526014465152}] and
    [{0.6331751346588135, 0, 1.4774086475372314, 0.7258526014465152}]
    have the quotient 2/5 in exact arithmetic, the code computes
    [0.4000000000000001] for them, which is above its threshold, and
    pairs them. *)
Example rounding_decides_at_the_boundary :
  Binary64.calculateIoU Binary64.roundedTrack Binary64.roundedDetection
  = S754_finite false 7205759403792795 (-54)
  /\ Binary64.gtb (Binary64.calculateIoU Binary64.roundedTrack Binary64.roundedDetection)
       Binary64.IOU_THRESHOLD = true
  /\ fst (Binary64.matchTracks [(1, Binary64.roundedTrack)] [Binary64.roundedDetection]
            [] JsSet.empty)
     = [mkPair 1 0].
Proof. vm_compute. repeat split. Qed.

(** A score may exceed 1: the region [{0.1, 0.2, 0.3, 0.7}] scores
    [1.0000000000000002] against itself. *)
Example self_score_above_one :
  Binary64.calculateIoU Binary64.roundedSelf Binary64.roundedSelf
  = S754_finite false 4503599627370497 (-52)
  /\ Binary64.gtb (Binary64.calculateIoU Binary64.roundedSelf Binary64.roundedSelf)
       Binary64.n_1 = true.
Proof. vm_compute. split; reflexivity. Qed.

Lemma reachable_run (events : list Event) : reachable (run (initialState [] []) events).
Proof. exists [], [], events. reflexivity. Qed.

Lemma NoDup_map_inj {A B : Type} (f : A -> B) (l : list A) (a b : A) :
  NoDup (map f l) -> In a l -> In b l -> f a = f b -> a = b.
Proof.
  induction l as [|c rest IH]; intros Hnd Ha Hb Hf; [destruct Ha|].
  simpl in Hnd. inversion Hnd as [|? ? Hn Hnd']. subst.
  destruct Ha as [->|Ha], Hb as [->|Hb].
  - reflexivity.
  - exfalso. apply Hn. rewrite Hf. apply in_map. exact Hb.
  - exfalso. apply Hn. rewrite <- Hf. apply in_map. exact Ha.
  - apply IH; assumption.
Qed.

(** C2 (as stated, refuted). After one person is seen and then a second
    one further away, the table lists track 2 before track 1; a detection
    that both tracks score above the threshold goes to track 2, the
    younger one. *)
Lemma newer_track_served_first :
  reachable twoTracks
  /\ JsMap.keys (trackedFaces twoTracks) = [2; 1]
  /\ (exists td1 td2,
        JsMap.get (trackedFaces twoTracks) 1 = Some td1
        /\ JsMap.get (trackedFaces twoTracks) 2 = Some td2
        /\ js_gtb (score td1 faceBetween) IOU_THRESHOLD = true
        /\ js_gtb (score td2 faceBetween) IOU_THRESHOLD = true)
  /\ r_matchedPairs
       (reconcile (trackedFaces twoTracks) (nextFaceId twoTracks) [faceBetween] 3000)
     = [mkPair 2 0].
Proof.
  split; [apply reachable_run|]. split; [reflexivity|]. split.
  - eexists. eexists. split; [reflexivity|]. split; [reflexivity|].
    split; reflexivity.
  - reflexivity.
Qed.

(** C2 (amended). Tracks are considered in the insertion order of the
    Track Table: of two tracks of the table, the one that stands earlier
    is processed first, and when a detection is its best unconsumed
    candidate it consumes it, so that the detection is consumed by the
    time the later track is processed and is never paired with the later
    track, however the later track scores it.  After the cycle the table
    lists the matched tracks in their previous order, then the tracks
    created in the cycle, then the unmatched survivors in their previous
    order. *)
Theorem table_order_decides_first_pick
  (s : AppState) (newDetections : list FaceResult) (currentTime : Z)
  (pre mid post : list (Z * TrackData)) (t1 t2 : Z) (td1 td2 : TrackData) (i : Z) :
  reachable s ->
  JsMap.entries (trackedFaces s) = pre ++ (t1, td1) :: mid ++ (t2, td2) :: post ->
  let r := reconcile (trackedFaces s) (nextFaceId s) newDetections currentTime in
  (bestUnused td1 newDetections (consumedBefore pre newDetections) i ->
     In (mkPair t1 i) (r_matchedPairs r)
     /\ JsSet.has (consumedBefore (pre ++ (t1, td1) :: mid) newDetections) i = true
     /\ ~ In (mkPair t2 i) (r_matchedPairs r))
  /\ JsMap.keys (r_trackedFaces r)
     = map trackId (r_matchedPairs r)
       ++ createdIds (r_used r) (r_detections r) 0
       ++ map fst (filter (fun e => isFresh currentTime (snd e)
                                    && negb (existsb (Z.eqb (fst e))
                                               (map trackId (r_matchedPairs r))))
                     (JsMap.entries (trackedFaces s))).
Proof.
  intros Hreach Hent r.
  pose proof (reachable_inv s Hreach) as Hinv.
  split; [|apply reconcile_keys; exact Hinv].
  intros Hbest.
  destruct Hinv as (Hwf & _).
  assert (Hnd : NoDup (map fst (pre ++ (t1, td1) :: mid ++ (t2, td2) :: post))).
  { rewrite <- Hent. exact Hwf. }
  assert (H1 : In (mkPair t1 i) (r_matchedPairs r)).
  { unfold r. rewrite reconcile_matchedPairs, Hent.
    apply matchTracks_pair_iff; assumption. }
  assert (Hne : t1 <> t2).
  { intros ->. rewrite map_app in Hnd. simpl in Hnd.
    apply NoDup_remove_2 in Hnd. apply Hnd. apply in_or_app. right.
    rewrite map_app. apply in_or_app. right. left. reflexivity. }
  split; [exact H1|]. split.
  - apply (consumedBefore_iff newDetections (pre ++ (t1, td1) :: mid) ((t2, td2) :: post)).
    + rewrite <- app_assoc. exact Hnd.
    + exists t1. split.
      * rewrite map_app. apply in_or_app. right. left. reflexivity.
      * rewrite <- app_assoc. simpl app. rewrite <- Hent.
        unfold r in H1. rewrite reconcile_matchedPairs in H1. exact H1.
  - intros H2.
    destruct (matchTracks_table (trackedFaces s) newDetections) as (_ & Hni & _).
    unfold r in H1, H2. rewrite reconcile_matchedPairs in H1, H2.
    pose proof (NoDup_map_inj detectionIndex _ _ _ Hni H1 H2 eq_refl) as E.
    injection E as E. contradiction.
Qed.

Lemma table_order_decides_first_pick_witness :
  reachable twoTracks
  /\ In (mkPair 2 0)
        (r_matchedPairs
           (reconcile (trackedFaces twoTracks) (nextFaceId twoTracks) [faceBetween] 3000))
  /\ ~ In (mkPair 1 0)
         (r_matchedPairs
            (reconcile (trackedFaces twoTracks) (nextFaceId twoTracks) [faceBetween] 3000)).
Proof.
  split; [apply reachable_run|].
  destruct (table_order_decides_first_pick twoTracks [faceBetween] 3000
              [] [] [] 2 1
              (mkTrack (box 3 3 10 10) 2000 "b") (mkTrack (box 0 0 10 10) 1000 "a") 0
              (reachable_run _) eq_refl) as [H _].
  destruct H as (H1 & _ & H2); [|split; assumption].
  exists faceBetween. split; [split; reflexivity|]. split; [reflexivity|].
  split.
  - intros j d' [Hg _]. rewrite arr_get_cons in Hg. destruct (j =? 0).
    + injection Hg as <-. reflexivity.
    + unfold arr_get in Hg. destruct (j - 1 <? 0); [discriminate|].
      destruct (Z.to_nat (j - 1)); discriminate.
  - intros j d' Hj [Hg _]. apply arr_get_range in Hg. simpl in Hg. lia.
Defined.

(** C3 (as stated, refuted). With one track created, the counter stands
    at 2 and stopping the camera leaves it there. *)
Lemma stop_leaves_counter :
  reachable oneTrack
  /\ stream oneTrack = true
  /\ nextFaceId (handleStopCamera oneTrack) = 2
  /\ nextFaceId (handleStopCamera oneTrack) <> 1.
Proof.
  split; [apply reachable_run|]. split; [reflexivity|]. split; [reflexivity|].
  discriminate.
Qed.

(** C3 (amended). The stop-capture operation, when a capture session is
    active, synchronously clears the Track Table and cancels the pending
    rate-limit pause; it leaves the next-identifier counter as it is, and
    the counter is reset to its initial value 1 by the next start-capture
    operation. *)
Theorem stop_clears_table_and_pause (s : AppState) :
  stream s = true ->
  let s' := handleStopCamera s in
  trackedFaces s' = JsMap.empty
  /\ isPausedForRateLimit s' = false
  /\ nextFaceId s' = nextFaceId s
  /\ forall o, nextFaceId (handleStartCamera s' o) = 1
               /\ trackedFaces (handleStartCamera s' o) = JsMap.empty
               /\ isPausedForRateLimit (handleStartCamera s' o) = false.
Proof.
  intros Hs. unfold handleStopCamera. rewrite Hs. simpl.
  repeat split; destruct o; reflexivity.
Qed.

Lemma stop_clears_table_and_pause_witness :
  stream oneTrack = true
  /\ trackedFaces (handleStopCamera oneTrack) = JsMap.empty
  /\ nextFaceId (handleStopCamera oneTrack) = nextFaceId oneTrack.
Proof.
  split; [reflexivity|].
  destruct (stop_clears_table_and_pause oneTrack eq_refl) as (H1 & _ & H3 & _).
  split; assumption.
Defined.

(** C4. For a track of the previous table that receives no match in the
    cycle: when [now - lastSeen] exceeds 20000 ms the track is absent from
    the new table and its identifier is not given out again, neither in
    this cycle nor in any later cycle of the session, whose tables never
    hold it; when
    [now - lastSeen] is at most 20000 ms the new table holds the track
    with the same region, [lastSeen] and label. *)
Theorem unmatched_track_expiry
  (s : AppState) (newDetections : list FaceResult) (currentTime : Z)
  (tid : Z) (td : TrackData) :
  reachable s ->
  JsMap.get (trackedFaces s) tid = Some td ->
  let r := reconcile (trackedFaces s) (nextFaceId s) newDetections currentTime in
  (forall i, ~ In (mkPair tid i) (r_matchedPairs r)) ->
  (20000 < currentTime - lastSeen td ->
     JsMap.get (r_trackedFaces r) tid = None
     /\ ~ In tid (createdIds (r_used r) (r_detections r) 0)
     /\ forall cycles,
          ~ In tid (sessionCreatedIds (r_trackedFaces r) (r_nextFaceId r) cycles)
          /\ JsMap.get (fst (sessionState (r_trackedFaces r) (r_nextFaceId r) cycles)) tid
             = None)
  /\ (currentTime - lastSeen td <= 20000 ->
      JsMap.get (r_trackedFaces r) tid = Some td).
Proof.
  intros Hreach Hget r Hnomatch.
  pose proof (reachable_inv s Hreach) as Hinv.
  assert (Hnot : ~ In tid (map trackId
                   (fst (matchTracks (JsMap.entries (trackedFaces s)) newDetections
                           [] JsSet.empty)))).
  { intros Hin. apply in_map_iff in Hin. destruct Hin as ([t i] & Ht & Hq).
    simpl in Ht. subst t. apply (Hnomatch i). unfold r.
    rewrite reconcile_matchedPairs. exact Hq. }
  pose proof (reconcile_get_unmatched _ _ newDetections currentTime Hinv tid td Hget Hnot)
    as Hnew.
  fold r in Hnew.
  assert (Hlt : tid < nextFaceId s).
  { destruct Hinv as (_ & _ & Hkeys). apply JsMap_get_Some_key in Hget.
    apply Hkeys in Hget. lia. }
  split.
  - intros Hold.
    assert (Hgone : JsMap.get (r_trackedFaces r) tid = None).
    { rewrite Hnew. unfold MAX_INACTIVITY_MS.
      destruct (currentTime - lastSeen td <=? 20000) eqn:E; [|reflexivity].
      apply Z.leb_le in E. lia. }
    pose proof (reconcile_next_le (trackedFaces s) (nextFaceId s) newDetections currentTime)
      as Hle.
    fold r in Hle.
    split; [exact Hgone|]. split.
    + intros Hin.
      destruct (createdIds_reconcile (trackedFaces s) (nextFaceId s) newDetections currentTime)
        as [_ Hb].
      rewrite Forall_forall in Hb. specialize (Hb tid Hin). lia.
    + intros cycles. split.
      * intros Hin.
        destruct (sessionCreatedIds_sorted cycles (r_trackedFaces r) (r_nextFaceId r))
          as [_ Hb].
        rewrite Forall_forall in Hb. specialize (Hb tid Hin). lia.
      * apply JsMap_get_None. intros Hin.
        apply sessionState_keys_origin in Hin. destruct Hin as [Hin|Hin]; [|lia].
        apply JsMap_get_None in Hgone. contradiction.
  - intros Hyoung. rewrite Hnew. unfold MAX_INACTIVITY_MS.
    destruct (currentTime - lastSeen td <=? 20000) eqn:E; [reflexivity|].
    apply Z.leb_gt in E. lia.
Qed.

Lemma unmatched_track_expiry_witness :
  reachable oneTrack
  /\ JsMap.get (r_trackedFaces
                  (reconcile (trackedFaces oneTrack) (nextFaceId oneTrack) [] 21001)) 1
     = None
  /\ JsMap.get (r_trackedFaces
                  (reconcile (trackedFaces oneTrack) (nextFaceId oneTrack) [] 20900)) 1
     = Some (mkTrack (box 0 0 10 10) 1000 "Person with glasses").
Proof.
  split; [apply reachable_run|]. split.
  - destruct (unmatched_track_expiry oneTrack [] 21001 1
                (mkTrack (box 0 0 10 10) 1000 "Person with glasses")
                (reachable_run _) eq_refl) as [H _].
    + intros i Hin. exact Hin.
    + apply H. simpl. lia.
  - destruct (unmatched_track_expiry oneTrack [] 20900 1
                (mkTrack (box 0 0 10 10) 1000 "Person with glasses")
                (reachable_run _) eq_refl) as [_ H].
    + intros i Hin. exact Hin.
    + apply H. simpl. lia.
Defined.

(** C5. Within one capture session, the identifiers given to newly
    created tracks are strictly increasing in the order of creation, over
    every sequence of reconcile calls that follows the start of the
    session, so no two tracks created in the session share an identifier;
    and a track that is matched in a cycle stands in the new table under
    the identifier it had, refreshed from its detection, which is stamped
    with that identifier. *)
Theorem identifiers_increase_and_persist
  (s : AppState) (cycles : list (list FaceResult * Z))
  (newDetections : list FaceResult) (currentTime : Z) :
  let s0 := sessionStart s in
  let ids := sessionCreatedIds (trackedFaces s0) (nextFaceId s0)
               (cycles ++ [(newDetections, currentTime)]) in
  let st := sessionState (trackedFaces s0) (nextFaceId s0) cycles in
  let r := reconcile (fst st) (snd st) newDetections currentTime in
  StronglySorted Z.lt ids
  /\ NoDup ids
  /\ forall q, In q (r_matchedPairs r) ->
       In (trackId q) (JsMap.keys (fst st))
       /\ exists d,
            arr_get newDetections (detectionIndex q) = Some d
            /\ JsMap.get (r_trackedFaces r) (trackId q) = Some (trackOf d currentTime)
            /\ arr_get (r_detections r) (detectionIndex q)
               = Some (set_persistentId d (trackId q)).
Proof.
  intros s0 ids st r.
  assert (Hsorted : StronglySorted Z.lt ids) by apply sessionCreatedIds_sorted.
  split; [exact Hsorted|]. split; [apply StronglySorted_lt_NoDup; exact Hsorted|].
  intros q Hq.
  assert (Hinv : trackerInv (fst st) (snd st)).
  { apply sessionState_inv. apply trackerInv_start. }
  unfold r in Hq. rewrite reconcile_matchedPairs in Hq.
  destruct (matchTracks_table (fst st) newDetections) as (Hf & _).
  destruct (Hf q Hq) as [Hk (d & Hd)].
  split; [exact Hk|]. exists d. split; [exact Hd|].
  apply reconcile_get_matched; assumption.
Qed.

Lemma identifiers_increase_and_persist_witness :
  JsMap.get
    (r_trackedFaces
       (reconcile (trackedFaces oneTrack) (nextFaceId oneTrack)
          [face "b" (box 1 1 10 10)] 2000)) 1
  = Some (mkTrack (box 1 1 10 10) 2000 "b").
Proof.
  destruct (identifiers_increase_and_persist (initialState [] [])
              [([sampleFace], 1000)] [face "b" (box 1 1 10 10)] 2000)
    as (_ & _ & H).
  destruct (H (mkPair 1 0)) as (_ & d & Hd & Hg & _).
  - left. reflexivity.
  - injection Hd as <-. exact Hg.
Defined.

(** C7. Within a single reconcile call the recorded pairs form an
    injective partial assignment: no detection index occurs in two pairs
    and no track identifier occurs in two pairs, whatever the previous
    table and the detection list. *)
Theorem matched_pairs_injective
  (trackedFaces : JsMap.t TrackData) (nextFaceId : Z)
  (newDetections : list FaceResult) (currentTime : Z) :
  JsMap.wf trackedFaces ->
  let matched :=
    r_matchedPairs (reconcile trackedFaces nextFaceId newDetections currentTime) in
  NoDup (map detectionIndex matched)
  /\ NoDup (map trackId matched)
  /\ forall p q, In p matched -> In q matched ->
       (detectionIndex p = detectionIndex q \/ trackId p = trackId q) -> p = q.
Proof.
  intros Hwf matched. unfold matched. rewrite reconcile_matchedPairs.
  destruct (matchTracks_table trackedFaces newDetections) as (_ & Hni & _ & Hnt).
  specialize (Hnt Hwf).
  split; [exact Hni|]. split; [exact Hnt|].
  intros p q Hp Hq [E|E].
  - exact (NoDup_map_inj detectionIndex _ p q Hni Hp Hq E).
  - exact (NoDup_map_inj trackId _ p q Hnt Hp Hq E).
Qed.

Lemma matched_pairs_injective_witness :
  JsMap.wf (trackedFaces twoTracks)
  /\ NoDup (map detectionIndex
              (r_matchedPairs
                 (reconcile (trackedFaces twoTracks) (nextFaceId twoTracks)
                    [faceBetween; faceBetween] 3000))).
Proof.
  assert (Hwf : JsMap.wf (trackedFaces twoTracks)).
  { unfold JsMap.wf. simpl. constructor.
    - intros [H|[]]. discriminate.
    - constructor; [intros []|constructor]. }
  split; [exact Hwf|].
  apply (matched_pairs_injective (trackedFaces twoTracks) (nextFaceId twoTracks)
           [faceBetween; faceBetween] 3000 Hwf).
Defined.



Lemma tryBlock_fields (st : JsMap.t StudentInfo) (e : bool) (s : AppState)
  (faces : list FaceResult) (now : Z) :
  let r := reconcile (trackedFaces s) (nextFaceId s) faces now in
  let l := logAttendance st now (r_detections r) (attendance s) (lastAttendanceLog s) in
  detectionResult (tryBlock st e s faces now) = fst (fst l)
  /\ attendance (tryBlock st e s faces now) = snd (fst l)
  /\ lastAttendanceLog (tryBlock st e s faces now) = snd l
  /\ students (tryBlock st e s faces now) = students s
  /\ capturedStudents (tryBlock st e s faces now) = capturedStudents s.
Proof.
  cbv zeta. unfold tryBlock.
  destruct (logAttendance st now
              (r_detections (reconcile (trackedFaces s) (nextFaceId s) faces now))
              (attendance s) (lastAttendanceLog s)) as [[f a] l].
  repeat split.
Qed.






(** C9. When the detection call of a cycle fails with an error other
    than the rate limit, the Track Table and the next-identifier counter
    are after the cycle what they were before it. *)
Theorem failed_detection_leaves_tracker (s : AppState) (currentTime : Z) :
  trackedFaces (captureAndAnalyze s DetectionFailed currentTime) = trackedFaces s
  /\ nextFaceId (captureAndAnalyze s DetectionFailed currentTime) = nextFaceId s
  /\ trackedFaces (completeCycle s DetectionFailed currentTime) = trackedFaces s
  /\ nextFaceId (completeCycle s DetectionFailed currentTime) = nextFaceId s.
Proof.
  unfold captureAndAnalyze.
  destruct (isProcessing s || negb (stream s)); simpl; repeat split;
    apply beginCycle_tracker.
Qed.

(** C10. Every identifier the reconciler stamps on a detection is an
    integer that is at least 1, in every reachable state, so the
    truthiness test of the attendance step holds for every annotated
    detection. *)
Theorem stamped_identifiers_positive
  (s : AppState) (faces : list FaceResult) (currentTime : Z) (d : FaceResult) :
  reachable s ->
  In d (r_detections (reconcile (trackedFaces s) (nextFaceId s) faces currentTime)) ->
  exists id, persistentId d = Some id /\ 1 <= id /\ truthy id = true.
Proof.
  intros Hreach Hin.
  destruct (reconcile_ids_positive _ _ faces currentTime d (reachable_inv s Hreach) Hin)
    as (id & Hid & Hpos).
  exists id. split; [exact Hid|]. split; [exact Hpos|].
  unfold truthy. apply negb_true_iff, Z.eqb_neq. lia.
Qed.

Lemma stamped_identifiers_positive_witness :
  exists id,
    persistentId (set_persistentId (face "b" (box 20 20 10 10)) 2) = Some id
    /\ 1 <= id /\ truthy id = true.
Proof.
  apply (stamped_identifiers_positive oneTrack [face "b" (box 20 20 10 10)] 2000).
  - apply reachable_run.
  - left. reflexivity.
Defined.

(** * Further properties of the code *)

(** ** The scorer *)

Lemma intersectionArea_sym (boxA boxB : BoundingBox) :
  (intersectionArea boxA boxB == intersectionArea boxB boxA)%Q.
Proof.
  unfold intersectionArea. cbv zeta.
  rewrite (Q.max_comm (x boxA) (x boxB)), (Q.max_comm (y boxA) (y boxB)).
  rewrite (Q.min_comm (x boxA + width boxA) (x boxB + width boxB)).
  rewrite (Q.min_comm (y boxA + height boxA) (y boxB + height boxB)).
  reflexivity.
Qed.

(** X1. The score does not depend on the order of the two regions. *)
Theorem calculateIoU_symmetric (boxA boxB : BoundingBox) :
  js_eq (calculateIoU boxA boxB) (calculateIoU boxB boxA).
Proof.
  pose proof (intersectionArea_sym boxA boxB) as Hi.
  destruct (calculateIoU_cases boxA boxB) as [[Hg ->]|(HA & HB & HU & ->)];
  destruct (calculateIoU_cases boxB boxA) as [[Hg' ->]|(HB' & HA' & HU' & ->)].
  - simpl. reflexivity.
  - exfalso. destruct Hg; lra.
  - exfalso. destruct Hg'; lra.
  - simpl. unfold unionArea in *. rewrite Hi.
    apply Qdiv_comp; [reflexivity|]. ring.
Qed.

(** X4. Two regions of which one ends, along the horizontal or the
    vertical axis, where the other begins or before, score 0. *)
Theorem calculateIoU_separated (boxA boxB : BoundingBox) :
  (x boxA + width boxA <= x boxB)%Q \/ (x boxB + width boxB <= x boxA)%Q
  \/ (y boxA + height boxA <= y boxB)%Q \/ (y boxB + height boxB <= y boxA)%Q ->
  js_eq (calculateIoU boxA boxB) (Fin 0).
Proof.
  intros Hsep.
  assert (Hi : (intersectionArea boxA boxB == 0)%Q).
  { unfold intersectionArea. cbv zeta.
    set (dx := (Qmin (x boxA + width boxA) (x boxB + width boxB) - Qmax (x boxA) (x boxB))%Q).
    set (dy := (Qmin (y boxA + height boxA) (y boxB + height boxB) - Qmax (y boxA) (y boxB))%Q).
    assert (Hcase : (dx <= 0)%Q \/ (dy <= 0)%Q).
    { unfold dx, dy.
      pose proof (Q.le_min_l (x boxA + width boxA) (x boxB + width boxB)).
      pose proof (Q.le_min_r (x boxA + width boxA) (x boxB + width boxB)).
      pose proof (Q.le_min_l (y boxA + height boxA) (y boxB + height boxB)).
      pose proof (Q.le_min_r (y boxA + height boxA) (y boxB + height boxB)).
      pose proof (Q.le_max_l (x boxA) (x boxB)). pose proof (Q.le_max_r (x boxA) (x boxB)).
      pose proof (Q.le_max_l (y boxA) (y boxB)). pose proof (Q.le_max_r (y boxA) (y boxB)).
      destruct Hsep as [?|[?|[?|?]]]; [left|left|right|right]; lra. }
    destruct Hcase as [H|H].
    - rewrite (Q.max_l 0 dx) by exact H. ring.
    - rewrite (Q.max_l 0 dy) by exact H. ring. }
  destruct (calculateIoU_cases boxA boxB) as [[_ ->]|(_ & _ & HU & ->)].
  - simpl. reflexivity.
  - simpl. rewrite Hi. unfold Qdiv. ring.
Qed.

Lemma calculateIoU_separated_witness :
  js_eq (calculateIoU (box 0 0 10 10) (box 10 0 10 10)) (Fin 0).
Proof.
  apply calculateIoU_separated. left. simpl. unfold Qle. simpl. lia.
Defined.

(** ** The matching loop *)

Lemma matchTracks_scores (dets : list FaceResult) (l : list (Z * TrackData))
  (p : list MatchedPair) (u : JsSet.t) (q : MatchedPair) :
  In q (fst (matchTracks l dets p u)) ->
  In q p \/ exists td d,
    In (trackId q, td) l
    /\ arr_get dets (detectionIndex q) = Some d
    /\ js_gtb (score td d) IOU_THRESHOLD = true.
Proof.
  revert p u. induction l as [|[tid td] rest IH]; intros p u Hin.
  - left. exact Hin.
  - simpl in Hin.
    destruct (findBestMatch_spec td dets u) as [[Hnone _]|[Hge Hbest]].
    + rewrite Hnone in Hin. simpl in Hin. apply IH in Hin.
      destruct Hin as [Hin|(td' & d & H1 & H2)]; [left; exact Hin|].
      right. exists td', d. split; [right; exact H1|exact H2].
    + assert (Hne : (fst (findBestMatch td dets u) =? -1) = false)
        by (apply Z.eqb_neq; lia).
      rewrite Hne in Hin. apply IH in Hin.
      destruct Hin as [Hin|(td' & d & H1 & H2)].
      * apply in_app_or in Hin. destruct Hin as [Hin|[<-|[]]]; [left; exact Hin|].
        right. destruct Hbest as (d & [Hd _] & Hthr & _).
        exists td, d. simpl. split; [left; reflexivity|]. split; assumption.
      * right. exists td', d. split; [right; exact H1|exact H2].
Qed.

Lemma degenerate_never_above_threshold (td : TrackData) (d : FaceResult) :
  degenerate (track_boundingBox td) \/ degenerate (boundingBox d) ->
  js_gtb (score td d) IOU_THRESHOLD = false.
Proof.
  intros Hd. unfold score.
  destruct (calculateIoU_cases (track_boundingBox td) (boundingBox d))
    as [[_ ->]|(_ & _ & HU & ->)].
  - reflexivity.
  - apply js_gtb_Fin_false.
    rewrite (intersectionArea_degenerate _ _ Hd). unfold Qdiv.
    setoid_replace (0 * / unionArea (track_boundingBox td) (boundingBox d))%Q with 0%Q by ring.
    unfold Qle. simpl. lia.
Qed.

Lemma reconcile_detections_length (tf : JsMap.t TrackData) (next : Z)
  (dets : list FaceResult) (now : Z) :
  length (r_detections (reconcile tf next dets now)) = length dets.
Proof.
  rewrite reconcile_eq. simpl. rewrite createTracks_length, applyMatches_length.
  reflexivity.
Qed.

Lemma reconcile_annotates (tf : JsMap.t TrackData) (next : Z)
  (dets : list FaceResult) (now j : Z) (d : FaceResult) :
  arr_get dets j = Some d ->
  exists id,
    arr_get (r_detections (reconcile tf next dets now)) j = Some (set_persistentId d id)
    /\ (In (mkPair id j) (r_matchedPairs (reconcile tf next dets now))
        \/ (JsSet.has (r_used (reconcile tf next dets now)) j = false
            /\ next <= id < r_nextFaceId (reconcile tf next dets now))).
Proof.
  intros Hd.
  assert (Hr : 0 <= j < Z.of_nat (length (r_detections (reconcile tf next dets now)))).
  { rewrite reconcile_detections_length. eapply arr_get_range. exact Hd. }
  destruct (arr_get_defined _ j Hr) as (d' & Hd').
  destruct (reconcile_annotated tf next dets now j d' Hd') as (d0 & id & Hd0 & -> & Hcase).
  rewrite Hd in Hd0. injection Hd0 as <-.
  exists id. split; [exact Hd'|].
  rewrite reconcile_matchedPairs, reconcile_used. exact Hcase.
Qed.

(** X5. A detection whose region has no extent is never paired with a
    track: it always opens a track under a fresh identifier. *)
Theorem degenerate_detection_opens_track
  (trackedFaces : JsMap.t TrackData) (nextFaceId : Z)
  (newDetections : list FaceResult) (currentTime : Z) (i : Z) (d : FaceResult) :
  arr_get newDetections i = Some d ->
  degenerate (boundingBox d) ->
  let r := reconcile trackedFaces nextFaceId newDetections currentTime in
  (forall tid, ~ In (mkPair tid i) (r_matchedPairs r))
  /\ exists id,
       arr_get (r_detections r) i = Some (set_persistentId d id)
       /\ nextFaceId <= id < r_nextFaceId r.
Proof.
  intros Hd Hdeg r.
  assert (Hno : forall tid, ~ In (mkPair tid i) (r_matchedPairs r)).
  { intros tid Hin. unfold r in Hin. rewrite reconcile_matchedPairs in Hin.
    apply matchTracks_scores in Hin. destruct Hin as [[]|(td & d' & _ & Hd' & Hthr)].
    simpl in Hd'. rewrite Hd in Hd'. injection Hd' as <-.
    rewrite degenerate_never_above_threshold in Hthr by (right; exact Hdeg).
    discriminate. }
  split; [exact Hno|].
  destruct (reconcile_annotates trackedFaces nextFaceId newDetections currentTime i d Hd)
    as (id & Hget & [Hin|[_ Hr]]).
  - exfalso. apply (Hno id). exact Hin.
  - exists id. split; assumption.
Qed.

Lemma degenerate_detection_opens_track_witness :
  exists id,
    arr_get (r_detections
               (reconcile (trackedFaces oneTrack) (nextFaceId oneTrack)
                  [face "flat" (box 0 0 10 0)] 2000)) 0
    = Some (set_persistentId (face "flat" (box 0 0 10 0)) id)
    /\ 2 <= id.
Proof.
  destruct (degenerate_detection_opens_track (trackedFaces oneTrack) (nextFaceId oneTrack)
              [face "flat" (box 0 0 10 0)] 2000 0 (face "flat" (box 0 0 10 0)) eq_refl)
    as [_ (id & H1 & H2)].
  - right. simpl. unfold Qle. simpl. lia.
  - exists id. split; [exact H1|]. simpl in H2. lia.
Defined.

(** X6. A track whose last region has no extent is never paired with a
    detection. *)
Theorem degenerate_track_never_matched
  (trackedFaces : JsMap.t TrackData) (nextFaceId : Z)
  (newDetections : list FaceResult) (currentTime : Z) (tid : Z) (td : TrackData) :
  JsMap.wf trackedFaces ->
  JsMap.get trackedFaces tid = Some td ->
  degenerate (track_boundingBox td) ->
  forall i, ~ In (mkPair tid i)
                 (r_matchedPairs (reconcile trackedFaces nextFaceId newDetections currentTime)).
Proof.
  intros Hwf Hget Hdeg i Hin. rewrite reconcile_matchedPairs in Hin.
  apply matchTracks_scores in Hin. destruct Hin as [[]|(td' & d & Hent & _ & Hthr)].
  simpl in Hent.
  assert (td' = td).
  { apply JsMap_get_In in Hget. unfold JsMap.entries in Hent.
    unfold JsMap.wf, JsMap.keys in Hwf.
    pose proof (NoDup_map_inj fst trackedFaces (tid, td') (tid, td) Hwf Hent Hget eq_refl) as E.
    injection E as E. exact E. }
  subst td'.
  rewrite degenerate_never_above_threshold in Hthr by (left; exact Hdeg).
  discriminate.
Qed.

Lemma degenerate_track_never_matched_witness :
  ~ In (mkPair 7 0)
       (r_matchedPairs
          (reconcile [(7, mkTrack (box 0 0 0 10) 1000 "thin")] 8
             [face "a" (box 0 0 10 10)] 2000)).
Proof.
  apply (degenerate_track_never_matched [(7, mkTrack (box 0 0 0 10) 1000 "thin")] 8
           [face "a" (box 0 0 10 10)] 2000 7 (mkTrack (box 0 0 0 10) 1000 "thin")).
  - repeat constructor. intros [].
  - reflexivity.
  - left. simpl. unfold Qle. simpl. lia.
Defined.

(** ** One pass of the reconciler, continued *)

(** X8. The pass returns the detections in their order, each one as it
    came but for the identifier stamped on it. *)
Theorem reconcile_annotates_in_place
  (trackedFaces : JsMap.t TrackData) (nextFaceId : Z)
  (newDetections : list FaceResult) (currentTime : Z) :
  let r := reconcile trackedFaces nextFaceId newDetections currentTime in
  length (r_detections r) = length newDetections
  /\ forall j d, arr_get newDetections j = Some d ->
       exists id, arr_get (r_detections r) j = Some (set_persistentId d id).
Proof.
  split; [apply reconcile_detections_length|].
  intros j d Hd.
  destruct (reconcile_annotates trackedFaces nextFaceId newDetections currentTime j d Hd)
    as (id & H & _).
  exists id. exact H.
Qed.

Lemma reconcile_annotates_in_place_witness :
  exists id,
    arr_get (r_detections (reconcile (trackedFaces oneTrack) (nextFaceId oneTrack)
                             [faceBetween] 2000)) 0
    = Some (set_persistentId faceBetween id).
Proof.
  destruct (reconcile_annotates_in_place (trackedFaces oneTrack) (nextFaceId oneTrack)
              [faceBetween] 2000) as [_ H].
  apply (H 0 faceBetween). reflexivity.
Defined.

Lemma createTracks_fresh_increasing (used : JsSet.t) (now : Z) (dets : list FaceResult)
  (idx next : Z) (tf : JsMap.t TrackData) (j1 j2 : Z) (d1 d2 : FaceResult) :
  j1 < j2 ->
  JsSet.has used (idx + j1) = false -> JsSet.has used (idx + j2) = false ->
  arr_get (snd (createTracks used now dets idx next tf)) j1 = Some d1 ->
  arr_get (snd (createTracks used now dets idx next tf)) j2 = Some d2 ->
  exists id1 id2, persistentId d1 = Some id1 /\ persistentId d2 = Some id2 /\ id1 < id2.
Proof.
  revert idx next tf j1 j2. induction dets as [|d rest IH]; intros idx next tf j1 j2 Hlt Hu1 Hu2.
  - simpl. intros H. apply arr_get_range in H. simpl in H. lia.
  - rewrite createTracks_cons. intros H1 H2.
    assert (Hj1 : 0 <= j1).
    { destruct (JsSet.has used idx); apply arr_get_range in H1; lia. }
    assert (Hrest : forall nx t, arr_get (snd (createTracks used now rest (idx + 1) nx t)) (j2 - 1)
                                 = Some d2 ->
                    exists id2, persistentId d2 = Some id2 /\ nx <= id2).
    { intros nx t Hg.
      assert (Hr : 0 <= j2 - 1 < Z.of_nat (length rest)).
      { apply arr_get_range in Hg. rewrite createTracks_length in Hg. exact Hg. }
      destruct (arr_get_defined rest (j2 - 1) Hr) as (d0 & Hd0).
      destruct (createTracks_positions used now rest (idx + 1) nx t (j2 - 1) d0 Hd0)
        as [_ Hnew].
      replace (idx + 1 + (j2 - 1)) with (idx + j2) in Hnew by lia.
      destruct (Hnew Hu2) as (id & Hid & Hg'). rewrite Hg' in Hg. injection Hg as <-.
      exists id. split; [reflexivity|lia]. }
    destruct (Z.eq_dec j1 0) as [->|Hne].
    + rewrite Z.add_0_r in Hu1. rewrite Hu1 in H1, H2. simpl in H1, H2.
      rewrite arr_get_cons in H1, H2. simpl in H1.
      assert (E : (j2 =? 0) = false) by (apply Z.eqb_neq; lia). rewrite E in H2.
      injection H1 as <-.
      destruct (Hrest _ _ H2) as (id2 & Hid2 & Hle).
      exists next, id2. split; [reflexivity|]. split; [exact Hid2|lia].
    + assert (E1 : (j1 =? 0) = false) by (apply Z.eqb_neq; exact Hne).
      assert (E2 : (j2 =? 0) = false) by (apply Z.eqb_neq; lia).
      destruct (JsSet.has used idx); simpl in H1, H2;
        rewrite arr_get_cons in H1, H2; rewrite E1 in H1; rewrite E2 in H2;
        (eapply (IH (idx + 1)); [| | |exact H1|exact H2];
         [lia|replace (idx + 1 + (j1 - 1)) with (idx + j1) by lia; exact Hu1
             |replace (idx + 1 + (j2 - 1)) with (idx + j2) by lia; exact Hu2]).
Qed.

Lemma NoDup_map_pairwise {A B : Type} (f : A -> B) (l : list A) :
  (forall i j a b, i <> j -> arr_get l i = Some a -> arr_get l j = Some b -> f a <> f b) ->
  NoDup (map f l).
Proof.
  induction l as [|a rest IH]; intros H; simpl; constructor.
  - intros Hin. apply in_map_iff in Hin. destruct Hin as (b & Hfb & Hb).
    apply arr_get_In in Hb. destruct Hb as (j & Hj).
    pose proof (arr_get_range _ _ _ Hj) as Hr.
    apply (H 0 (j + 1) a b); [lia|reflexivity| |congruence].
    rewrite arr_get_cons. replace (j + 1 =? 0) with false by (symmetry; apply Z.eqb_neq; lia).
    replace (j + 1 - 1) with j by lia. exact Hj.
  - apply IH. intros i j x y Hne Hi Hj.
    pose proof (arr_get_range _ _ _ Hi) as Hri. pose proof (arr_get_range _ _ _ Hj) as Hrj.
    apply (H (i + 1) (j + 1) x y); [lia| |].
    + rewrite arr_get_cons. replace (i + 1 =? 0) with false by (symmetry; apply Z.eqb_neq; lia).
      replace (i + 1 - 1) with i by lia. exact Hi.
    + rewrite arr_get_cons. replace (j + 1 =? 0) with false by (symmetry; apply Z.eqb_neq; lia).
      replace (j + 1 - 1) with j by lia. exact Hj.
Qed.

Lemma reconcile_ids_distinct (tf : JsMap.t TrackData) (next : Z)
  (dets : list FaceResult) (now : Z) :
  trackerInv tf next ->
  NoDup (map persistentId (r_detections (reconcile tf next dets now))).
Proof.
  intros Hinv. destruct Hinv as (Hwf & H1 & Hkeys).
  destruct (matchTracks_table tf dets) as (Hf & Hni & Hu & Hnt). specialize (Hnt Hwf).
  assert (Hwlog : forall i j a b, i < j ->
            arr_get (r_detections (reconcile tf next dets now)) i = Some a ->
            arr_get (r_detections (reconcile tf next dets now)) j = Some b ->
            persistentId a <> persistentId b).
  { intros i j a b Hlt Ha Hb.
    destruct (reconcile_annotated tf next dets now i a Ha) as (da & ida & _ & -> & Hca).
    destruct (reconcile_annotated tf next dets now j b Hb) as (db & idb & _ & -> & Hcb).
    simpl. intros E. injection E as E. subst idb.
    destruct Hca as [Hpa|[Hua Hra]], Hcb as [Hpb|[Hub Hrb]].
    - pose proof (NoDup_map_inj trackId _ _ _ Hnt Hpa Hpb eq_refl) as E.
      injection E as E. lia.
    - destruct (Hf _ Hpa) as [Hk _]. simpl in Hk. apply Hkeys in Hk. lia.
    - destruct (Hf _ Hpb) as [Hk _]. simpl in Hk. apply Hkeys in Hk. lia.
    - rewrite reconcile_eq in Ha, Hb. simpl in Ha, Hb.
      destruct (createTracks_fresh_increasing _ _ _ 0 _ _ i j _ _ Hlt Hua Hub Ha Hb)
        as (id1 & id2 & E1 & E2 & Hl).
      simpl in E1, E2. injection E1 as <-. injection E2 as <-. lia. }
  apply NoDup_map_pairwise. intros i j a b Hne Ha Hb.
  destruct (Z.lt_trichotomy i j) as [Hlt|[Heq|Hgt]]; [|contradiction|].
  - apply (Hwlog i j); assumption.
  - intros E. apply (Hwlog j i b a); [lia|assumption|assumption|congruence].
Qed.

(** X9. In every reachable state, no two detections of a cycle leave the
    reconciler with the same identifier. *)
Theorem reconcile_identifiers_distinct
  (s : AppState) (faces : list FaceResult) (currentTime : Z) :
  reachable s ->
  NoDup (map persistentId
           (r_detections (reconcile (trackedFaces s) (nextFaceId s) faces currentTime))).
Proof.
  intros Hreach. apply reconcile_ids_distinct. apply reachable_inv. exact Hreach.
Qed.

Lemma reconcile_identifiers_distinct_witness :
  NoDup (map persistentId
           (r_detections (reconcile (trackedFaces twoTracks) (nextFaceId twoTracks)
                            [faceBetween; faceBetween; sampleFace] 3000))).
Proof. apply reconcile_identifiers_distinct. apply reachable_run. Defined.

Lemma consecutiveFrom_S (a : Z) (n : nat) :
  consecutiveFrom a (S n) = a :: consecutiveFrom (a + 1) n.
Proof.
  unfold consecutiveFrom. simpl. rewrite Z.add_0_r. f_equal.
  rewrite <- seq_shift, map_map. apply map_ext. intros k. lia.
Qed.

Lemma consecutiveFrom_app (a : Z) (n m : nat) :
  consecutiveFrom a n ++ consecutiveFrom (a + Z.of_nat n) m = consecutiveFrom a (n + m).
Proof.
  revert a. induction n as [|n IH]; intros a.
  - simpl. rewrite Z.add_0_r. reflexivity.
  - replace (S n + m)%nat with (S (n + m)) by lia.
    rewrite !consecutiveFrom_S. simpl. f_equal.
    rewrite <- IH. do 2 f_equal. lia.
Qed.

Lemma createTracks_consecutive (used : JsSet.t) (now : Z) (dets : list FaceResult)
  (idx next : Z) (tf : JsMap.t TrackData) :
  createdIds used (snd (createTracks used now dets idx next tf)) idx
  = consecutiveFrom next
      (Z.to_nat (fst (fst (createTracks used now dets idx next tf)) - next)).
Proof.
  revert idx next tf. induction dets as [|d rest IH]; intros idx next tf.
  - simpl. rewrite Z.sub_diag. reflexivity.
  - rewrite createTracks_cons. destruct (JsSet.has used idx) eqn:Hu; simpl; rewrite Hu.
    + apply IH.
    + rewrite IH.
      pose proof (createTracks_next_le used now rest (idx + 1) (next + 1)
                    (JsMap.set tf next (trackOf d now))) as Hle.
      set (n' := fst (fst (createTracks used now rest (idx + 1) (next + 1)
                             (JsMap.set tf next (trackOf d now))))) in *.
      replace (Z.to_nat (n' - next)) with (S (Z.to_nat (n' - (next + 1)))) by lia.
      rewrite consecutiveFrom_S. reflexivity.
Qed.

Lemma sessionCreatedIds_consecutive (cycles : list (list FaceResult * Z))
  (tf : JsMap.t TrackData) (next : Z) :
  next <= snd (sessionState tf next cycles)
  /\ sessionCreatedIds tf next cycles
     = consecutiveFrom next (Z.to_nat (snd (sessionState tf next cycles) - next)).
Proof.
  revert tf next. induction cycles as [|[faces now] rest IH]; intros tf next.
  - simpl. split; [lia|]. rewrite Z.sub_diag. reflexivity.
  - simpl.
    pose proof (reconcile_next_le tf next faces now) as Hle.
    assert (Hc : createdIds (r_used (reconcile tf next faces now))
                   (r_detections (reconcile tf next faces now)) 0
                 = consecutiveFrom next
                     (Z.to_nat (r_nextFaceId (reconcile tf next faces now) - next))).
    { rewrite reconcile_eq. simpl. apply createTracks_consecutive. }
    set (r := reconcile tf next faces now) in *.
    destruct (IH (r_trackedFaces r) (r_nextFaceId r)) as [Hle' Hrest].
    split; [lia|].
    rewrite Hc, Hrest.
    replace (r_nextFaceId r) with (next + Z.of_nat (Z.to_nat (r_nextFaceId r - next))) at 2
      by lia.
    rewrite consecutiveFrom_app. f_equal. lia.
Qed.

(** X10. Over a capture session the identifiers are handed out without
    a gap: after any sequence of cycles that follows a start of the
    camera, the tracks created so far carry 1, 2, ..., n in the order of
    their creation and the counter stands at n + 1. *)
Theorem session_identifiers_consecutive
  (s : AppState) (o : CameraOutcome) (cycles : list (list FaceResult * Z)) :
  let s0 := handleStartCamera s o in
  let counter := snd (sessionState (trackedFaces s0) (nextFaceId s0) cycles) in
  1 <= counter
  /\ sessionCreatedIds (trackedFaces s0) (nextFaceId s0) cycles
     = consecutiveFrom 1 (Z.to_nat (counter - 1)).
Proof.
  assert (E : trackedFaces (handleStartCamera s o) = JsMap.empty
              /\ nextFaceId (handleStartCamera s o) = 1) by (destruct o; split; reflexivity).
  cbv zeta. destruct E as [-> ->]. apply sessionCreatedIds_consecutive.
Qed.

Lemma createTracks_get_new (used : JsSet.t) (now : Z) (dets : list FaceResult)
  (idx next : Z) (tf : JsMap.t TrackData) (j : Z) (d : FaceResult) :
  arr_get dets j = Some d ->
  JsSet.has used (idx + j) = false ->
  exists id,
    next <= id < fst (fst (createTracks used now dets idx next tf))
    /\ arr_get (snd (createTracks used now dets idx next tf)) j = Some (set_persistentId d id)
    /\ JsMap.get (snd (fst (createTracks used now dets idx next tf))) id
       = Some (trackOf d now).
Proof.
  revert idx next tf j. induction dets as [|d0 rest IH]; intros idx next tf j Hd Hu.
  - apply arr_get_range in Hd. simpl in Hd. lia.
  - rewrite createTracks_cons. rewrite arr_get_cons in Hd.
    destruct (j =? 0) eqn:Ej.
    + apply Z.eqb_eq in Ej. subst j. injection Hd as <-.
      rewrite Z.add_0_r in Hu. rewrite Hu. simpl.
      pose proof (createTracks_next_le used now rest (idx + 1) (next + 1)
                    (JsMap.set tf next (trackOf d0 now))) as Hle.
      exists next. split; [lia|]. split; [reflexivity|].
      rewrite createTracks_get_old by lia.
      rewrite JsMap_get_set, Z.eqb_refl. reflexivity.
    + replace (idx + j) with ((idx + 1) + (j - 1)) in Hu by lia.
      destruct (JsSet.has used idx); simpl; rewrite arr_get_cons, Ej.
      * apply IH; assumption.
      * destruct (IH (idx + 1) (next + 1) (JsMap.set tf next (trackOf d0 now)) (j - 1) Hd Hu)
          as (id & Hid & Hg & Hm).
        exists id. split; [lia|]. split; assumption.
Qed.

(** X11. After a cycle the table agrees with the detections: in every
    reachable state, each detection of the cycle is stamped with an
    identifier under which the new table holds the detection's region, the
    current time and the detection's label. *)
Theorem table_holds_every_detection
  (s : AppState) (faces : list FaceResult) (currentTime : Z) (j : Z) (d : FaceResult) :
  reachable s ->
  arr_get faces j = Some d ->
  let r := reconcile (trackedFaces s) (nextFaceId s) faces currentTime in
  exists id,
    arr_get (r_detections r) j = Some (set_persistentId d id)
    /\ JsMap.get (r_trackedFaces r) id
       = Some (mkTrack (boundingBox d) currentTime (personId d)).
Proof.
  intros Hreach Hd r.
  pose proof (reachable_inv s Hreach) as Hinv.
  destruct (matchTracks_table (trackedFaces s) faces) as (_ & Hni & Hu & _).
  destruct (JsSet.has (snd (matchTracks (JsMap.entries (trackedFaces s)) faces [] JsSet.empty)) j)
    eqn:Hused.
  - apply Hu in Hused. apply in_map_iff in Hused. destruct Hused as (q & <- & Hq).
    destruct (reconcile_get_matched _ _ faces currentTime Hinv q d Hq Hd) as [Hg Hs].
    exists (trackId q). split; assumption.
  - assert (Hnot : ~ In j (map detectionIndex
                     (fst (matchTracks (JsMap.entries (trackedFaces s)) faces [] JsSet.empty)))).
    { intros Hin. apply Hu in Hin. congruence. }
    pose proof (applyMatches_untouched currentTime _ JsMap.empty faces j Hnot) as Hs.
    rewrite Hd in Hs.
    destruct (createTracks_get_new _ currentTime _ 0 (nextFaceId s)
                (fst (applyMatches
                        (fst (matchTracks (JsMap.entries (trackedFaces s)) faces
                                [] JsSet.empty))
                        currentTime JsMap.empty faces))
                j d Hs Hused)
      as (id & _ & Hg & Hm).
    exists id. unfold r. rewrite reconcile_eq. simpl. split; [exact Hg|].
    destruct Hinv as (Hwf & _).
    rewrite carryForward_get by exact Hwf. rewrite Hm. reflexivity.
Qed.

Lemma table_holds_every_detection_witness :
  exists id,
    arr_get (r_detections (reconcile (trackedFaces twoTracks) (nextFaceId twoTracks)
                             [faceBetween] 3000)) 0
    = Some (set_persistentId faceBetween id)
    /\ JsMap.get (r_trackedFaces (reconcile (trackedFaces twoTracks) (nextFaceId twoTracks)
                                    [faceBetween] 3000)) id
       = Some (mkTrack (boundingBox faceBetween) 3000 (personId faceBetween)).
Proof.
  apply (table_holds_every_detection twoTracks [faceBetween] 3000 0 faceBetween).
  - apply reachable_run.
  - reflexivity.
Defined.

Lemma Forall_JsMap_set {V : Type} (P : Z * V -> Prop) (m : JsMap.t V) (k : Z) (v : V) :
  Forall P m -> P (k, v) -> Forall P (JsMap.set m k v).
Proof.
  intros Hm Hv. induction m as [|[k' v'] rest IH]; simpl.
  - constructor; [exact Hv|constructor].
  - inversion Hm as [|? ? Hh Ht]. subst.
    destruct (k' =? k); constructor; auto.
Qed.

Lemma applyMatches_values (P : Z * TrackData -> Prop) (now : Z)
  (pairs : list MatchedPair) (tf : JsMap.t TrackData) (dets : list FaceResult) :
  (forall k d, P (k, trackOf d now)) ->
  Forall P tf -> Forall P (fst (applyMatches pairs now tf dets)).
Proof.
  intros HP. revert tf dets. induction pairs as [|p rest IH]; intros tf dets H; simpl.
  - exact H.
  - destruct (pair_detection dets p); apply IH; [|exact H].
    apply Forall_JsMap_set; [exact H|apply HP].
Qed.

Lemma createTracks_values (P : Z * TrackData -> Prop) (used : JsSet.t) (now : Z)
  (dets : list FaceResult) (idx next : Z) (tf : JsMap.t TrackData) :
  (forall k d, P (k, trackOf d now)) ->
  Forall P tf -> Forall P (snd (fst (createTracks used now dets idx next tf))).
Proof.
  intros HP. revert idx next tf. induction dets as [|d rest IH]; intros idx next tf H.
  - exact H.
  - rewrite createTracks_cons. destruct (JsSet.has used idx); simpl; apply IH; [exact H|].
    apply Forall_JsMap_set; [exact H|apply HP].
Qed.

Lemma carryForward_values (P : Z * TrackData -> Prop) (now : Z)
  (l : list (Z * TrackData)) (m : JsMap.t TrackData) :
  (forall k td, In (k, td) l -> isFresh now td = true -> P (k, td)) ->
  Forall P m -> Forall P (carryForward l now m).
Proof.
  revert m. induction l as [|[k td] rest IH]; intros m HP H; simpl.
  - exact H.
  - fold (isFresh now td).
    destruct (isFresh now td && negb (JsMap.has m k)) eqn:E.
    + apply andb_true_iff in E. destruct E as [Ef _].
      apply IH; [intros; apply HP; [right|]; assumption|].
      apply Forall_JsMap_set; [exact H|]. apply HP; [left; reflexivity|exact Ef].
    + apply IH; [intros; apply HP; [right|]; assumption|exact H].
Qed.

(** X12. Right after a cycle the table holds no stale track: every track
    of the new table was seen at most 20000 ms before the time of the
    cycle, and it is either refreshed in this cycle or a track of the
    previous table carried over as it was. *)
Theorem table_fresh_after_cycle
  (trackedFaces : JsMap.t TrackData) (nextFaceId : Z)
  (newDetections : list FaceResult) (currentTime : Z) (k : Z) (td : TrackData) :
  In (k, td)
     (JsMap.entries
        (r_trackedFaces (reconcile trackedFaces nextFaceId newDetections currentTime))) ->
  currentTime - lastSeen td <= 20000
  /\ (lastSeen td = currentTime \/ In (k, td) (JsMap.entries trackedFaces)).
Proof.
  rewrite reconcile_eq. simpl. unfold JsMap.entries.
  set (P := fun e : Z * TrackData =>
              currentTime - lastSeen (snd e) <= 20000
              /\ (lastSeen (snd e) = currentTime \/ In e trackedFaces)).
  assert (Hnew : forall k' d, P (k', trackOf d currentTime)).
  { intros k' d. unfold P. simpl. split; [lia|left; reflexivity]. }
  intros Hin.
  assert (Hall : Forall P
            (carryForward trackedFaces currentTime
               (snd (fst (createTracks
                            (snd (matchTracks trackedFaces newDetections [] JsSet.empty))
                            currentTime
                            (snd (applyMatches
                                    (fst (matchTracks trackedFaces newDetections [] JsSet.empty))
                                    currentTime JsMap.empty newDetections))
                            0 nextFaceId
                            (fst (applyMatches
                                    (fst (matchTracks trackedFaces newDetections [] JsSet.empty))
                                    currentTime JsMap.empty newDetections))))))).
  { apply carryForward_values.
    - intros k' td' Hold Hf. unfold P. simpl. split; [|right; exact Hold].
      unfold isFresh, MAX_INACTIVITY_MS in Hf. apply Z.leb_le in Hf. exact Hf.
    - apply createTracks_values; [exact Hnew|].
      apply applyMatches_values; [exact Hnew|constructor]. }
  rewrite Forall_forall in Hall. apply (Hall (k, td) Hin).
Qed.

Lemma table_fresh_after_cycle_witness :
  21000 - lastSeen (mkTrack (box 0 0 10 10) 1000 "Person with glasses") <= 20000.
Proof.
  apply (table_fresh_after_cycle (trackedFaces oneTrack) (nextFaceId oneTrack) [] 21000 1).
  left. reflexivity.
Defined.

(** X13. In every reachable state the table has one entry per
    identifier, the counter is at least 1, and every identifier of the
    table is at least 1 and below the counter. *)
Theorem counter_above_live_identifiers (s : AppState) :
  reachable s ->
  NoDup (JsMap.keys (trackedFaces s))
  /\ 1 <= nextFaceId s
  /\ forall k, In k (JsMap.keys (trackedFaces s)) -> 1 <= k < nextFaceId s.
Proof. intros H. exact (reachable_inv s H). Qed.

Lemma counter_above_live_identifiers_witness :
  NoDup (JsMap.keys (trackedFaces twoTracks)) /\ 1 <= 2 < nextFaceId twoTracks.
Proof.
  destruct (counter_above_live_identifiers twoTracks (reachable_run _)) as (H1 & _ & H3).
  split; [exact H1|]. apply H3. left. reflexivity.
Defined.

Lemma matchTracks_no_detections (l : list (Z * TrackData)) (p : list MatchedPair)
  (u : JsSet.t) :
  matchTracks l [] p u = (p, u).
Proof.
  induction l as [|[tid td] rest IH]; simpl; [reflexivity|exact IH].
Qed.

Lemma carryForward_empty (now : Z) (l : list (Z * TrackData)) :
  NoDup (map fst l) ->
  carryForward l now JsMap.empty = filter (fun e => isFresh now (snd e)) l.
Proof.
  intros Hnd.
  assert (G : forall m, (forall k, In k (map fst l) -> JsMap.has m k = false) ->
              carryForward l now m = m ++ filter (fun e => isFresh now (snd e)) l).
  { induction l as [|[k td] rest IH]; intros m Hm; simpl.
    - rewrite app_nil_r. reflexivity.
    - simpl in Hnd. inversion Hnd as [|? ? Hn Hnd']. subst.
      fold (isFresh now td).
      rewrite (Hm k) by (left; reflexivity). simpl. rewrite andb_true_r.
      assert (Hfresh : JsMap.get m k = None).
      { pose proof (Hm k (or_introl eq_refl)) as H. unfold JsMap.has in H.
        destruct (JsMap.get m k); [discriminate|reflexivity]. }
      destruct (isFresh now td).
      + rewrite IH; [| exact Hnd' |].
        * assert (E : JsMap.set m k td = m ++ [(k, td)]).
          { clear - Hfresh. induction m as [|[k' v'] m IHm]; simpl in *; [reflexivity|].
            destruct (k' =? k); [discriminate|]. rewrite IHm by exact Hfresh. reflexivity. }
          rewrite E, <- app_assoc. reflexivity.
        * intros k' Hk'. unfold JsMap.has. rewrite JsMap_get_set.
          destruct (k' =? k) eqn:E; [apply Z.eqb_eq in E; subst; contradiction|].
          apply (Hm k'). right. exact Hk'.
      + apply IH; [exact Hnd'|]. intros k' Hk'. apply Hm. right. exact Hk'. }
  apply (G JsMap.empty). intros k _. reflexivity.
Qed.

(** X14. A cycle in which nothing is detected pairs nothing, creates
    nothing and leaves the counter; it keeps, in their order and as they
    are, the tracks seen at most 20000 ms ago and drops the others. *)
Theorem cycle_without_detections
  (trackedFaces : JsMap.t TrackData) (nextFaceId : Z) (currentTime : Z) :
  JsMap.wf trackedFaces ->
  let r := reconcile trackedFaces nextFaceId [] currentTime in
  r_matchedPairs r = []
  /\ r_detections r = []
  /\ r_nextFaceId r = nextFaceId
  /\ r_trackedFaces r
     = filter (fun e => currentTime - lastSeen (snd e) <=? 20000) trackedFaces.
Proof.
  intros Hwf. cbv zeta. unfold reconcile, JsMap.entries.
  rewrite matchTracks_no_detections. simpl.
  repeat split. apply carryForward_empty. exact Hwf.
Qed.

Lemma cycle_without_detections_witness :
  r_trackedFaces (reconcile (trackedFaces twoTracks) (nextFaceId twoTracks) [] 21500)
  = filter (fun e => 21500 - lastSeen (snd e) <=? 20000) (trackedFaces twoTracks).
Proof.
  apply (cycle_without_detections (trackedFaces twoTracks) (nextFaceId twoTracks) 21500).
  unfold JsMap.wf. simpl. constructor.
  - intros [H|[]]. discriminate.
  - constructor; [intros []|constructor].
Defined.

Lemma JsMap_set_fresh {V : Type} (m : JsMap.t V) (k : Z) (v : V) :
  JsMap.get m k = None -> JsMap.set m k v = m ++ [(k, v)].
Proof.
  induction m as [|[k' v'] rest IH]; simpl; intros H; [reflexivity|].
  destruct (k' =? k); [discriminate|]. rewrite IH by exact H. reflexivity.
Qed.

Lemma createTracks_all_unused (now : Z) (dets : list FaceResult)
  (idx next : Z) (tf : JsMap.t TrackData) :
  (forall k, In k (JsMap.keys tf) -> k < next) ->
  createTracks JsSet.empty now dets idx next tf
  = (next + Z.of_nat (length dets),
     tf ++ map (fun p => (fst p, trackOf (snd p) now))
             (combine (consecutiveFrom next (length dets)) dets),
     map (fun p => set_persistentId (snd p) (fst p))
       (combine (consecutiveFrom next (length dets)) dets)).
Proof.
  revert idx next tf. induction dets as [|d rest IH]; intros idx next tf Hlt.
  - simpl. rewrite Z.add_0_r, app_nil_r. reflexivity.
  - rewrite createTracks_cons. simpl JsSet.has. cbv iota.
    rewrite IH.
    + simpl length. rewrite consecutiveFrom_S. simpl combine. simpl map.
      rewrite JsMap_set_fresh.
      * rewrite <- app_assoc. simpl app.
        replace (next + 1 + Z.of_nat (length rest)) with (next + Z.of_nat (S (length rest)))
          by lia.
        reflexivity.
      * apply JsMap_get_None. intros Hin. apply Hlt in Hin. lia.
    + intros k Hk. apply JsMap_keys_set_In in Hk. destruct Hk as [->|Hk]; [lia|].
      apply Hlt in Hk. lia.
Qed.

(** X15. Identifiers start again at 1 with every start of the camera,
    while enrolment, the attendance log and the debounce registry are
    kept: in the first cycle after a start, whatever the outcome of the
    camera request and whatever happened before, nothing is paired and
    the detections are stamped 1, 2, ..., n in their order, the table
    holding exactly these tracks. *)
Theorem first_cycle_after_start
  (s : AppState) (o : CameraOutcome) (faces : list FaceResult) (currentTime : Z) :
  let s0 := handleStartCamera s o in
  let r := reconcile (trackedFaces s0) (nextFaceId s0) faces currentTime in
  let ids := consecutiveFrom 1 (length faces) in
  students s0 = students s
  /\ attendance s0 = attendance s
  /\ lastAttendanceLog s0 = lastAttendanceLog s
  /\ r_matchedPairs r = []
  /\ r_detections r = map (fun p => set_persistentId (snd p) (fst p)) (combine ids faces)
  /\ r_trackedFaces r = map (fun p => (fst p, trackOf (snd p) currentTime)) (combine ids faces)
  /\ r_nextFaceId r = 1 + Z.of_nat (length faces).
Proof.
  assert (E : trackedFaces (handleStartCamera s o) = JsMap.empty
              /\ nextFaceId (handleStartCamera s o) = 1
              /\ students (handleStartCamera s o) = students s
              /\ attendance (handleStartCamera s o) = attendance s
              /\ lastAttendanceLog (handleStartCamera s o) = lastAttendanceLog s)
    by (destruct o; repeat split).
  cbv zeta. destruct E as (-> & -> & -> & -> & ->).
  split; [reflexivity|]. split; [reflexivity|]. split; [reflexivity|].
  unfold reconcile. simpl matchTracks. cbv iota. simpl applyMatches. cbv iota.
  rewrite createTracks_all_unused by (intros k []).
  simpl. repeat split.
Qed.

(** ** The attendance loop, continued *)

Section AttendanceMore.

Variables (students : JsMap.t StudentInfo) (now : Z).

Lemma logFace_face (f : FaceResult) (att : list AttendanceRecord) (log : JsMap.t Z) :
  fst (fst (logFace students now f att log)) = attachStudent students f.
Proof.
  unfold logFace, attachStudent.
  destruct (persistentId f) as [id|]; [|reflexivity].
  destruct (truthy id); [|reflexivity].
  destruct (JsMap.get students id); [|reflexivity].
  destruct (shouldLog (JsMap.get log id) now); reflexivity.
Qed.

Lemma logAttendance_faces (faces : list FaceResult) (att : list AttendanceRecord)
  (log : JsMap.t Z) :
  fst (fst (logAttendance students now faces att log)) = map (attachStudent students) faces.
Proof.
  revert att log. induction faces as [|f rest IH]; intros att log; [reflexivity|].
  simpl logAttendance.
  pose proof (logFace_face f att log) as Hf.
  destruct (logFace students now f att log) as [[f' a1] l1].
  pose proof (IH a1 l1) as Hr.
  destruct (logAttendance students now rest a1 l1) as [[r' a2] l2].
  simpl in *. congruence.
Qed.

(** The records a cycle appends: each one carries the time of the cycle,
    the identifier of some face of the cycle, enrolled, and that face's
    emotion; with distinct identifiers on the faces, no identifier is
    logged twice. *)
Lemma logAttendance_records (faces : list FaceResult) (att : list AttendanceRecord)
  (log : JsMap.t Z) :
  exists extra,
    snd (fst (logAttendance students now faces att log)) = att ++ extra
    /\ (forall rec, In rec extra ->
          timestamp rec = now
          /\ JsMap.has students (att_persistentId rec) = true
          /\ exists f, In f faces /\ persistentId f = Some (att_persistentId rec)
                       /\ att_emotion rec = emotion f)
    /\ (NoDup (map persistentId faces) -> NoDup (map att_persistentId extra)).
Proof.
  revert att log. induction faces as [|f rest IH]; intros att log.
  - exists []. simpl. rewrite app_nil_r. split; [reflexivity|].
    split; [intros rec []|intros _; constructor].
  - simpl logAttendance.
    assert (Hcase :
      (exists id f', persistentId f = Some id
         /\ shouldEmit students log now id = true
         /\ logFace students now f att log
            = (f', att ++ [mkAttendance id now (emotion f)], JsMap.set log id now))
      \/ (exists f', logFace students now f att log = (f', att, log))).
    { destruct (persistentId f) as [id|] eqn:Hid.
      - destruct (shouldEmit students log now id) eqn:He.
        + left. destruct (logFace_emits students now f att log id Hid He) as (f' & Hf').
          exists id, f'. auto.
        + right. apply logFace_silent. intros id' H. congruence.
      - right. apply logFace_silent. intros id' H. congruence. }
    destruct Hcase as [(id & f' & Hid & He & ->)|(f' & ->)].
    + destruct (IH (att ++ [mkAttendance id now (emotion f)]) (JsMap.set log id now))
        as (extra & Hatt & Hrec & Hnd).
      destruct (logAttendance students now rest
                  (att ++ [mkAttendance id now (emotion f)]) (JsMap.set log id now))
        as [[r' a'] l'].
      simpl in *. exists (mkAttendance id now (emotion f) :: extra).
      split; [rewrite Hatt, <- app_assoc; reflexivity|]. split.
      * intros rec [<-|Hin].
        -- simpl. split; [reflexivity|]. split.
           ++ unfold shouldEmit in He. apply andb_true_iff in He. destruct He as [He _].
              apply andb_true_iff in He. apply He.
           ++ exists f. auto.
        -- destruct (Hrec rec Hin) as (H1 & H2 & g & Hg & H3).
           split; [exact H1|]. split; [exact H2|]. exists g. split; [right|]; assumption.
      * intros Hn. inversion Hn as [|? ? Hnotin Hn']. subst.
        simpl. constructor; [|apply Hnd; exact Hn'].
        intros Hin. apply in_map_iff in Hin. destruct Hin as (rec & Hrid & Hin).
        destruct (Hrec rec Hin) as (_ & _ & g & Hg & Hgid & _).
        apply Hnotin. rewrite Hid, <- Hrid, <- Hgid. apply in_map. exact Hg.
    + destruct (IH att log) as (extra & Hatt & Hrec & Hnd).
      destruct (logAttendance students now rest att log) as [[r' a'] l'].
      simpl in *. exists extra. split; [exact Hatt|]. split.
      * intros rec Hin. destruct (Hrec rec Hin) as (H1 & H2 & g & Hg & H3).
        split; [exact H1|]. split; [exact H2|]. exists g. split; [right|]; assumption.
      * intros Hn. inversion Hn. subst. apply Hnd. assumption.
Qed.

End AttendanceMore.

Lemma analysisSucceeded_fields (s : AppState) (faces : list FaceResult) (now : Z) :
  let r := reconcile (trackedFaces s) (nextFaceId s) faces now in
  let l := logAttendance (students s) now (r_detections r)
             (attendance s) (lastAttendanceLog s) in
  detectionResult (analysisSucceeded s faces now) = fst (fst l)
  /\ attendance (analysisSucceeded s faces now) = snd (fst l)
  /\ lastAttendanceLog (analysisSucceeded s faces now) = snd l
  /\ students (analysisSucceeded s faces now) = students s.
Proof.
  cbv zeta. unfold analysisSucceeded.
  destruct (tryBlock_fields (students s) (isApiError s) s faces now)
    as (H1 & H2 & H3 & H4 & _).
  repeat split; assumption.
Qed.

(** A whole cycle shows, logs and records what the [try] block does in
    the closure of the render the cycle starts in. *)
Lemma captureAndAnalyze_detected (s : AppState) (faces : list FaceResult) (now : Z) :
  isProcessing s = false ->
  stream s = true ->
  let whole := captureAndAnalyze s (Detected faces) now in
  let block := tryBlock (students s) (isApiError s) s faces now in
  detectionResult whole = detectionResult block
  /\ attendance whole = attendance block
  /\ lastAttendanceLog whole = lastAttendanceLog block
  /\ students whole = students block.
Proof.
  intros Hp Hs. cbv zeta.
  assert (E : isProcessing s || negb (stream s) = false) by (rewrite Hp, Hs; reflexivity).
  unfold captureAndAnalyze, beginCycle. rewrite E.
  unfold completeCycle, tryBlock.
  cbn [trackedFaces nextFaceId attendance lastAttendanceLog capturedStudents
       capturedIsApiError].
  destruct (logAttendance (students s) now
              (r_detections (reconcile (trackedFaces s) (nextFaceId s) faces now))
              (attendance s) (lastAttendanceLog s)) as [[f a] l].
  split; [reflexivity|]. split; [reflexivity|]. split; reflexivity.
Qed.

(** X16. A successful cycle only appends to the attendance log, and
    every record it appends carries the time of the cycle, the identifier
    of one of the cycle's detections, enrolled in [students], and that
    detection's emotion. *)
Theorem attendance_append_only
  (s : AppState) (faces : list FaceResult) (currentTime : Z) :
  let r := reconcile (trackedFaces s) (nextFaceId s) faces currentTime in
  exists extra,
    attendance (analysisSucceeded s faces currentTime) = attendance s ++ extra
    /\ forall rec, In rec extra ->
         timestamp rec = currentTime
         /\ JsMap.has (students s) (att_persistentId rec) = true
         /\ exists d, In d (r_detections r)
                      /\ persistentId d = Some (att_persistentId rec)
                      /\ att_emotion rec = emotion d.
Proof.
  cbv zeta.
  destruct (analysisSucceeded_fields s faces currentTime) as (_ & -> & _).
  destruct (logAttendance_records (students s) currentTime
              (r_detections (reconcile (trackedFaces s) (nextFaceId s) faces currentTime))
              (attendance s) (lastAttendanceLog s)) as (extra & Hatt & Hrec & _).
  exists extra. split; assumption.
Qed.

(** X17. In every reachable state a cycle logs an identifier at most
    once: the records it appends carry pairwise distinct identifiers. *)
Theorem one_event_per_identifier
  (s : AppState) (faces : list FaceResult) (currentTime : Z) :
  reachable s ->
  exists extra,
    attendance (analysisSucceeded s faces currentTime) = attendance s ++ extra
    /\ NoDup (map att_persistentId extra).
Proof.
  intros Hreach.
  destruct (analysisSucceeded_fields s faces currentTime) as (_ & -> & _).
  destruct (logAttendance_records (students s) currentTime
              (r_detections (reconcile (trackedFaces s) (nextFaceId s) faces currentTime))
              (attendance s) (lastAttendanceLog s)) as (extra & Hatt & _ & Hnd).
  exists extra. split; [exact Hatt|]. apply Hnd.
  apply reconcile_ids_distinct. apply reachable_inv. exact Hreach.
Qed.

Lemma one_event_per_identifier_witness :
  exists extra,
    attendance (analysisSucceeded (handleSaveStudent oneTrack 1 (mkStudent "Ada" "R1"))
                  [sampleFace; sampleFace] 2000)
    = attendance (handleSaveStudent oneTrack 1 (mkStudent "Ada" "R1")) ++ extra
    /\ NoDup (map att_persistentId extra).
Proof.
  apply one_event_per_identifier.
  exists [], [],
    [StartCamera CameraGranted; Tick (Detected [sampleFace]) 1000;
     SaveStudent 1 (mkStudent "Ada" "R1")].
  reflexivity.
Defined.

(** X18. A successful cycle leaves enrolment as it is, and it changes the
    debounce registry only at identifiers that are enrolled and stamped
    on a detection of the cycle, and only to the time of the cycle. *)
Theorem registry_changes_only_where_logged
  (s : AppState) (faces : list FaceResult) (currentTime : Z) (id : Z) :
  let r := reconcile (trackedFaces s) (nextFaceId s) faces currentTime in
  let s' := analysisSucceeded s faces currentTime in
  students s' = students s
  /\ (JsMap.get (lastAttendanceLog s') id = JsMap.get (lastAttendanceLog s) id
      \/ (JsMap.get (lastAttendanceLog s') id = Some currentTime
          /\ hasId (r_detections r) id = true
          /\ JsMap.has (students s) id = true)).
Proof.
  cbv zeta.
  destruct (analysisSucceeded_fields s faces currentTime) as (_ & _ & -> & ->).
  split; [reflexivity|].
  destruct (logAttendance_spec (students s) currentTime
              (r_detections (reconcile (trackedFaces s) (nextFaceId s) faces currentTime))
              (attendance s) (lastAttendanceLog s)) as (extra & _ & Hids).
  destruct (Hids id) as [_ Hget]. rewrite Hget.
  destruct (hasId _ id) eqn:Hh; [|left; reflexivity].
  destruct (shouldEmit (students s) (lastAttendanceLog s) currentTime id) eqn:He;
    [|left; reflexivity].
  right. simpl. split; [reflexivity|]. split; [reflexivity|].
  unfold shouldEmit in He. apply andb_true_iff in He. destruct He as [He _].
  apply andb_true_iff in He. apply He.
Qed.

Lemma arr_get_map {A B : Type} (f : A -> B) (l : list A) (j : Z) :
  arr_get (map f l) j = option_map f (arr_get l j).
Proof.
  unfold arr_get. destruct (j <? 0); [reflexivity|]. apply nth_error_map.
Qed.

Lemma displayed_face (st : JsMap.t StudentInfo) (e : bool) (s : AppState)
  (faces : list FaceResult) (now j : Z) (d : FaceResult) :
  trackerInv (trackedFaces s) (nextFaceId s) ->
  arr_get faces j = Some d ->
  exists id,
    1 <= id
    /\ arr_get (r_detections (reconcile (trackedFaces s) (nextFaceId s) faces now)) j
       = Some (set_persistentId d id)
    /\ arr_get (detectionResult (tryBlock st e s faces now)) j
       = Some (mkFace (personId d) (emotion d) (confidence d) (boundingBox d) (Some id)
                 match JsMap.get st id with
                 | Some info => Some info
                 | None => studentInfo d
                 end).
Proof.
  intros Hinv Hd.
  destruct (reconcile_annotates (trackedFaces s) (nextFaceId s) faces now j d Hd)
    as (id & Hg & _).
  assert (Hpos : 1 <= id).
  { destruct (reconcile_ids_positive _ _ faces now (set_persistentId d id) Hinv)
      as (id' & E & Hp).
    - apply arr_get_In. exists j. exact Hg.
    - simpl in E. injection E as <-. exact Hp. }
  exists id. split; [exact Hpos|]. split; [exact Hg|].
  destruct (tryBlock_fields st e s faces now) as (-> & _).
  rewrite logAttendance_faces, arr_get_map, Hg. simpl. f_equal.
  unfold attachStudent. simpl.
  assert (Ht : truthy id = true) by (unfold truthy; apply negb_true_iff, Z.eqb_neq; lia).
  rewrite Ht. destruct (JsMap.get st id); reflexivity.
Qed.

(** X19. What a successful cycle displays: in every reachable state the
    j-th displayed face is the j-th detection as the detector gave it,
    with its identifier stamped on it and, when that identifier is
    enrolled in the enrolment map the call holds (the map of the moment
    the cycle began), the student's record attached; for a cycle that
    nothing interleaves with, that map is the current enrolment. *)
Theorem displayed_faces_carry_identity
  (s : AppState) (faces : list FaceResult) (currentTime : Z) (j : Z) (d : FaceResult) :
  reachable s ->
  arr_get faces j = Some d ->
  exists id,
    1 <= id
    /\ arr_get (r_detections (reconcile (trackedFaces s) (nextFaceId s) faces currentTime)) j
       = Some (set_persistentId d id)
    /\ arr_get (detectionResult (completeCycle s (Detected faces) currentTime)) j
       = Some (mkFace (personId d) (emotion d) (confidence d) (boundingBox d) (Some id)
                 match JsMap.get (capturedStudents s) id with
                 | Some info => Some info
                 | None => studentInfo d
                 end)
    /\ (isProcessing s = false -> stream s = true ->
        arr_get (detectionResult (captureAndAnalyze s (Detected faces) currentTime)) j
        = Some (mkFace (personId d) (emotion d) (confidence d) (boundingBox d) (Some id)
                  match JsMap.get (students s) id with
                  | Some info => Some info
                  | None => studentInfo d
                  end)).
Proof.
  intros Hreach Hd. pose proof (reachable_inv s Hreach) as Hinv.
  destruct (displayed_face (capturedStudents s) (capturedIsApiError s) s faces currentTime
              j d Hinv Hd) as (id & Hpos & Hg & Hshow).
  exists id. split; [exact Hpos|]. split; [exact Hg|]. split; [exact Hshow|].
  intros Hp Hs.
  destruct (captureAndAnalyze_detected s faces currentTime Hp Hs) as (-> & _).
  destruct (displayed_face (students s) (isApiError s) s faces currentTime
              j d Hinv Hd) as (id' & _ & Hg' & Hshow').
  rewrite Hg in Hg'. injection Hg' as <-. exact Hshow'.
Qed.

Lemma displayed_faces_carry_identity_witness :
  let s := run (initialState [] [])
             [StartCamera CameraGranted; Tick (Detected [sampleFace]) 1000;
              CycleBegins; SaveStudent 1 (mkStudent "Ada" "R1")] in
  exists id,
    1 <= id
    /\ arr_get (r_detections (reconcile (trackedFaces s) (nextFaceId s) [sampleFace] 2000)) 0
       = Some (set_persistentId sampleFace id)
    /\ arr_get (detectionResult (completeCycle s (Detected [sampleFace]) 2000)) 0
       = Some (mkFace (personId sampleFace) (emotion sampleFace) (confidence sampleFace)
                 (boundingBox sampleFace) (Some id)
                 match JsMap.get (capturedStudents s) id with
                 | Some info => Some info
                 | None => studentInfo sampleFace
                 end).
Proof.
  cbv zeta.
  destruct (displayed_faces_carry_identity
              (run (initialState [] [])
                 [StartCamera CameraGranted; Tick (Detected [sampleFace]) 1000;
                  CycleBegins; SaveStudent 1 (mkStudent "Ada" "R1")])
              [sampleFace] 2000 0 sampleFace) as (id & H1 & H2 & H3 & _).
  - apply reachable_run.
  - reflexivity.
  - exists id. split; [exact H1|]. split; [exact H2|exact H3].
Defined.

(** X20. Registering a student under an identifier touches neither the
    tracker nor the registry nor anybody else's enrolment nor the
    enrolment map an outstanding call holds.  A cycle that begins after
    the registration displays a detection stamped with that identifier
    with this student's record; a call that was outstanding at the
    registration, begun while the identifier was not enrolled, displays
    it without a record. *)
Theorem saved_student_is_attached
  (s : AppState) (id : Z) (info : StudentInfo)
  (faces : list FaceResult) (currentTime : Z) (j : Z) (d : FaceResult) :
  reachable s ->
  let s1 := handleSaveStudent s id info in
  arr_get (r_detections (reconcile (trackedFaces s1) (nextFaceId s1) faces currentTime)) j
    = Some d ->
  persistentId d = Some id ->
  trackedFaces s1 = trackedFaces s
  /\ nextFaceId s1 = nextFaceId s
  /\ lastAttendanceLog s1 = lastAttendanceLog s
  /\ capturedStudents s1 = capturedStudents s
  /\ (forall k, k <> id -> JsMap.get (students s1) k = JsMap.get (students s) k)
  /\ (isProcessing s = false -> stream s = true ->
      exists d',
        arr_get (detectionResult (captureAndAnalyze s1 (Detected faces) currentTime)) j
          = Some d'
        /\ persistentId d' = Some id
        /\ studentInfo d' = Some info)
  /\ (JsMap.get (capturedStudents s) id = None ->
      arr_get (detectionResult (completeCycle s1 (Detected faces) currentTime)) j = Some d).
Proof.
  intros Hreach s1 Hj Hid.
  split; [reflexivity|]. split; [reflexivity|]. split; [reflexivity|].
  split; [reflexivity|]. split.
  { intros k Hk. unfold s1. simpl. rewrite JsMap_get_set.
    destruct (k =? id) eqn:E; [apply Z.eqb_eq in E; contradiction|reflexivity]. }
  assert (Hr : 0 <= j < Z.of_nat (length faces)).
  { apply arr_get_range in Hj. rewrite reconcile_detections_length in Hj. exact Hj. }
  destruct (arr_get_defined faces j Hr) as (d0 & Hd0).
  pose proof (reachable_inv s Hreach) as Hinv.
  split.
  - intros Hp Hs.
    destruct (captureAndAnalyze_detected s1 faces currentTime Hp Hs) as (-> & _).
    destruct (displayed_face (students s1) (isApiError s1) s1 faces currentTime j d0
                Hinv Hd0) as (id' & _ & Hg & Hshow).
    rewrite Hg in Hj. injection Hj as <-. simpl in Hid. injection Hid as ->.
    eexists. split; [exact Hshow|]. split; [reflexivity|].
    simpl. unfold s1. simpl. rewrite JsMap_get_set, Z.eqb_refl. reflexivity.
  - intros Hnone.
    destruct (displayed_face (capturedStudents s1) (capturedIsApiError s1) s1 faces
                currentTime j d0 Hinv Hd0) as (id' & _ & Hg & Hshow).
    rewrite Hg in Hj. injection Hj as <-. simpl in Hid. injection Hid as ->.
    change (detectionResult (completeCycle s1 (Detected faces) currentTime))
      with (detectionResult
              (tryBlock (capturedStudents s1) (capturedIsApiError s1) s1 faces currentTime)).
    rewrite Hshow. change (capturedStudents s1) with (capturedStudents s).
    rewrite Hnone. reflexivity.
Qed.

Lemma saved_student_is_attached_witness :
  (exists d',
     arr_get (detectionResult
                (captureAndAnalyze (handleSaveStudent oneTrack 1 (mkStudent "Ada" "R1"))
                   (Detected [sampleFace]) 2000)) 0 = Some d'
     /\ persistentId d' = Some 1
     /\ studentInfo d' = Some (mkStudent "Ada" "R1"))
  /\ arr_get (detectionResult
                (completeCycle (handleSaveStudent oneTrack 1 (mkStudent "Ada" "R1"))
                   (Detected [sampleFace]) 2000)) 0
     = Some (set_persistentId sampleFace 1).
Proof.
  destruct (saved_student_is_attached oneTrack 1 (mkStudent "Ada" "R1") [sampleFace] 2000 0
              (set_persistentId sampleFace 1) (reachable_run _))
    as (_ & _ & _ & _ & _ & H1 & H2).
  - reflexivity.
  - reflexivity.
  - split; [apply H1; reflexivity|apply H2; reflexivity].
Defined.

(** ** The handlers *)

(** X22. No handler cancels the timer of a rate-limit pause: stopping
    and starting the camera leave it pending, and a pending timer ends
    the pause when it fires, whichever rate-limit error started the
    pause.  With a timer left over from an earlier pause, the pause that
    a new rate-limit error starts ends as soon as one timer fires, while
    a timer is still due. *)
Theorem stale_timer_ends_later_pause (s : AppState) (o : CameraOutcome) (t : Z) :
  (0 < pendingResumeTimers s)%nat ->
  let paused := completeCycle s RateLimit t in
  pendingResumeTimers (handleStopCamera s) = pendingResumeTimers s
  /\ pendingResumeTimers (handleStartCamera s o) = pendingResumeTimers s
  /\ isPausedForRateLimit paused = true
  /\ isPausedForRateLimit (resumeAfterRateLimit paused) = false
  /\ pendingResumeTimers (resumeAfterRateLimit paused) = pendingResumeTimers s.
Proof.
  intros Hpos. cbv zeta.
  split; [unfold handleStopCamera; destruct (stream s); reflexivity|].
  split; [destruct o; reflexivity|].
  split; [reflexivity|].
  unfold resumeAfterRateLimit. simpl. destruct (srcObject s); split; reflexivity.
Qed.

Lemma stale_timer_ends_later_pause_witness :
  let s := run (initialState [] [])
             [StartCamera CameraGranted; Tick RateLimit 1000; StopCamera;
              StartCamera CameraGranted] in
  reachable s
  /\ isPausedForRateLimit (completeCycle s RateLimit 30000) = true
  /\ isPausedForRateLimit (resumeAfterRateLimit (completeCycle s RateLimit 30000)) = false
  /\ pendingResumeTimers (resumeAfterRateLimit (completeCycle s RateLimit 30000)) = 1%nat.
Proof.
  cbv zeta. split; [apply reachable_run|].
  destruct (stale_timer_ends_later_pause
              (run (initialState [] [])
                 [StartCamera CameraGranted; Tick RateLimit 1000; StopCamera;
                  StartCamera CameraGranted]) CameraGranted 30000)
    as (_ & _ & H1 & H2 & H3).
  - simpl. lia.
  - split; [exact H1|]. split; [exact H2|exact H3].
Defined.

(** ** The detection service *)

Lemma prefix_iff (s1 s2 : string) :
  String.prefix s1 s2 = true <-> exists post, s2 = (s1 ++ post)%string.
Proof.
  revert s2. induction s1 as [|a s1 IH]; intros s2.
  - destruct s2; simpl; (split; [intros _; eexists; reflexivity|reflexivity]).
  - destruct s2 as [|b s2]; simpl.
    + split; [discriminate|intros (post & H); discriminate].
    + destruct (Ascii.ascii_dec a b) as [->|Hne].
      * rewrite IH. split; intros (post & H); exists post; [rewrite H; reflexivity|].
        injection H as H. exact H.
      * split; [discriminate|]. intros (post & H). injection H as H _. congruence.
Qed.

Lemma includes_unfold (hay needle : string) :
  includes hay needle
  = if String.prefix needle hay then true
    else match hay with EmptyString => false | String _ rest => includes rest needle end.
Proof. destruct hay; reflexivity. Qed.

(** [includes] is the substring test. *)
Lemma includes_iff (hay needle : string) :
  includes hay needle = true <-> exists pre post, hay = (pre ++ needle ++ post)%string.
Proof.
  split.
  - induction hay as [|c rest IH]; rewrite includes_unfold;
      destruct (String.prefix needle _) eqn:E.
    + intros _. apply prefix_iff in E. destruct E as (post & E).
      exists EmptyString, post. exact E.
    + discriminate.
    + intros _. apply prefix_iff in E. destruct E as (post & E).
      exists EmptyString, post. exact E.
    + intros H. destruct (IH H) as (pre & post & Hr).
      exists (String c pre), post. simpl. rewrite Hr. reflexivity.
  - intros (pre & post & H). revert hay H.
    induction pre as [|c pre IH]; intros hay H; rewrite includes_unfold.
    + simpl in H. assert (E : String.prefix needle hay = true).
      { apply prefix_iff. exists post. exact H. }
      rewrite E. reflexivity.
    + destruct (String.prefix needle hay); [reflexivity|].
      simpl in H. subst hay. apply IH. reflexivity.
Qed.

(** X23. Which failures pause the session: [detectFacesAndHands] throws
    one of two messages, and the caller's test for the rate limit holds
    of the thrown message exactly when the failure inside (of the API
    call, of [trim], of [JSON.parse] or of the check of the structure) is
    an [Error] whose message contains RESOURCE_EXHAUSTED or 429. *)
Theorem rate_limit_classification
  (trim : string -> string) (JSON_parse : string -> string + Json)
  (undefinedTrim : string) (o : ApiOutcome) (message : string) :
  detectFacesAndHands trim JSON_parse undefinedTrim o = inl message ->
  (message = RATE_LIMIT_MESSAGE \/ message = GENERIC_FAILURE)
  /\ (pausesSession message = true <->
      exists m pre post,
        requestDetection trim JSON_parse undefinedTrim o = inl (ErrorWith m)
        /\ (m = (pre ++ "RESOURCE_EXHAUSTED" ++ post)%string
            \/ m = (pre ++ "429" ++ post)%string)).
Proof.
  unfold detectFacesAndHands.
  destruct (requestDetection trim JSON_parse undefinedTrim o) as [e|v]; [|discriminate].
  destruct (isRateLimitError e) eqn:Hr; intros H; injection H as <-.
  - split; [left; reflexivity|]. split; [intros _|reflexivity].
    destruct e as [m|]; [|discriminate]. simpl in Hr.
    apply orb_true_iff in Hr. destruct Hr as [Hr|Hr];
      apply includes_iff in Hr; destruct Hr as (pre & post & Hm);
      exists m, pre, post; auto.
  - split; [right; reflexivity|]. split; [discriminate|].
    intros (m & pre & post & He & Hm). injection He as ->. simpl in Hr.
    apply orb_false_iff in Hr. destruct Hr as [H1 H2].
    destruct Hm as [Hm|Hm].
    + assert (includes m "RESOURCE_EXHAUSTED" = true) by (apply includes_iff; eauto).
      congruence.
    + assert (includes m "429" = true) by (apply includes_iff; eauto).
      congruence.
Qed.

Lemma rate_limit_classification_witness :
  pausesSession RATE_LIMIT_MESSAGE = true <->
  exists m pre post,
    requestDetection (fun t => t) (fun _ => inl "Unexpected token"%string) "undefined"
      (ApiThrows (ErrorWith "got status: 429 Too Many Requests")) = inl (ErrorWith m)
    /\ (m = (pre ++ "RESOURCE_EXHAUSTED" ++ post)%string
        \/ m = (pre ++ "429" ++ post)%string).
Proof.
  apply (rate_limit_classification (fun t => t) (fun _ => inl "Unexpected token"%string)
           "undefined" (ApiThrows (ErrorWith "got status: 429 Too Many Requests"))
           RATE_LIMIT_MESSAGE).
  reflexivity.
Defined.

(** X24. [detectFacesAndHands] returns a value exactly when the API
    responded with a text whose parse is an object with an array under
    [faces] and an array under [hands], and it returns that parse; a
    response that parses to anything else is reported with the generic
    message, never as a rate limit. *)
Theorem detection_returns_checked_structure
  (trim : string -> string) (JSON_parse : string -> string + Json)
  (undefinedTrim : string) (o : ApiOutcome) :
  (forall v,
     detectFacesAndHands trim JSON_parse undefinedTrim o = inr v <->
     exists text fields faces hands,
       o = ApiResponds (Some text)
       /\ JSON_parse (trim text) = inr v
       /\ v = JObj fields
       /\ field fields "faces" = Some (JArr faces)
       /\ field fields "hands" = Some (JArr hands))
  /\ (forall text v,
        o = ApiResponds (Some text) ->
        JSON_parse (trim text) = inr v ->
        detectFacesAndHands trim JSON_parse undefinedTrim o = inr v
        \/ detectFacesAndHands trim JSON_parse undefinedTrim o = inl GENERIC_FAILURE).
Proof.
  assert (Hvalid : forall v,
            negb (json_truthy v) || negb (isArray (prop v "faces"))
              || negb (isArray (prop v "hands")) = false
            <-> exists fields faces hands,
                  v = JObj fields
                  /\ field fields "faces" = Some (JArr faces)
                  /\ field fields "hands" = Some (JArr hands)).
  { intros v. split.
    - intros H. apply orb_false_iff in H. destruct H as [H Hh].
      apply orb_false_iff in H. destruct H as [_ Hf].
      apply negb_false_iff in Hf, Hh.
      destruct v as [| | | | |fields]; try discriminate.
      simpl in Hf, Hh.
      destruct (field fields "faces") as [[| | | |faces|]|] eqn:Ef; try discriminate.
      destruct (field fields "hands") as [[| | | |hands|]|] eqn:Eh; try discriminate.
      exists fields, faces, hands. auto.
    - intros (fields & faces & hands & -> & Hf & Hh). simpl. rewrite Hf, Hh. reflexivity. }
  split.
  - intros v. unfold detectFacesAndHands, requestDetection. split.
    + destruct o as [e|[text|]].
      * destruct (isRateLimitError e); discriminate.
      * destruct (JSON_parse (trim text)) as [m|p] eqn:Ep.
        -- destruct (isRateLimitError (ErrorWith m)); discriminate.
        -- destruct (negb (json_truthy p) || negb (isArray (prop p "faces"))
                     || negb (isArray (prop p "hands"))) eqn:Ev.
           ++ destruct (isRateLimitError (ErrorWith INVALID_STRUCTURE)); discriminate.
           ++ intros H. injection H as <-.
              apply Hvalid in Ev. destruct Ev as (fields & faces & hands & Hv & Hf & Hh).
              exists text, fields, faces, hands. auto.
      * destruct (isRateLimitError (ErrorWith undefinedTrim)); discriminate.
    + intros (text & fields & faces & hands & -> & Hp & Hv & Hf & Hh).
      rewrite Hp.
      assert (Ev : negb (json_truthy v) || negb (isArray (prop v "faces"))
                   || negb (isArray (prop v "hands")) = false).
      { apply Hvalid. exists fields, faces, hands. auto. }
      rewrite Ev. reflexivity.
  - intros text v -> Hp. unfold detectFacesAndHands, requestDetection. rewrite Hp.
    destruct (negb (json_truthy v) || negb (isArray (prop v "faces"))
              || negb (isArray (prop v "hands"))); [right|left]; reflexivity.
Qed.

Lemma detection_returns_checked_structure_witness :
  detectFacesAndHands (fun t => t) (fun _ => inr (JObj [("faces"%string, JNull)]))
    "undefined" (ApiResponds (Some "{}"%string))
  = inr (JObj [("faces"%string, JNull)])
  \/ detectFacesAndHands (fun t => t) (fun _ => inr (JObj [("faces"%string, JNull)]))
       "undefined" (ApiResponds (Some "{}"%string))
     = inl GENERIC_FAILURE.
Proof.
  destruct (detection_returns_checked_structure (fun t => t)
              (fun _ => inr (JObj [("faces"%string, JNull)])) "undefined"
              (ApiResponds (Some "{}"%string))) as [_ H].
  apply (H "{}"%string); reflexivity.
Defined.

(** ** The export *)

Lemma csvRow_Some_iff (d t : Z -> string) (students : JsMap.t StudentInfo)
  (r : AttendanceRecord) :
  JsMap.has students (att_persistentId r) = true <-> exists row, csvRow d t students r = Some row.
Proof.
  unfold csvRow, JsMap.has. destruct (JsMap.get students (att_persistentId r)).
  - split; [intros _; eauto|reflexivity].
  - split; [discriminate|intros (row & H); discriminate].
Qed.

Lemma append_nil_r (a : string) : (a ++ EmptyString)%string = a.
Proof.
  induction a as [|c a IH]; [reflexivity|]. simpl. rewrite IH. reflexivity.
Qed.

Lemma append_assoc (a b c : string) : ((a ++ b) ++ c)%string = (a ++ b ++ c)%string.
Proof.
  induction a as [|ch a IH]; [reflexivity|]. simpl. rewrite IH. reflexivity.
Qed.

(** [join] puts the separator in front of every item but the first. *)
Lemma join_cons (sep a : string) (items : list string) :
  join sep (a :: items)
  = (a ++ fold_right (fun item rest => sep ++ item ++ rest) EmptyString items)%string.
Proof.
  revert a. induction items as [|b rest IH]; intros a.
  - simpl. rewrite append_nil_r. reflexivity.
  - change (join sep (a :: b :: rest)) with (a ++ sep ++ join sep (b :: rest))%string.
    rewrite IH. reflexivity.
Qed.

Lemma csvRows_lines (d t : Z -> string) (students : JsMap.t StudentInfo)
  (attendance : list AttendanceRecord) :
  fold_right (fun item rest => lineFeed ++ item ++ rest)%string EmptyString
    (csvRows d t attendance students)
  = fold_right (fun record rest => exportedLine d t students record ++ rest)%string
      EmptyString attendance.
Proof.
  unfold csvRows. induction attendance as [|r rest IH]; [reflexivity|].
  cbn [map fold_right].
  assert (Hrow : csvRow d t students r
                 = match JsMap.get students (att_persistentId r) with
                   | None => None
                   | Some student =>
                       Some (join ","
                               [quoted (rollNumber student); quoted (name student);
                                quoted (d (timestamp r)); quoted (t (timestamp r));
                                quoted (emotionName (att_emotion r))])
                   end) by reflexivity.
  unfold exportedLine at 1.
  destruct (JsMap.get students (att_persistentId r)) as [student|]; rewrite Hrow.
  - cbn [withoutNull fold_right]. rewrite IH.
    cbn [join]. rewrite !append_assoc. reflexivity.
  - cbn [withoutNull]. rewrite IH. reflexivity.
Qed.

Lemma csvContent_lines (d t : Z -> string) (attendance : list AttendanceRecord)
  (students : JsMap.t StudentInfo) :
  csvContent d t attendance students
  = ("Roll Number,Name,Date,Time,Emotion"
     ++ fold_right (fun record rest => exportedLine d t students record ++ rest)
          EmptyString attendance)%string.
Proof.
  unfold csvContent. rewrite join_cons, csvRows_lines. reflexivity.
Qed.

(** X25. The exported text is the line of headers followed, for each
    record of the log whose identifier is enrolled and in the order of
    the log, by a line feed and the quoted roll number, name, date, time
    and emotion separated by commas; a record whose identifier is not
    enrolled contributes nothing. *)
Theorem csv_content_is_headers_and_enrolled_lines
  (toLocaleDateString toLocaleTimeString : Z -> string)
  (attendance : list AttendanceRecord) (students : JsMap.t StudentInfo) :
  csvContent toLocaleDateString toLocaleTimeString attendance students
  = ("Roll Number,Name,Date,Time,Emotion"
     ++ fold_right
          (fun record rest =>
             match JsMap.get students (att_persistentId record) with
             | None => rest
             | Some student =>
                 lineFeed
                 ++ quoted (rollNumber student) ++ ","
                 ++ quoted (name student) ++ ","
                 ++ quoted (toLocaleDateString (timestamp record)) ++ ","
                 ++ quoted (toLocaleTimeString (timestamp record)) ++ ","
                 ++ quoted (emotionName (att_emotion record)) ++ rest
             end)
          EmptyString attendance)%string.
Proof.
  rewrite csvContent_lines. f_equal.
  induction attendance as [|r rest IH]; [reflexivity|].
  cbn [fold_right]. rewrite IH. unfold exportedLine.
  destruct (JsMap.get students (att_persistentId r)) as [student|]; [|reflexivity].
  rewrite !append_assoc. reflexivity.
Qed.

Lemma step_capturedEnrolled (s : AppState) (e : Event) :
  capturedEnrolled s -> capturedEnrolled (step s e).
Proof.
  intros H. destruct e as [o| |o now| |o now|id info|]; simpl.
  - destruct o; exact H.
  - unfold handleStopCamera. destruct (stream s); exact H.
  - unfold captureAndAnalyze. destruct (isProcessing s || negb (stream s)) eqn:E; [exact H|].
    unfold beginCycle. rewrite E. unfold capturedEnrolled, completeCycle.
    destruct o as [faces| |]; cbn [set_isProcessing capturedStudents students analysisFailed];
      try (intros id Hid; exact Hid).
    match goal with
    | |- context [tryBlock ?st ?b ?s0 faces now] =>
        destruct (tryBlock_fields st b s0 faces now) as (_ & _ & _ & -> & ->)
    end.
    intros id Hid. exact Hid.
  - unfold beginCycle. destruct (isProcessing s || negb (stream s)); [exact H|].
    intros id Hid. exact Hid.
  - destruct (isProcessing s); [|exact H].
    unfold capturedEnrolled, completeCycle.
    destruct o as [faces| |]; cbn [set_isProcessing capturedStudents students analysisFailed];
      try exact H.
    destruct (tryBlock_fields (capturedStudents s) (capturedIsApiError s) s faces now)
      as (_ & _ & _ & -> & ->).
    exact H.
  - intros k Hk. apply H in Hk. unfold JsMap.has in *. simpl. rewrite JsMap_get_set.
    destruct (k =? id); [reflexivity|exact Hk].
  - unfold resumeAfterRateLimit. destruct (pendingResumeTimers s); [exact H|].
    destruct (srcObject s); exact H.
Qed.

Lemma reachable_capturedEnrolled (s : AppState) : reachable s -> capturedEnrolled s.
Proof.
  intros (st & att & evs & ->).
  assert (H : capturedEnrolled (initialState st att)) by (intros id Hid; exact Hid).
  revert H. generalize (initialState st att).
  induction evs as [|e rest IH]; intros s0 H; [exact H|].
  change (run s0 (e :: rest)) with (run (step s0 e) rest).
  apply IH. apply step_capturedEnrolled. exact H.
Qed.

Lemma step_keeps_log_and_enrolment (s : AppState) (e : Event) :
  (exists extra, attendance (step s e) = attendance s ++ extra)
  /\ forall id, JsMap.has (students s) id = true -> JsMap.has (students (step s e)) id = true.
Proof.
  assert (Hsame : forall s', attendance s' = attendance s -> students s' = students s ->
            (exists extra, attendance s' = attendance s ++ extra)
            /\ forall id, JsMap.has (students s) id = true -> JsMap.has (students s') id = true).
  { intros s' Ha Hs. split; [exists []; rewrite app_nil_r; exact Ha|].
    intros id H. rewrite Hs. exact H. }
  assert (Hcycle : forall s0 o now, attendance s0 = attendance s -> students s0 = students s ->
            (exists extra, attendance (completeCycle s0 o now) = attendance s ++ extra)
            /\ forall id, JsMap.has (students s) id = true ->
                          JsMap.has (students (completeCycle s0 o now)) id = true).
  { intros s0 o now Ha Hs. destruct o as [faces| |].
    - unfold completeCycle. simpl.
      destruct (tryBlock_fields (capturedStudents s0) (capturedIsApiError s0) s0 faces now)
        as (_ & -> & _ & -> & _).
      destruct (logAttendance_records (capturedStudents s0) now
                  (r_detections (reconcile (trackedFaces s0) (nextFaceId s0) faces now))
                  (attendance s0) (lastAttendanceLog s0)) as (extra & -> & _).
      split; [exists extra; rewrite Ha; reflexivity|].
      intros id H. rewrite Hs. exact H.
    - apply Hsame; simpl; assumption.
    - apply Hsame; simpl; assumption. }
  destruct e as [o| |o now| |o now|id info|]; simpl.
  - apply Hsame; destruct o; reflexivity.
  - apply Hsame; unfold handleStopCamera; destruct (stream s); reflexivity.
  - unfold captureAndAnalyze. destruct (isProcessing s || negb (stream s)) eqn:E.
    + apply Hsame; reflexivity.
    + apply Hcycle; unfold beginCycle; rewrite E; reflexivity.
  - apply Hsame; unfold beginCycle; destruct (isProcessing s || negb (stream s)); reflexivity.
  - destruct (isProcessing s); [apply Hcycle|apply Hsame]; reflexivity.
  - split; [exists []; rewrite app_nil_r; reflexivity|].
    intros k H. unfold JsMap.has in *. rewrite JsMap_get_set.
    destruct (k =? id); [reflexivity|exact H].
  - apply Hsame; unfold resumeAfterRateLimit; destruct (pendingResumeTimers s);
      try destruct (srcObject s); reflexivity.
Qed.

Lemma run_keeps_log_and_enrolment (events : list Event) (s : AppState) :
  (exists extra, attendance (run s events) = attendance s ++ extra)
  /\ forall id, JsMap.has (students s) id = true ->
                JsMap.has (students (run s events)) id = true.
Proof.
  revert s. induction events as [|e rest IH]; intros s.
  - simpl. split; [exists []; rewrite app_nil_r; reflexivity|auto].
  - change (run s (e :: rest)) with (run (step s e) rest).
    destruct (step_keeps_log_and_enrolment s e) as [(x1 & H1) H2].
    destruct (IH (step s e)) as [(x2 & H3) H4].
    split.
    + exists (x1 ++ x2). rewrite H3, H1, app_assoc. reflexivity.
    + intros id H. apply H4, H2, H.
Qed.

(** The line of a record of the log stands in the exported text. *)
Lemma exportedLine_in_content (d t : Z -> string) (students : JsMap.t StudentInfo)
  (attendance : list AttendanceRecord) (r : AttendanceRecord) :
  In r attendance ->
  exists pre post,
    csvContent d t attendance students
    = (pre ++ exportedLine d t students r ++ post)%string.
Proof.
  intros Hin. rewrite csvContent_lines.
  assert (H : exists pre post,
            fold_right (fun record rest => exportedLine d t students record ++ rest)%string
              EmptyString attendance
            = (pre ++ exportedLine d t students r ++ post)%string).
  { induction attendance as [|a rest IH]; [destruct Hin|].
    cbn [fold_right]. destruct Hin as [->|Hin].
    - exists EmptyString. eexists. reflexivity.
    - destruct (IH Hin) as (pre & post & ->).
      exists (exportedLine d t students a ++ pre)%string, post.
      rewrite append_assoc. reflexivity. }
  destruct H as (pre & post & ->).
  exists ("Roll Number,Name,Date,Time,Emotion" ++ pre)%string, post.
  rewrite append_assoc. reflexivity.
Qed.

(** X26. Nothing that happens to the component removes a record from the
    attendance log or an enrolment: in every reachable state, every record
    that the completion of a cycle appends is still in the log after any
    further events, its identifier is still enrolled, and the text of a
    download made then contains the line of that record: a line feed and
    the quoted roll number and name of the student then enrolled under
    the identifier, the date and the time of the record and its emotion,
    separated by commas. *)
Theorem logged_events_are_exported
  (toLocaleDateString toLocaleTimeString : Z -> string)
  (s : AppState) (faces : list FaceResult) (currentTime : Z) (events : list Event) :
  reachable s ->
  let logged := completeCycle s (Detected faces) currentTime in
  let later := run logged events in
  exists extra,
    attendance logged = attendance s ++ extra
    /\ forall rec, In rec extra ->
         In rec (attendance later)
         /\ exists student pre post,
              JsMap.get (students later) (att_persistentId rec) = Some student
              /\ csvContent toLocaleDateString toLocaleTimeString
                   (attendance later) (students later)
                 = (pre
                    ++ (lineFeed
                        ++ quoted (rollNumber student) ++ ","
                        ++ quoted (name student) ++ ","
                        ++ quoted (toLocaleDateString (timestamp rec)) ++ ","
                        ++ quoted (toLocaleTimeString (timestamp rec)) ++ ","
                        ++ quoted (emotionName (att_emotion rec)))
                    ++ post)%string.
Proof.
  intros Hreach. cbv zeta.
  pose proof (reachable_capturedEnrolled s Hreach) as Hcap.
  set (logged := completeCycle s (Detected faces) currentTime).
  assert (Hf : attendance logged
               = snd (fst (logAttendance (capturedStudents s) currentTime
                             (r_detections
                                (reconcile (trackedFaces s) (nextFaceId s) faces currentTime))
                             (attendance s) (lastAttendanceLog s)))
               /\ students logged = students s).
  { destruct (tryBlock_fields (capturedStudents s) (capturedIsApiError s) s faces currentTime)
      as (_ & Ha & _ & Hs & _).
    split; [exact Ha|exact Hs]. }
  destruct Hf as [Ha Hs].
  destruct (logAttendance_records (capturedStudents s) currentTime
              (r_detections (reconcile (trackedFaces s) (nextFaceId s) faces currentTime))
              (attendance s) (lastAttendanceLog s)) as (extra & Hatt & Hrec & _).
  exists extra. split; [rewrite Ha; exact Hatt|].
  intros rec Hin.
  destruct (run_keeps_log_and_enrolment events logged) as [(x & Hx) Hen].
  assert (Hlater : In rec (attendance (run logged events))).
  { rewrite Hx, Ha, Hatt. apply in_or_app. left. apply in_or_app. right. exact Hin. }
  split; [exact Hlater|].
  destruct (Hrec rec Hin) as (_ & Hh & _).
  apply Hcap in Hh. rewrite <- Hs in Hh. apply Hen in Hh.
  unfold JsMap.has in Hh.
  destruct (JsMap.get (students (run logged events)) (att_persistentId rec))
    as [student|] eqn:Hst; [|discriminate].
  destruct (exportedLine_in_content toLocaleDateString toLocaleTimeString
              (students (run logged events)) (attendance (run logged events)) rec Hlater)
    as (pre & post & Hc).
  exists student, pre, post. split; [reflexivity|].
  rewrite Hc. unfold exportedLine. rewrite Hst. reflexivity.
Qed.

Lemma logged_events_are_exported_witness :
  let s := run (initialState [] [])
             [StartCamera CameraGranted; Tick (Detected [sampleFace]) 1000;
              SaveStudent 1 (mkStudent "Ada" "R1"); CycleBegins] in
  let later := run (completeCycle s (Detected [sampleFace]) 2000) [StopCamera] in
  exists pre post,
    csvContent (fun _ => "d"%string) (fun _ => "t"%string)
      (attendance later) (students later)
    = (pre
       ++ (lineFeed ++ quoted "R1" ++ "," ++ quoted "Ada" ++ "," ++ quoted "d" ++ ","
           ++ quoted "t" ++ "," ++ quoted "Neutral")
       ++ post)%string.
Proof.
  cbv zeta.
  destruct (logged_events_are_exported (fun _ => "d"%string) (fun _ => "t"%string)
              (run (initialState [] [])
                 [StartCamera CameraGranted; Tick (Detected [sampleFace]) 1000;
                  SaveStudent 1 (mkStudent "Ada" "R1"); CycleBegins])
              [sampleFace] 2000 [StopCamera] (reachable_run _)) as (extra & Hatt & H).
  destruct (H (mkAttendance 1 2000 Neutral)) as (_ & student & pre & post & Hst & Hc).
  - vm_compute in Hatt. rewrite <- Hatt. left. reflexivity.
  - injection Hst as <-. exists pre, post. exact Hc.
Defined.

Lemma attendance_append_only_witness :
  exists extra,
    attendance (analysisSucceeded (handleSaveStudent oneTrack 1 (mkStudent "Ada" "R1"))
                  [sampleFace] 2000)
    = attendance (handleSaveStudent oneTrack 1 (mkStudent "Ada" "R1")) ++ extra
    /\ forall rec, In rec extra -> timestamp rec = 2000.
Proof.
  destruct (attendance_append_only (handleSaveStudent oneTrack 1 (mkStudent "Ada" "R1"))
              [sampleFace] 2000) as (extra & Hatt & H).
  exists extra. split; [exact Hatt|]. intros rec Hin. apply (H rec Hin).
Defined.
